(** * hoek: clone, merge, applyToDefaults and contain over a JavaScript heap

    A shallow embedding of [lib/index.js].  JavaScript objects live in a
    heap of object records addressed by location; every function of the
    library that reads or writes objects is a function on that heap.
    Beside the four functions of the title, the file holds [reach] and
    [reachTemplate], [flatten], [intersect], [once] and the escapes of
    patterns and of header attributes.

    Scope of the embedding of the language itself:
    - numbers are the integers and NaN (no fractions, infinities or -0);
    - a property read or write that would run code outside the library (a
      getter, a setter) ends the run with the outcome [UserCode];
    - the methods of the language ([push], [has], [replace], [split]) are
      those of the class of the receiver; on a value of another class, a
      function that the heap holds under such a name is code outside the
      library;
    - recursion that JavaScript bounds only by its stack is bounded by
      fuel, and ends with [OutOfFuel] when the fuel is spent. *)

From Stdlib Require Import ZArith NArith String Ascii List Lia.
From Stdlib Require Import DecimalString DecimalN DecimalZ.
From stdpp Require Import base list gmap strings.

Local Open Scope string_scope.
Local Open Scope Z_scope.
Local Open Scope list_scope.

(** ** Values *)

Abbreviation loc := nat.

Inductive value :=
| VUndef
| VNull
| VBool (b : bool)
| VNum (n : Z)
| VNaN
| VStr (s : string)
| VSym (n : nat)
| VObj (l : loc).

Inductive key :=
| KStr (s : string)
| KSym (n : nat).

#[global] Instance value_eq_dec : EqDecision value.
Proof. solve_decision. Defined.

#[global] Instance key_eq_dec : EqDecision key.
Proof. solve_decision. Defined.

(** A property is a data property or an accessor pair; [get] and [set] of
    an accessor are function objects or [VUndef]. *)
Inductive prop :=
| PData (v : value) (enumerable writable configurable : bool)
| PAccessor (get set : value) (enumerable configurable : bool).

#[global] Instance prop_eq_dec : EqDecision prop.
Proof. solve_decision. Defined.

(** The internal class of an object, with the internal data that the
    library reads (timestamp, pattern, bytes, entries). *)
Inductive kind :=
| KGeneric
| KArray
| KBuffer (bytes : list Z)
| KDate (time : Z)
| KRegex (source flags : string)
| KSet (elements : list value)
| KMap (entries : list (value * value))
| KWeakSet
| KWeakMap
| KFunction.

#[global] Instance kind_eq_dec : EqDecision kind.
Proof. solve_decision. Defined.

Record obj := mkObj {
  o_kind : kind;
  o_proto : option loc;
  o_extensible : bool;
  o_props : list (key * prop)
}.

#[global] Instance obj_eq_dec : EqDecision obj.
Proof. solve_decision. Defined.

Abbreviation heap := (list obj).

Inductive jstype :=
| TUndefined | TObject | TBoolean | TNumber | TString | TSymbol | TFunction.

#[global] Instance jstype_eq_dec : EqDecision jstype.
Proof. solve_decision. Defined.

Definition is_function (h : heap) (l : loc) : bool :=
  match h !! l with
  | Some o => bool_decide (o_kind o = KFunction)
  | None => false
  end.

Definition typeof (h : heap) (v : value) : jstype :=
  match v with
  | VUndef => TUndefined
  | VNull => TObject
  | VBool _ => TBoolean
  | VNum _ | VNaN => TNumber
  | VStr _ => TString
  | VSym _ => TSymbol
  | VObj l => if is_function h l then TFunction else TObject
  end.

Definition truthy (v : value) : bool :=
  match v with
  | VUndef | VNull | VNaN => false
  | VBool b => b
  | VNum n => negb (n =? 0)
  | VStr s => negb (String.eqb s "")
  | VSym _ | VObj _ => true
  end.

(** [a === b] *)
Definition strict_eq (a b : value) : bool :=
  match a with
  | VNaN => false
  | _ => bool_decide (a = b)
  end.

Definition is_nullish (v : value) : bool :=
  match v with
  | VUndef | VNull => true
  | _ => false
  end.

(** ** Outcomes and the state monad of the heap *)

Inductive js_error :=
| HoekError (msg : string)     (* thrown by [exports.assert] *)
| TypeError
| RangeError.

Inductive outcome (A : Type) :=
| Ret (a : A)
| Throw (e : js_error)
| UserCode
| OutOfFuel.

Arguments Ret {A} a.
Arguments Throw {A} e.
Arguments UserCode {A}.
Arguments OutOfFuel {A}.

Definition obind {A B} (m : outcome A) (f : A -> outcome B) : outcome B :=
  match m with
  | Ret a => f a
  | Throw e => Throw e
  | UserCode => UserCode
  | OutOfFuel => OutOfFuel
  end.

Definition M (A : Type) : Type := heap -> outcome (A * heap).

Definition ret {A} (a : A) : M A := fun h => Ret (a, h).
Definition throw {A} (e : js_error) : M A := fun _ => Throw e.
Definition bind {A B} (m : M A) (f : A -> M B) : M B :=
  fun h => match m h with
           | Ret (a, h') => f a h'
           | Throw e => Throw e
           | UserCode => UserCode
           | OutOfFuel => OutOfFuel
           end.

(** Run a computation that only reads the heap. *)
Definition read {A} (f : heap -> outcome A) : M A :=
  fun h => match f h with
           | Ret a => Ret (a, h)
           | Throw e => Throw e
           | UserCode => UserCode
           | OutOfFuel => OutOfFuel
           end.

Definition pure_read {A} (f : heap -> A) : M A := fun h => Ret (f h, h).

Notation "'let*' x ':=' m 'in' k" := (bind m (fun x => k))
  (at level 10, x pattern, m at level 100, k at level 200).
Notation "m1 ';;' m2" := (bind m1 (fun _ => m2))
  (at level 100, right associativity).
Notation "'let?' x ':=' m 'in' k" := (obind m (fun x => k))
  (at level 10, x pattern, m at level 100, k at level 200).

(** [exports.assert(condition, ...args)]: the library's own error, built
    from the message. *)
Definition assert (condition : bool) (msg : string) : M unit :=
  if condition then ret tt else throw (HoekError msg).

(** ** Decimal spellings of numbers, as property keys *)

Definition string_of_N (n : N) : string := NilZero.string_of_uint (N.to_uint n).
Definition string_of_Z (z : Z) : string := NilZero.string_of_int (Z.to_int z).

(** ToPropertyKey on the values the library uses as keys. *)
Definition to_key (v : value) : option key :=
  match v with
  | VStr s => Some (KStr s)
  | VSym n => Some (KSym n)
  | VNum z => Some (KStr (string_of_Z z))
  | VNaN => Some (KStr "NaN")
  | VUndef => Some (KStr "undefined")
  | VNull => Some (KStr "null")
  | VBool true => Some (KStr "true")
  | VBool false => Some (KStr "false")
  | VObj _ => None              (* would call toString *)
  end.

Definition key_value (k : key) : value :=
  match k with
  | KStr s => VStr s
  | KSym n => VSym n
  end.

Definition max_index : N := 4294967295.   (* 2^32 - 1 *)

(** An array index is a canonical decimal spelling of a number below
    2^32 - 1. *)
Definition array_index (k : key) : option N :=
  match k with
  | KSym _ => None
  | KStr s =>
      match NilZero.uint_of_string s with
      | None => None
      | Some u =>
          let n := N.of_uint u in
          if String.eqb (string_of_N n) s && (n <? max_index)%N
          then Some n else None
      end
  end.

Definition index_key (n : N) : key := KStr (string_of_N n).

(** ** Own properties of an object

    The properties of an object are kept in creation order; a key occurs
    once.  Lookup takes the first entry of a key. *)

Fixpoint lookup_prop (k : key) (ps : list (key * prop)) : option prop :=
  match ps with
  | [] => None
  | (k', p) :: ps' => if decide (k = k') then Some p else lookup_prop k ps'
  end.

Fixpoint update_prop (k : key) (p : prop) (ps : list (key * prop))
  : list (key * prop) :=
  match ps with
  | [] => [(k, p)]
  | (k', p') :: ps' =>
      if decide (k = k') then (k, p) :: ps' else (k', p') :: update_prop k p ps'
  end.

Definition get_own (h : heap) (l : loc) (k : key) : option prop :=
  match h !! l with
  | Some o => lookup_prop k (o_props o)
  | None => None
  end.

Definition prop_enumerable (p : prop) : bool :=
  match p with
  | PData _ e _ _ => e
  | PAccessor _ _ e _ => e
  end.

Definition prop_configurable (p : prop) : bool :=
  match p with
  | PData _ _ _ c => c
  | PAccessor _ _ _ c => c
  end.

(** [Object.prototype.propertyIsEnumerable.call(obj, key)] *)
Definition propertyIsEnumerable (h : heap) (l : loc) (k : key) : bool :=
  match get_own h l k with
  | Some p => prop_enumerable p
  | None => false
  end.

(** *** Order of own keys: array indices ascending, then the other strings
    in creation order, then symbols in creation order. *)

Fixpoint insert_index (n : N) (k : key) (l : list (N * key)) : list (N * key) :=
  match l with
  | [] => [(n, k)]
  | (m, k') :: l' =>
      if (n <? m)%N then (n, k) :: l else (m, k') :: insert_index n k l'
  end.

Definition sort_indices (l : list (N * key)) : list (N * key) :=
  foldr (fun nk acc => insert_index nk.1 nk.2 acc) [] l.

Definition is_symbol_key (k : key) : bool :=
  match k with KSym _ => true | KStr _ => false end.

Definition is_plain_string_key (k : key) : bool :=
  match k with
  | KSym _ => false
  | KStr _ => match array_index k with Some _ => false | None => true end
  end.

Definition index_entries (ks : list key) : list (N * key) :=
  omap (fun k => match array_index k with
                 | Some n => Some (n, k)
                 | None => None
                 end) ks.

Definition ordered_keys (ks : list key) : list key :=
  map snd (sort_indices (index_entries ks))
    ++ List.filter is_plain_string_key ks
    ++ List.filter is_symbol_key ks.

(** [Reflect.ownKeys(obj)] *)
Definition own_keys (o : obj) : list key := ordered_keys (map fst (o_props o)).

(** [Object.getOwnPropertyNames(obj)] *)
Definition own_names (o : obj) : list key :=
  List.filter (fun k => negb (is_symbol_key k)) (own_keys o).

(** ** The options record

    A field is [None] when the caller's object has no such property. *)

Record Options := mkOptions {
  opt_shallow : option value;
  opt_prototype : option value;
  opt_symbols : option value;
  opt_nullOverride : option value;
  opt_mergeArrays : option value;
  opt_deep : option value;
  opt_once : option value;
  opt_only : option value;
  opt_part : option value
}.

(** [{}] *)
Definition no_options : Options :=
  mkOptions None None None None None None None None None.

(** Reading [options.name]. *)
Definition flag (f : option value) : value := default VUndef f.

(** [internals.keys] *)
Definition keys (h : heap) (v : value) (opts : Options) : outcome (list key) :=
  match v with
  | VObj l =>
      match h !! l with
      | Some o =>
          Ret (if negb (strict_eq (flag (opt_symbols opts)) (VBool false))
               then own_keys o else own_names o)
      | None => Ret []
      end
  | _ => Throw TypeError
  end.

(** ** Reading a property: [ref[key]] *)

(** The first property of that key on the prototype chain from [l]. *)
Fixpoint lookup_chain (n : nat) (h : heap) (l : loc) (k : key)
  : outcome (option prop) :=
  match n with
  | O => OutOfFuel
  | S n' =>
      match h !! l with
      | None => Ret None
      | Some o =>
          match lookup_prop k (o_props o) with
          | Some p => Ret (Some p)
          | None =>
              match o_proto o with
              | Some p => lookup_chain n' h p k
              | None => Ret None
              end
          end
      end
  end.

Definition prop_read (p : option prop) : outcome value :=
  match p with
  | Some (PData v _ _ _) => Ret v
  | Some (PAccessor VUndef _ _ _) => Ret VUndef
  | Some (PAccessor _ _ _ _) => UserCode
  | None => Ret VUndef
  end.

Definition get_from (n : nat) (h : heap) (l : loc) (k : key) : outcome value :=
  let? p := lookup_chain n h l k in prop_read p.

(** The own properties of a string: its length and its characters.
    Properties inherited from the wrappers of primitives are not
    modelled: such a read gives [undefined]. *)
Definition get_string (s : string) (k : key) : value :=
  match k with
  | KStr "length" => VNum (Z.of_nat (String.length s))
  | _ =>
      match array_index k with
      | Some n =>
          match String.get (N.to_nat n) s with
          | Some c => VStr (String c "")
          | None => VUndef
          end
      | None => VUndef
      end
  end.

Definition get (h : heap) (v : value) (k : key) : outcome value :=
  match v with
  | VObj l => get_from (S (List.length h)) h l k
  | VUndef | VNull => Throw TypeError
  | VStr s => Ret (get_string s k)
  | _ => Ret VUndef
  end.

(** [proto] is on the prototype chain of [l]: the test behind
    [value instanceof C] for a constructor with [C.prototype = proto]. *)
Fixpoint in_proto_chain (n : nat) (h : heap) (l : loc) (proto : loc) : bool :=
  match n with
  | O => false
  | S n' =>
      match h !! l with
      | None => false
      | Some o =>
          match o_proto o with
          | None => false
          | Some p => bool_decide (p = proto) || in_proto_chain n' h p proto
          end
      end
  end.

Definition instanceof (h : heap) (v : value) (proto : loc) : bool :=
  match v with
  | VObj l => in_proto_chain (S (List.length h)) h l proto
  | _ => false
  end.

Definition isArray (h : heap) (v : value) : bool :=
  match v with
  | VObj l =>
      match h !! l with
      | Some o => bool_decide (o_kind o = KArray)
      | None => false
      end
  | _ => false
  end.

(** ** Writing a property: [ref[key] = value] in strict mode *)

Definition alloc (o : obj) : M loc := fun h => Ret (List.length h, h ++ [o]).

Definition with_props (o : obj) (ps : list (key * prop)) : obj :=
  mkObj (o_kind o) (o_proto o) (o_extensible o) ps.

Definition with_kind (o : obj) (c : kind) : obj :=
  mkObj c (o_proto o) (o_extensible o) (o_props o).

Definition length_key : key := KStr "length".

Definition array_length (o : obj) : N :=
  match lookup_prop length_key (o_props o) with
  | Some (PData (VNum n) _ _ _) => Z.to_N n
  | _ => 0%N
  end.

(** [Number(s)] where it is an integer: decimal digits with an optional
    sign, and the empty string (which is 0); other spellings count as
    not an integer. *)
Definition number_of_string (s : string) : option Z :=
  match s with
  | "" => Some 0
  | String "-" s' =>
      option_map (fun u => - Z.of_N (N.of_uint u)) (NilZero.uint_of_string s')
  | String "+" s' =>
      option_map (fun u => Z.of_N (N.of_uint u)) (NilZero.uint_of_string s')
  | _ => option_map (fun u => Z.of_N (N.of_uint u)) (NilZero.uint_of_string s)
  end.

(** [Number(v)] when [Number.isInteger] holds of it, else [None]. *)
Definition to_integer (v : value) : outcome (option Z) :=
  match v with
  | VNum n => Ret (Some n)
  | VStr s => Ret (number_of_string s)
  | VNull | VBool false => Ret (Some 0)
  | VBool true => Ret (Some 1)
  | VUndef | VNaN => Ret None
  | VSym _ => Throw TypeError
  | VObj _ => UserCode
  end.

(** The new length of an array, from the value assigned to [length]. *)
Definition to_length (v : value) : outcome N :=
  let? n := to_integer v in
  match n with
  | Some n => if (0 <=? n) && (n <? 4294967296) then Ret (Z.to_N n)
              else Throw RangeError
  | None => Throw RangeError
  end.

Definition index_at_least (n : N) (k : key) : bool :=
  match array_index k with
  | Some i => (n <=? i)%N
  | None => false
  end.

(** An array grows its length when an index at or past it is written. *)
Definition bump_length (k : key) (o : obj) : outcome obj :=
  match o_kind o, array_index k with
  | KArray, Some i =>
      if (i <? array_length o)%N then Ret o
      else
        match lookup_prop length_key (o_props o) with
        | Some (PData _ e true c) =>
            Ret (with_props o
                   (update_prop length_key
                      (PData (VNum (Z.of_N (i + 1))) e true c) (o_props o)))
        | _ => Throw TypeError
        end
  | _, _ => Ret o
  end.

(** Assigning the length of an array removes the elements at and past the
    new length. *)
Definition set_array_length (o : obj) (n : N) (e c : bool) : outcome obj :=
  let doomed := List.filter (fun kp => index_at_least n kp.1) (o_props o) in
  if forallb (fun kp => prop_configurable kp.2) doomed
  then Ret (with_props o
              (update_prop length_key (PData (VNum (Z.of_N n)) e true c)
                 (List.filter (fun kp => negb (index_at_least n kp.1))
                    (o_props o))))
  else Throw TypeError.

(** Store the value [v] in an own, writable data property. *)
Definition assign_own (o : obj) (k : key) (v : value) (e c : bool)
  : outcome obj :=
  if bool_decide (o_kind o = KArray) && bool_decide (k = length_key)
  then let? n := to_length v in set_array_length o n e c
  else bump_length k (with_props o (update_prop k (PData v e true c) (o_props o))).

Definition inherited_prop (h : heap) (o : obj) (k : key) : outcome (option prop) :=
  match o_proto o with
  | Some p => lookup_chain (List.length h) h p k
  | None => Ret None
  end.

Definition set_prop (ref : value) (k : key) (v : value) : M unit :=
  fun h =>
    match ref with
    | VObj l =>
        match h !! l with
        | None => Throw TypeError
        | Some o =>
            match lookup_prop k (o_props o) with
            | Some (PData _ e true c) =>
                let? o' := assign_own o k v e c in Ret (tt, <[l := o']> h)
            | Some (PData _ _ false _) => Throw TypeError
            | Some (PAccessor _ VUndef _ _) => Throw TypeError
            | Some (PAccessor _ _ _ _) => UserCode
            | None =>
                let? inh := inherited_prop h o k in
                match inh with
                | Some (PData _ _ false _) => Throw TypeError
                | Some (PAccessor _ VUndef _ _) => Throw TypeError
                | Some (PAccessor _ _ _ _) => UserCode
                | _ =>
                    if o_extensible o
                    then let? o' := assign_own o k v true true in
                         Ret (tt, <[l := o']> h)
                    else Throw TypeError
                end
            end
        end
    | _ => Throw TypeError
    end.

(** [Object.defineProperty(obj, key, descriptor)] with a full descriptor.
    Redefining a property that is not configurable is refused. *)
Definition define_property (l : loc) (k : key) (p : prop) : M unit :=
  fun h =>
    match h !! l with
    | None => Throw TypeError
    | Some o =>
        let define :=
          let? o' := bump_length k (with_props o (update_prop k p (o_props o))) in
          Ret (tt, <[l := o']> h) in
        match lookup_prop k (o_props o) with
        | None => if o_extensible o then define else Throw TypeError
        | Some cur => if prop_configurable cur then define else Throw TypeError
        end
    end.

(** [target.push(v)] *)
Definition push (target : value) (v : value) : M unit :=
  let* len := read (fun h => get h target length_key) in
  match len with
  | VNum n =>
      let n := Z.max 0 n in
      set_prop target (index_key (Z.to_N n)) v ;;
      set_prop target length_key (VNum (n + 1))
  | _ => throw TypeError
  end.

(** The elements of an array-like value, read by index up to its length. *)
Definition elements_of (h : heap) (v : value) : outcome (list value) :=
  let? len := get h v length_key in
  match len with
  | VNum n =>
      foldr (fun i acc =>
               let? x := get h v (index_key (N.of_nat i)) in
               let? xs := acc in Ret (x :: xs))
            (Ret []) (seq 0 (Z.to_nat n))
  | _ => Ret []
  end.

(** ** The built-in prototypes and [Types]

    The built-in prototype objects sit at fixed locations at the bottom of
    the heap. *)

Definition ObjectPrototype : loc := 0%nat.
Definition ArrayPrototype : loc := 1%nat.
Definition BufferPrototype : loc := 2%nat.
Definition DatePrototype : loc := 3%nat.
Definition RegExpPrototype : loc := 4%nat.
Definition SetPrototype : loc := 5%nat.
Definition MapPrototype : loc := 6%nat.
Definition WeakSetPrototype : loc := 7%nat.
Definition WeakMapPrototype : loc := 8%nat.
Definition FunctionPrototype : loc := 9%nat.

Definition plain (proto : option loc) (ps : list (key * prop)) : obj :=
  mkObj KGeneric proto true ps.

Definition empty_array (proto : option loc) : obj :=
  mkObj KArray proto true [(length_key, PData (VNum 0) false true false)].

(** A heap with the built-in prototypes only. *)
Definition realm : heap :=
  [ plain None [];
    empty_array (Some ObjectPrototype);
    plain (Some ObjectPrototype) [];
    plain (Some ObjectPrototype) [];
    plain (Some ObjectPrototype) [];
    plain (Some ObjectPrototype) [];
    plain (Some ObjectPrototype) [];
    plain (Some ObjectPrototype) [];
    plain (Some ObjectPrototype) [];
    mkObj KFunction (Some ObjectPrototype) true [] ].

(** Modelled from the spec: [lib/types.js] ([Types.getInternalProto]) is
    not among the sources.  The classifier returns the structural type of
    a value from its own internal class, not from any writable property;
    as in the source's uses of it, a type is named by its built-in
    prototype. *)
Definition getInternalProto (h : heap) (l : loc) : loc :=
  match h !! l with
  | None => ObjectPrototype
  | Some o =>
      match o_kind o with
      | KArray => ArrayPrototype
      | KBuffer _ => BufferPrototype
      | KDate _ => DatePrototype
      | KRegex _ _ => RegExpPrototype
      | KSet _ => SetPrototype
      | KMap _ => MapPrototype
      | KWeakSet => WeakSetPrototype
      | KWeakMap => WeakMapPrototype
      | KGeneric | KFunction => ObjectPrototype
      end
  end.

(** [internals.needsProtoHack.has(baseProto)] *)
Definition needsProtoHack (baseProto : loc) : bool :=
  bool_decide (baseProto = SetPrototype) || bool_decide (baseProto = MapPrototype)
  || bool_decide (baseProto = WeakSetPrototype)
  || bool_decide (baseProto = WeakMapPrototype).

(** A new, empty container of the class that [baseProto] names. *)
Definition empty_kind (baseProto : loc) : kind :=
  if bool_decide (baseProto = SetPrototype) then KSet []
  else if bool_decide (baseProto = MapPrototype) then KMap []
  else if bool_decide (baseProto = WeakSetPrototype) then KWeakSet
  else if bool_decide (baseProto = WeakMapPrototype) then KWeakMap
  else KGeneric.

(** SameValueZero, the equality of Set elements and Map keys. *)
Definition same_value_zero (a b : value) : bool := bool_decide (a = b).

(** [set.add(v)] *)
Definition set_add (l : loc) (v : value) : M unit :=
  fun h =>
    match h !! l with
    | Some o =>
        match o_kind o with
        | KSet vs =>
            if existsb (same_value_zero v) vs then Ret (tt, h)
            else Ret (tt, <[l := with_kind o (KSet (vs ++ [v]))]> h)
        | _ => Throw TypeError
        end
    | None => Throw TypeError
    end.

Fixpoint assoc_set (k v : value) (es : list (value * value))
  : list (value * value) :=
  match es with
  | [] => [(k, v)]
  | (k', v') :: es' =>
      if same_value_zero k k' then (k', v) :: es' else (k', v') :: assoc_set k v es'
  end.

(** [map.set(k, v)] *)
Definition map_set (l : loc) (k v : value) : M unit :=
  fun h =>
    match h !! l with
    | Some o =>
        match o_kind o with
        | KMap es => Ret (tt, <[l := with_kind o (KMap (assoc_set k v es))]> h)
        | _ => Throw TypeError
        end
    | None => Throw TypeError
    end.

(** ** [exports.reach] with no options, and [internals.reachSet] *)

Fixpoint split_dot (s : string) : list string :=
  match s with
  | "" => [""]
  | String c s' =>
      match split_dot s' with
      | [] => [String c ""]
      | w :: ws => if Ascii.eqb c "." then "" :: w :: ws else String c w :: ws
      end
  end.

(** [Array.isArray(key) ? key : key.split('.')] *)
Definition path_of (h : heap) (key : value) : outcome (list value) :=
  if isArray h key then elements_of h key
  else match key with
       | VStr s => Ret (map VStr (split_dot s))
       | _ => Throw TypeError
       end.

(** On an array, a segment that spells an integer is taken as an index,
    counted from the end when negative. *)
Definition reach_key (h : heap) (ref key : value) : outcome value :=
  if isArray h ref then
    let? number := to_integer key in
    match number with
    | Some n =>
        if n <? 0 then
          let? len := get h ref length_key in
          match len with
          | VNum m => Ret (VNum (m + n))
          | _ => Ret VNaN
          end
        else Ret (VNum n)
    | None => Ret key
    end
  else Ret key.

Fixpoint reach_loop (h : heap) (path : list value) (ref : value) : outcome value :=
  match path with
  | [] => Ret ref
  | segment :: rest =>
      let? key := reach_key h ref segment in
      if negb (truthy ref) then Ret VUndef
      else
        match to_key key with
        | None => UserCode
        | Some k =>
            let? v := get h ref k in
            if strict_eq v VUndef then
              if bool_decide (typeof h ref = TFunction)
              then Throw (HoekError "Invalid segment")
              else Ret VUndef
            else reach_loop h rest v
        end
  end.

Definition reach (h : heap) (obj chain : value) : outcome value :=
  if strict_eq chain (VBool false) || is_nullish chain then Ret obj
  else let? path := path_of h chain in reach_loop h path obj.

Fixpoint reachSet_loop (path : list value) (ref value : value) : M unit :=
  match path with
  | [] => ret tt
  | segment :: rest =>
      match to_key segment with
      | None => fun _ => UserCode
      | Some k =>
          (match rest with
           | [] => set_prop ref k value
           | _ => ret tt
           end) ;;
          let* ref' := read (fun h => get h ref k) in
          reachSet_loop rest ref' value
      end
  end.

Definition reachSet (obj key value : value) : M unit :=
  let* path := read (fun h => path_of h key) in
  reachSet_loop path obj value.

(** ** [internals.store] and [internals.restore] *)

Abbreviation storage := (list (value * value)).

Fixpoint store_loop (source : value) (ks : list value) (st : storage) : M storage :=
  match ks with
  | [] => ret st
  | key :: ks' =>
      let* value := read (fun h => reach h source key) in
      let* ty := pure_read (fun h => typeof h value) in
      if bool_decide (ty = TObject) || bool_decide (ty = TFunction) then
        reachSet source key VUndef ;;
        store_loop source ks' (assoc_set key value st)
      else store_loop source ks' st
  end.

Definition store (source keys : value) : M storage :=
  let* ks := read (fun h => elements_of h keys) in
  store_loop source ks [].

Fixpoint restore (copy source : value) (st : storage) : M unit :=
  match st with
  | [] => ret tt
  | (key, value) :: st' =>
      reachSet copy key value ;;
      reachSet source key value ;;
      restore copy source st'
  end.

(** ** [exports.clone] *)

Abbreviation seen_map := (gmap loc loc).

(** The recursive call [clone(value, options, seen)]; the map [seen] is
    one mutable object shared by all the calls, so it is passed in and
    handed back. *)
Definition clone_fn : Type :=
  value -> option seen_map -> M (value * option seen_map).

Fixpoint clone_set_loop (clone : clone_fn) (newObj : loc) (vs : list value)
    (seen : option seen_map) : M (option seen_map) :=
  match vs with
  | [] => ret seen
  | v :: vs' =>
      let* r := clone v seen in
      set_add newObj r.1 ;;
      clone_set_loop clone newObj vs' r.2
  end.

Fixpoint clone_map_loop (clone : clone_fn) (newObj : loc)
    (es : list (value * value)) (seen : option seen_map) : M (option seen_map) :=
  match es with
  | [] => ret seen
  | (k, v) :: es' =>
      let* r := clone v seen in
      map_set newObj k r.1 ;;
      clone_map_loop clone newObj es' r.2
  end.

(** [descriptor && (descriptor.get || descriptor.set)] *)
Definition has_accessor (descriptor : option prop) : bool :=
  match descriptor with
  | Some (PAccessor g s _ _) => truthy g || truthy s
  | _ => false
  end.

Definition descriptor_enumerable (descriptor : option prop) : bool :=
  match descriptor with
  | Some p => prop_enumerable p
  | None => true
  end.

Fixpoint clone_keys_loop (clone : clone_fn) (obj newObj : loc) (isArr : bool)
    (ks : list key) (seen : option seen_map) : M (option seen_map) :=
  match ks with
  | [] => ret seen
  | k :: ks' =>
      if isArr && bool_decide (k = length_key)
      then clone_keys_loop clone obj newObj isArr ks' seen
      else
        let* descriptor := pure_read (fun h => get_own h obj k) in
        if has_accessor descriptor then
          (match descriptor with
           | Some d => define_property newObj k d
           | None => ret tt
           end) ;;
          clone_keys_loop clone obj newObj isArr ks' seen
        else
          let* v := read (fun h => get h (VObj obj) k) in
          let* r := clone v seen in
          define_property newObj k
            (PData r.1 (descriptor_enumerable descriptor) true true) ;;
          clone_keys_loop clone obj newObj isArr ks' r.2
  end.

Definition proto_of (h : heap) (l : loc) : option loc :=
  match h !! l with
  | Some o => o_proto o
  | None => None
  end.

Definition kind_of (h : heap) (l : loc) : kind :=
  match h !! l with
  | Some o => o_kind o
  | None => KGeneric
  end.

(** What iterating a Set or a Map yields. *)
Definition set_elements (h : heap) (l : loc) : list value :=
  match kind_of h l with
  | KSet vs => vs
  | _ => []
  end.

Definition map_entries (h : heap) (l : loc) : list (value * value) :=
  match kind_of h l with
  | KMap es => es
  | _ => []
  end.

Definition isImmutable_key : key := KStr "isImmutable".

(** The [switch (baseProto)] of [clone]: either the value to return at
    once, or the new, empty object to fill.  The constructor found on the
    prototype of a Set, Map, WeakSet or WeakMap is taken to be the one of
    its class: it makes an empty container. *)
Definition clone_base (l : loc) (baseProto : loc) (options : Options)
  : M (value + loc) :=
  if bool_decide (baseProto = BufferPrototype) then
    let* c := pure_read (fun h => kind_of h l) in
    let* n := alloc (mkObj c (Some BufferPrototype) true []) in
    ret (inl (VObj n))
  else if bool_decide (baseProto = DatePrototype) then
    let* c := pure_read (fun h => kind_of h l) in
    let* n := alloc (mkObj c (Some DatePrototype) true []) in
    ret (inl (VObj n))
  else if bool_decide (baseProto = RegExpPrototype) then
    let* c := pure_read (fun h => kind_of h l) in
    let* n := alloc (mkObj c (Some RegExpPrototype) true
                       [(KStr "lastIndex", PData (VNum 0) false true false)]) in
    ret (inl (VObj n))
  else if bool_decide (baseProto = ArrayPrototype) then
    let* n := alloc (empty_array (Some ArrayPrototype)) in
    ret (inr n)
  else if negb (strict_eq (flag (opt_prototype options)) (VBool false)) then
    let* proto := pure_read (fun h => proto_of h l) in
    let* immutable :=
      match proto with
      | Some p => read (fun h => get h (VObj p) isImmutable_key)
      | None => ret VUndef
      end in
    if truthy immutable then ret (inl (VObj l))
    else if needsProtoHack baseProto then
      match proto with
      | Some p =>
          let* n := alloc (mkObj (empty_kind baseProto) (Some p) true []) in
          ret (inr n)
      | None => throw TypeError
      end
    else
      let* n := alloc (mkObj KGeneric proto true []) in
      ret (inr n)
  else if needsProtoHack baseProto then
    let* n := alloc (mkObj (empty_kind baseProto) (Some baseProto) true []) in
    ret (inr n)
  else
    let* n := alloc (plain (Some ObjectPrototype) []) in
    ret (inr n).

(** [internals.cloneWithShallow], over the call [exports.clone(source,
    options)] it makes. *)
Definition cloneWithShallow_with (clone : value -> Options -> M value)
    (source : value) (options : Options) : M value :=
  let keys := flag (opt_shallow options) in
  let options' :=
    mkOptions (Some (VBool false)) (opt_prototype options) (opt_symbols options)
      (opt_nullOverride options) (opt_mergeArrays options) (opt_deep options)
      (opt_once options) (opt_only options) (opt_part options) in
  let* st := store source keys in
  let* copy := clone source options' in
  restore copy source st ;;
  ret copy.

Fixpoint clone_seen (fuel : nat) (obj : value) (options : Options)
    (_seen : option seen_map) {struct fuel} : M (value * option seen_map) :=
  match fuel with
  | O => fun _ => OutOfFuel
  | S fuel' =>
      let* ty := pure_read (fun h => typeof h obj) in
      if negb (bool_decide (ty = TObject)) || bool_decide (obj = VNull)
      then ret (obj, _seen)
      else
        match obj with
        | VObj l =>
            let shallow := flag (opt_shallow options) in
            if truthy shallow && negb (strict_eq shallow (VBool true)) then
              let* copy :=
                cloneWithShallow_with
                  (fun v o => let* r := clone_seen fuel' v o None in ret r.1)
                  obj options in
              ret (copy, _seen)
            else
              let clone : clone_fn :=
                if truthy shallow then fun v s => ret (v, s)
                else fun v s => clone_seen fuel' v options s in
              let seen :=
                if truthy shallow then _seen else Some (default ∅ _seen) in
              match (if truthy shallow then None
                     else match seen with
                          | Some m => m !! l
                          | None => None
                          end) with
              | Some lookup => ret (VObj lookup, seen)
              | None =>
                  let* baseProto := pure_read (fun h => getInternalProto h l) in
                  let* base := clone_base l baseProto options in
                  match base with
                  | inl v => ret (v, seen)
                  | inr newObj =>
                      let seen := fmap (insert l newObj) seen in
                      let* seen :=
                        if bool_decide (baseProto = SetPrototype) then
                          let* vs := pure_read (fun h => set_elements h l) in
                          clone_set_loop clone newObj vs seen
                        else if bool_decide (baseProto = MapPrototype) then
                          let* es := pure_read (fun h => map_entries h l) in
                          clone_map_loop clone newObj es seen
                        else ret seen in
                      let* ks := read (fun h => keys h obj options) in
                      let isArr := bool_decide (baseProto = ArrayPrototype) in
                      let* seen := clone_keys_loop clone l newObj isArr ks seen in
                      (if isArr then
                         let* len := read (fun h => get h obj length_key) in
                         set_prop (VObj newObj) length_key len
                       else ret tt) ;;
                      ret (VObj newObj, seen)
                  end
              end
        | _ => ret (obj, _seen)
        end
  end.

(** [exports.clone(obj, options)], as the callers use it. *)
Definition clone (fuel : nat) (obj : value) (options : Options) : M value :=
  let* r := clone_seen fuel obj options None in ret r.1.

(** ** [exports.merge] *)

(** [Object.assign({ nullOverride: true, mergeArrays: true }, options)] *)
Definition merge_options (options : Options) : Options :=
  mkOptions (opt_shallow options) (opt_prototype options) (opt_symbols options)
    (Some (default (VBool true) (opt_nullOverride options)))
    (Some (default (VBool true) (opt_mergeArrays options)))
    (opt_deep options) (opt_once options) (opt_only options) (opt_part options).

(** [{ symbols: options.symbols }] *)
Definition symbols_only (options : Options) : Options :=
  mkOptions None None (Some (flag (opt_symbols options)))
    None None None None None None.

(** The loop over the elements of a source array; the length of the
    source is read again at every turn. *)
Fixpoint merge_array_loop (n : nat) (clone : value -> M value)
    (target source : value) (i : Z) : M unit :=
  match n with
  | O => fun _ => OutOfFuel
  | S n' =>
      let* len := read (fun h => get h source length_key) in
      if match len with VNum m => i <? m | _ => false end then
        let* v := read (fun h => get h source (index_key (Z.to_N i))) in
        let* c := clone v in
        push target c ;;
        merge_array_loop n' clone target source (i + 1)
      else ret tt
  end.

Definition proto_key : key := KStr "__proto__".

(** One turn of the loop over the keys of a source record. *)
Definition merge_key (clone : value -> M value) (merge : value -> value -> M value)
    (target source : value) (options : Options) (k : key) : M unit :=
  let* enumerable :=
    pure_read (fun h => match source with
                        | VObj l => propertyIsEnumerable h l k
                        | _ => false
                        end) in
  if bool_decide (k = proto_key) || negb enumerable then ret tt
  else
    let* value := read (fun h => get h source k) in
    let* ty := pure_read (fun h => typeof h value) in
    if truthy value && bool_decide (ty = TObject) then
      let* slot := read (fun h => get h target k) in
      let* replace :=
        pure_read (fun h =>
          negb (truthy slot)
          || negb (bool_decide (typeof h slot = TObject))
          || negb (Bool.eqb (isArray h slot) (isArray h value))
          || instanceof h value DatePrototype
          || instanceof h value BufferPrototype
          || instanceof h value RegExpPrototype) in
      if replace then
        let* c := clone value in
        set_prop target k c
      else
        let* _ := merge slot value in ret tt
    else if negb (is_nullish value) then set_prop target k value
    else if truthy (flag (opt_nullOverride options)) then set_prop target k value
    else ret tt.

Fixpoint merge_keys (clone : value -> M value) (merge : value -> value -> M value)
    (target source : value) (options : Options) (ks : list key) : M unit :=
  match ks with
  | [] => ret tt
  | k :: ks' =>
      merge_key clone merge target source options k ;;
      merge_keys clone merge target source options ks'
  end.

Fixpoint merge (fuel : nat) (target source : value) (options : Options)
    {struct fuel} : M value :=
  match fuel with
  | O => fun _ => OutOfFuel
  | S fuel' =>
      let* target_ok :=
        pure_read (fun h => truthy target && bool_decide (typeof h target = TObject)) in
      assert target_ok "Invalid target value: must be an object" ;;
      let* source_ok :=
        pure_read (fun h => is_nullish source
                            || bool_decide (typeof h source = TObject)) in
      assert source_ok
        "Invalid source value: must be null, undefined, or an object" ;;
      if negb (truthy source) then ret target
      else
        let options := merge_options options in
        let clone := fun v => clone fuel' v (symbols_only options) in
        let* source_is_array := pure_read (fun h => isArray h source) in
        if source_is_array then
          let* target_is_array := pure_read (fun h => isArray h target) in
          assert target_is_array "Cannot merge array onto an object" ;;
          (if negb (truthy (flag (opt_mergeArrays options)))
           then set_prop target length_key (VNum 0)
           else ret tt) ;;
          merge_array_loop fuel' clone target source 0 ;;
          ret target
        else
          let* ks := read (fun h => keys h source options) in
          merge_keys clone (fun t s => merge fuel' t s options)
            target source options ks ;;
          ret target
  end.

(** ** [exports.applyToDefaults] *)

(** [{ shallow: keys }] *)
Definition shallow_only (keys : value) : Options :=
  mkOptions (Some keys) None None None None None None None None.

(** [internals.applyToDefaultsWithShallow] *)
Definition applyToDefaultsWithShallow (fuel : nat) (defaults source : value)
    (options : Options) : M value :=
  let keys := flag (opt_shallow options) in
  let* keys_ok := pure_read (fun h => isArray h keys) in
  assert keys_ok "Invalid keys" ;;
  let* copy := clone fuel defaults (shallow_only keys) in
  if strict_eq source (VBool true) then ret copy
  else
    let* st := store source keys in
    let* _ := merge fuel copy source
                (mkOptions None None None (Some (VBool false)) (Some (VBool false))
                   None None None None) in
    restore copy source st ;;
    ret copy.

Definition applyToDefaults (fuel : nat) (defaults source : value)
    (options : Options) : M value :=
  let* defaults_ok :=
    pure_read (fun h => truthy defaults && bool_decide (typeof h defaults = TObject)) in
  assert defaults_ok "Invalid defaults value: must be an object" ;;
  let* source_ok :=
    pure_read (fun h => negb (truthy source) || strict_eq source (VBool true)
                        || bool_decide (typeof h source = TObject)) in
  assert source_ok "Invalid source value: must be true, falsy or an object" ;;
  if negb (truthy source) then ret VNull
  else if truthy (flag (opt_shallow options)) then
    applyToDefaultsWithShallow fuel defaults source options
  else
    let* copy := clone fuel defaults no_options in
    if strict_eq source (VBool true) then ret copy
    else
      let nullOverride :=
        if negb (strict_eq (flag (opt_nullOverride options)) VUndef)
        then flag (opt_nullOverride options) else VBool false in
      merge fuel copy source
        (mkOptions None None None (Some nullOverride) (Some (VBool false))
           None None None None).

(** ** [exports.contain] *)

(** The flags handed to [deepEqual]. *)
Record compareFlags := mkFlags {
  cf_prototype : value;
  cf_part : value
}.

Section Contain.

(** [exports.deepEqual] lives in [lib/deep-equal.js], which is not among
    the sources; it is a parameter here.  It reads the heap and answers
    a boolean. *)
Variable deepEqual : heap -> value -> value -> compareFlags -> bool.

(** The tally, or the [return false] from inside a loop. *)
Definition tally : Type := (list nat * bool)%type.

Definition increment (matches : list nat) (i : nat) : list nat :=
  match matches !! i with
  | Some m => <[i := S m]> matches
  | None => matches
  end.

(** [values.indexOf(x)] *)
Fixpoint indexOf (values : list value) (x : value) : option nat :=
  match values with
  | [] => None
  | v :: vs =>
      if strict_eq v x then Some 0%nat
      else option_map S (indexOf vs x)
  end.

(** [Object.keys(values)] followed by the enumerable own symbols. *)
Definition enumerable_keys (h : heap) (l : loc) : list value :=
  match h !! l with
  | Some o =>
      map key_value
        (List.filter (fun k => negb (is_symbol_key k) && propertyIsEnumerable h l k)
           (own_keys o)
         ++ List.filter (fun k => is_symbol_key k && propertyIsEnumerable h l k)
              (own_keys o))
  | None => []
  end.

(** The first lines of [contain]: the pairs to compare, when reference
    and values are both records, and the list of candidates. *)
Definition contain_values (h : heap) (ref values : value)
  : outcome (option value * list value) :=
  if bool_decide (typeof h ref = TObject)
     && bool_decide (typeof h values = TObject)
     && negb (isArray h ref) && negb (isArray h values)
  then
    match values with
    | VObj l => Ret (Some values, enumerable_keys h l)
    | _ => Throw TypeError
    end
  else if isArray h values then
    let? vs := elements_of h values in Ret (None, vs)
  else Ret (None, [values]).

Definition compare (h : heap) (options : Options) (a b : value) : bool :=
  if truthy (flag (opt_deep options)) then
    let hasOnly := negb (strict_eq (flag (opt_only options)) VUndef) in
    let hasPart := negb (strict_eq (flag (opt_part options)) VUndef) in
    deepEqual h a b
      (mkFlags
         (if hasOnly then flag (opt_only options)
          else if hasPart then VBool (negb (truthy (flag (opt_part options))))
          else VBool false)
         (if hasOnly then VBool (negb (truthy (flag (opt_only options))))
          else if hasPart then flag (opt_part options)
          else VBool false))
  else strict_eq a b.

(** *** A text reference: the scan of [ref.replace(regex, ...)] with the
    pattern [(v1|v2|...)] of the escaped values. *)

Definition all_strings (values : list value) : option (list string) :=
  foldr (fun v acc =>
           match v, acc with
           | VStr s, Some ss => Some (s :: ss)
           | _, _ => None
           end) (Some []) values.

(** The first alternative that matches at the head of [s]. *)
Fixpoint first_alternative (alts : list string) (s : string) : option string :=
  match alts with
  | [] => None
  | a :: alts' =>
      if String.prefix a s then Some a else first_alternative alts' s
  end.

Fixpoint drop_chars (n : nat) (s : string) : string :=
  match n, s with
  | S n', String _ s' => drop_chars n' s'
  | _, _ => s
  end.

Definition count_match (values : list value) (m : string) (matches : list nat)
  : list nat :=
  match indexOf values (VStr m) with
  | Some i => increment matches i
  | None => matches
  end.

(** Returns the tally and the leftovers. *)
Fixpoint scan (n : nat) (values : list value) (alts : list string) (s : string)
    (matches : list nat) : list nat * string :=
  match n with
  | O => (matches, s)
  | S n' =>
      match first_alternative alts s with
      | Some "" =>
          let matches := count_match values "" matches in
          match s with
          | "" => (matches, "")
          | String c s' =>
              let r := scan n' values alts s' matches in
              (r.1, String c r.2)
          end
      | Some m =>
          scan n' values alts (drop_chars (String.length m) s)
            (count_match values m matches)
      | None =>
          match s with
          | "" => (matches, "")
          | String c s' =>
              let r := scan n' values alts s' matches in
              (r.1, String c r.2)
          end
      end
  end.

Definition contain_string (ref : string) (values : list value)
    (matches : list nat) : outcome (bool + tally) :=
  match all_strings values with
  | None =>
      Throw (HoekError "Cannot compare string reference to non-string value")
  | Some alts =>
      let r := scan (S (String.length ref)) values alts ref matches in
      Ret (inr (r.1, negb (String.eqb r.2 "")))
  end.

(** *** A sequence reference *)

(** The inner loop: the first candidate, from [j] on, that is still
    eligible and compares equal to the element. *)
Fixpoint find_match (h : heap) (options : Options) (onlyOnce : bool)
    (values : list value) (matches : list nat) (x : value) (j : nat)
  : option nat :=
  match values, matches with
  | v :: vs, m :: ms =>
      if (negb onlyOnce || Nat.eqb m 0) && compare h options v x then Some j
      else find_match h options onlyOnce vs ms x (S j)
  | _, _ => None
  end.

Fixpoint contain_array_loop (h : heap) (options : Options) (onlyOnce : bool)
    (ref : value) (values : list value) (indices : list nat) (t : tally)
  : outcome tally :=
  match indices with
  | [] => Ret t
  | i :: rest =>
      let? x := get h ref (index_key (N.of_nat i)) in
      match find_match h options onlyOnce values t.1 x 0 with
      | Some matched =>
          contain_array_loop h options onlyOnce ref values rest
            (increment t.1 matched, t.2)
      | None =>
          contain_array_loop h options onlyOnce ref values rest (t.1, true)
      end
  end.

Definition contain_array (h : heap) (options : Options) (ref : value)
    (values : list value) (matches : list nat) : outcome (bool + tally) :=
  let onlyOnce :=
    truthy (flag (opt_only options)) && truthy (flag (opt_once options)) in
  let? len := get h ref length_key in
  if onlyOnce
     && negb (strict_eq len (VNum (Z.of_nat (List.length values))))
  then Ret (inl false)
  else
    let n := match len with VNum n => Z.to_nat n | _ => 0%nat end in
    let? t := contain_array_loop h options onlyOnce ref values (seq 0 n)
                (matches, false) in
    Ret (inr t).

(** *** A record reference *)

Fixpoint contain_record_loop (h : heap) (options : Options) (ref : value)
    (valuePairs : option value) (values : list value) (ks : list key)
    (t : tally) : outcome (bool + tally) :=
  match ks with
  | [] => Ret (inr t)
  | key :: rest =>
      match indexOf values (key_value key) with
      | Some pos =>
          let? mismatch :=
            match valuePairs with
            | Some pairs =>
                let? expected := get h pairs key in
                let? actual := get h ref key in
                Ret (negb (compare h options expected actual))
            | None => Ret false
            end in
          if mismatch then Ret (inl false)
          else contain_record_loop h options ref valuePairs values rest
                 (increment t.1 pos, t.2)
      | None =>
          contain_record_loop h options ref valuePairs values rest (t.1, true)
      end
  end.

(** *** The final verdict, from the tally and the flag of unmatched input *)

Fixpoint verdict_loop (options : Options) (matches : list nat) (result : bool)
  : bool :=
  match matches with
  | [] => result
  | m :: ms =>
      let result := result || negb (Nat.eqb m 0) in
      if (truthy (flag (opt_once options)) && Nat.ltb 1 m)
         || (negb (truthy (flag (opt_part options))) && Nat.eqb m 0)
      then false
      else verdict_loop options ms result
  end.

Definition verdict (options : Options) (matches : list nat) (misses : bool)
  : bool :=
  if truthy (flag (opt_only options))
     && (misses || negb (truthy (flag (opt_once options))))
  then negb misses
  else verdict_loop options matches false.

Definition contain (h : heap) (ref values : value) (options : Options)
  : outcome bool :=
  let? nv := contain_values h ref values in
  let valuePairs := nv.1 in
  let values := nv.2 in
  if negb (bool_decide (typeof h ref = TString)
           || bool_decide (typeof h ref = TObject))
  then Throw (HoekError "Reference must be string or an object")
  else if Nat.eqb (List.length values) 0
  then Throw (HoekError "Values array cannot be empty")
  else
    let matches := repeat 0%nat (List.length values) in
    let? t :=
      match ref with
      | VStr s => contain_string s values matches
      | _ =>
          if isArray h ref then contain_array h options ref values matches
          else
            let? ks := keys h ref options in
            contain_record_loop h options ref valuePairs values ks
              (matches, false)
      end in
    match t with
    | inl early => Ret early
    | inr (matches, misses) => Ret (verdict options matches misses)
    end.

End Contain.

(** ** The verdict of [contain], in the words of the specification *)

Definition verdict_spec (only once part : bool) (matches : list nat)
    (misses : bool) : bool :=
  if only && (misses || negb once) then negb misses
  else
    existsb (fun m => negb (Nat.eqb m 0)) matches
    && negb (once && existsb (fun m => Nat.ltb 1 m) matches)
    && negb (negb part && existsb (fun m => Nat.eqb m 0) matches).

(** ** Building heaps for examples *)

Definition data (v : value) : prop := PData v true true true.

(** [{ k1: v1, ... }] *)
Definition record (ps : list (string * value)) : obj :=
  plain (Some ObjectPrototype) (map (fun kv => (KStr kv.1, data kv.2)) ps).

(** [[v0, v1, ...]] *)
Definition array_of (vs : list value) : obj :=
  mkObj KArray (Some ArrayPrototype) true
    ((length_key, PData (VNum (Z.of_nat (List.length vs))) false true false)
       :: imap (fun i v => (index_key (N.of_nat i), data v)) vs).

Definition options_once_only : Options :=
  mkOptions None None None None None None
    (Some (VBool true)) (Some (VBool true)) None.

(** [[1, 2, 2]] at 10, [[1, 2]] at 11, [[]] at 12, [{ a: 1 }] at 13 and
    [{}] at 14. *)
Definition contain_heap : heap :=
  realm ++ [ array_of [VNum 1; VNum 2; VNum 2];
             array_of [VNum 1; VNum 2];
             array_of [];
             record [("a", VNum 1)];
             record [] ].

(** [{ x: 1 }] at 10 and [{ x: 2 }] at 11. *)
Definition merge_heap : heap :=
  realm ++ [ record [("x", VNum 1)]; record [("x", VNum 2)] ].

(** A prototype [{ isImmutable: true }] at 10 and a record [{ x: 1 }] at
    11 that inherits from it. *)
Definition immutable_heap : heap :=
  realm ++ [ record [("isImmutable", VBool true)];
             plain (Some 10%nat) [(KStr "x", data (VNum 1))] ].

(** [{ prototype: false }] *)
Definition options_no_prototype : Options :=
  mkOptions None (Some (VBool false)) None None None None None None None.

(** [{ x: 1 }] at 10, [{ x: null }] at 11 and [['y']] at 12. *)
Definition defaults_heap : heap :=
  realm ++ [ record [("x", VNum 1)]; record [("x", VNull)];
             array_of [VStr "y"] ].

(** [{ nullOverride: true }] and [{ shallow: ['y'], nullOverride: true }] *)
Definition options_nullOverride : Options :=
  mkOptions None None None (Some (VBool true)) None None None None None.

Definition options_shallow_nullOverride : Options :=
  mkOptions (Some (VObj 12%nat)) None None (Some (VBool true)) None
    None None None None.

(** The kinds that [clone] copies by the [default] branch of its switch. *)
Definition default_branch (h : heap) (l : loc) : Prop :=
  getInternalProto h l <> BufferPrototype
  /\ getInternalProto h l <> DatePrototype
  /\ getInternalProto h l <> RegExpPrototype
  /\ getInternalProto h l <> ArrayPrototype.

(** [options.shallow] is a list of keys: truthy and not [true]. *)
Definition shallow_keys (options : Options) : bool :=
  truthy (flag (opt_shallow options))
  && negb (strict_eq (flag (opt_shallow options)) (VBool true)).



Definition options_no_nullOverride : Options :=
  mkOptions None None None (Some (VBool false)) None None None None None.

(** ** Frames

    A recursive call of [clone] only adds to the heap and to the map of
    seen references. *)
Definition clone_frames (clone : clone_fn) : Prop :=
  forall v (s : seen_map) h r h',
    clone v (Some s) h = Ret (r, h') ->
    h `prefix_of` h' /\ exists s' : seen_map, r.2 = Some s' /\ s ⊆ s'.


(** The part of [clone] that copies the elements of a Set or the entries
    of a Map into the new object. *)
Definition clone_entries (clone : clone_fn) (l newObj baseProto : loc)
    (seen : option seen_map) : M (option seen_map) :=
  if bool_decide (baseProto = SetPrototype) then
    let* vs := pure_read (fun h => set_elements h l) in
    clone_set_loop clone newObj vs seen
  else if bool_decide (baseProto = MapPrototype) then
    let* es := pure_read (fun h => map_entries h l) in
    clone_map_loop clone newObj es seen
  else ret seen.

(** The last step of [clone] on an array: [newObj.length = obj.length]. *)
Definition clone_length (l newObj baseProto : loc) : M unit :=
  if bool_decide (baseProto = ArrayPrototype) then
    let* len := read (fun h => get h (VObj l) length_key) in
    set_prop (VObj newObj) length_key len
  else ret tt.







(** [{ a: [1] }] at 10 with its array at 11, [{ a: [2] }] at 12 with its
    array at 13. *)
Definition arrays_heap : heap :=
  realm ++ [ record [("a", VObj 11%nat)]; array_of [VNum 1];
             record [("a", VObj 13%nat)]; array_of [VNum 2] ].

(** [{ mergeArrays: false }] *)
Definition options_no_mergeArrays : Options :=
  mkOptions None None None None (Some (VBool false)) None None None None.

(** ** A protected region of the heap

    [P] is a set of locations of the heap [h0] in which a call starts:
    the objects of a source graph, with their prototypes.  The
    definitions below say when [merge] and [clone], started on [h0], have
    no way to a protected object. *)

Section Protected.

Variable P : loc -> Prop.
Variable h0 : heap.

(** A value that may be stored outside the region: not a reference to a
    protected object, unless that object is a function (which is never
    written to). *)
Definition outside (v : value) : Prop :=
  forall x, v = VObj x -> P x -> is_function h0 x = true.

(** An object none of whose data properties leads into the region. *)
Definition good (o : obj) : Prop :=
  forall k v e w c, In (k, PData v e w c) (o_props o) -> outside v.

(** An object that is, or can become, the prototype of another: a
    built-in prototype, or the prototype of an object of the heap. *)
Definition template (h : heap) (l : loc) : Prop :=
  (l < 9)%nat \/ exists l' o', h !! l' = Some o' /\ o_proto o' = Some l.

(** Every object outside the region, and every template, is good. *)
Definition guarded (h : heap) : Prop :=
  forall l o, h !! l = Some o -> (~ P l \/ template h l) -> good o.

(** The heap [h] has grown from [h0] with the region as it was. *)
Definition protected_same (h : heap) : Prop :=
  (List.length h0 <= List.length h)%nat /\ forall l, P l -> h !! l = h0 !! l.

(** The region lies in [h0], holds the prototypes of its objects, and
    none of its objects has a prototype that answers a truthy
    [isImmutable]. *)
Definition protected_ok : Prop :=
  (forall l, P l -> (l < List.length h0)%nat)
  /\ (forall l o p, P l -> h0 !! l = Some o -> o_proto o = Some p -> P p)
  /\ (forall l o p, P l -> h0 !! l = Some o -> o_proto o = Some p ->
        exists v, get h0 (VObj p) isImmutable_key = Ret v /\ truthy v = false).

Definition seen_outside (s : seen_map) : Prop :=
  forall a t, s !! a = Some t -> ~ P t.

(** A recursive call of [clone] keeps the region as it was and the heap
    guarded, and answers a value that may be stored outside the
    region. *)
Definition clone_guards (clone : clone_fn) : Prop :=
  forall v (s : seen_map) h r h',
    protected_same h -> guarded h -> seen_outside s ->
    clone v (Some s) h = Ret (r, h') ->
    protected_same h' /\ guarded h'
    /\ (exists s' : seen_map, r.2 = Some s' /\ seen_outside s')
    /\ outside r.1.

End Protected.

(** ** Detaching and reattaching the shallow keys *)







(** [{ a: [o] }] at 10, with its array at 11 and [o] at 12, and the list
    of keys [['a.-1']] at 13. *)
Definition negative_index_heap : heap :=
  realm ++ [ record [("a", VObj 11%nat)]; array_of [VObj 12%nat]; record [];
             array_of [VStr "a.-1"] ].

Definition options_shallow_negative : Options :=
  mkOptions (Some (VObj 13%nat)) None None None None None None None None.

(** ** [exports.escapeRegex] and [exports.escapeHeaderAttribute] *)

(** [s.replace(/[class]/g, replacement)] for a class of single
    characters: every character of the class is replaced, the others are
    kept. *)
Fixpoint replace_chars (class : ascii -> bool) (replacement : ascii -> string)
    (s : string) : string :=
  match s with
  | "" => ""
  | String c s' =>
      (if class c then replacement c else String c "")
        ++ replace_chars class replacement s'
  end.

(** Calling a method that strings have on another value: a function found
    in the heap under that name is code the library does not hold, and
    anything else cannot be called. *)
Definition call_missing {A} (h : heap) (v : value) (name : string) : outcome A :=
  let? m := get h v (KStr name) in
  if bool_decide (typeof h m = TFunction) then UserCode else Throw TypeError.

(** The class of the pattern: twenty characters of the syntax of
    regular expressions. *)
Definition regex_special (c : ascii) : bool :=
  existsb (Ascii.eqb c) (list_ascii_of_string "^$.*+-?=!:|\/()[]{},").

(** [exports.escapeRegex]; the replacement is a backslash and the
    character matched. *)
Definition escapeRegex (h : heap) (string : value) : outcome value :=
  match string with
  | VStr s =>
      Ret (VStr (replace_chars regex_special
                   (fun c => String "\" (String c "")) s))
  | _ => call_missing h string "replace"
  end.

Definition double_quote : ascii := "034"%char.

(** [\w] *)
Definition word_char (c : ascii) : bool :=
  let n := nat_of_ascii c in
  ((97 <=? n) && (n <=? 122))%nat || ((65 <=? n) && (n <=? 90))%nat
  || ((48 <=? n) && (n <=? 57))%nat || Ascii.eqb c "_".

(** The class of the test: the space, [\w], the punctuation listed, the
    double quote and the backslash. *)
Definition header_char (c : ascii) : bool :=
  Ascii.eqb c " " || word_char c
  || existsb (Ascii.eqb c) (list_ascii_of_string "!#$%&'()*+,-./:;<=>?@[]^`{|}~")
  || Ascii.eqb c double_quote || Ascii.eqb c "\".

(** [exports.escapeHeaderAttribute].  The test and the message take the
    spelling of the attribute; only a string has the method [replace]. *)
Definition escapeHeaderAttribute (h : heap) (attribute : value) : outcome value :=
  match attribute, to_key attribute with
  | VObj _, _ => UserCode
  | _, Some (KStr text) =>
      if forallb header_char (list_ascii_of_string text) then
        match attribute with
        | VStr s =>
            Ret (VStr (replace_chars (Ascii.eqb double_quote)
                         (fun _ => String "\" (String double_quote ""))
                         (replace_chars (Ascii.eqb "\") (fun _ => "\\") s)))
        | _ => call_missing h attribute "replace"
        end
      else Throw (HoekError ("Bad attribute value (" ++ text ++ ")"))
  | _, _ => Throw TypeError
  end.

(** *** Readers of the escaped forms, to state what the escapes achieve *)

(** The text that a pattern made of literal characters and escaped
    special characters matches; [None] when the pattern has a special
    character that is not escaped, or an escape of another character. *)
Fixpoint literal_pattern (p : string) : option string :=
  match p with
  | "" => Some ""
  | String c p' =>
      if Ascii.eqb c "\" then
        match p' with
        | String d p'' =>
            if regex_special d then option_map (String d) (literal_pattern p'')
            else None
        | "" => None
        end
      else if regex_special c then None
      else option_map (String c) (literal_pattern p')
  end.

(** The text that the content of a quoted string spells: a backslash
    quotes the character after it, and a bare double quote would end the
    string ([None]). *)
Fixpoint quoted_text (q : string) : option string :=
  match q with
  | "" => Some ""
  | String c q' =>
      if Ascii.eqb c "\" then
        match q' with
        | String d q'' => option_map (String d) (quoted_text q'')
        | "" => None
        end
      else if Ascii.eqb c double_quote then None
      else option_map (String c) (quoted_text q')
  end.

(** Codes 32 to 126. *)
Definition printable (c : ascii) : Prop :=
  (32 <= nat_of_ascii c <= 126)%nat.

(** ** [exports.flatten] *)

(** [i < len] for a counter and the value read from a length. *)
Definition below (i : Z) (len : value) : outcome bool :=
  let? m := to_integer len in
  Ret (match m with Some m => i <? m | None => false end).

(** [result.push(v)]: an array has the built-in method; on another value
    the method is what the heap gives under that name. *)
Definition call_push (result v : value) : M unit :=
  let* is_array := pure_read (fun h => isArray h result) in
  if is_array then push result v
  else read (fun h => call_missing h result "push").

(** The loop of [flatten]; the length of [array] is read again at every
    turn, and [array[i]] once for the test and once for the use. *)
Fixpoint flatten_loop (n : nat) (flatten : value -> value -> M value)
    (array result : value) (i : Z) : M unit :=
  match n with
  | O => fun _ => OutOfFuel
  | S n' =>
      let* len := read (fun h => get h array length_key) in
      let* more := read (fun _ => below i len) in
      if more then
        let* tested := read (fun h => get h array (index_key (Z.to_N i))) in
        let* nested := pure_read (fun h => isArray h tested) in
        let* item := read (fun h => get h array (index_key (Z.to_N i))) in
        (if nested then let* _ := flatten item result in ret tt
         else call_push result item) ;;
        flatten_loop n' flatten array result (i + 1)
      else ret tt
  end.

Fixpoint flatten (fuel : nat) (array target : value) {struct fuel} : M value :=
  match fuel with
  | O => fun _ => OutOfFuel
  | S fuel' =>
      let* result :=
        if truthy target then ret target
        else let* n := alloc (empty_array (Some ArrayPrototype)) in ret (VObj n) in
      flatten_loop fuel' (flatten fuel') array result 0 ;;
      ret result
  end.

(** *** The items of a nested array

    What a walk of [array] in the heap [h] meets that is not an array,
    from left to right, going down into the arrays. *)

Fixpoint flat_loop (n : nat) (flat : value -> outcome (list value))
    (h : heap) (array : value) (i : Z) : outcome (list value) :=
  match n with
  | O => OutOfFuel
  | S n' =>
      let? len := get h array length_key in
      let? more := below i len in
      if more then
        let? item := get h array (index_key (Z.to_N i)) in
        let? xs := if isArray h item then flat item else Ret [item] in
        let? ys := flat_loop n' flat h array (i + 1) in
        Ret (xs ++ ys)
      else Ret []
  end.

Fixpoint flat_items (fuel : nat) (h : heap) (array : value) {struct fuel}
  : outcome (list value) :=
  match fuel with
  | O => OutOfFuel
  | S fuel' => flat_loop fuel' (flat_items fuel' h) h array 0
  end.

(** *** Heaps without dangling references *)

Definition value_in (n : nat) (v : value) : bool :=
  match v with
  | VObj l => (l <? n)%nat
  | _ => true
  end.

Definition prop_in (n : nat) (p : prop) : bool :=
  match p with
  | PData v _ _ _ => value_in n v
  | PAccessor g s _ _ => value_in n g && value_in n s
  end.

Definition kind_in (n : nat) (c : kind) : bool :=
  match c with
  | KSet vs => forallb (value_in n) vs
  | KMap es => forallb (fun kv => value_in n kv.1 && value_in n kv.2) es
  | _ => true
  end.

Definition obj_in (n : nat) (o : obj) : bool :=
  match o_proto o with Some p => (p <? n)%nat | None => true end
  && forallb (fun kp => prop_in n kp.2) (o_props o)
  && kind_in n (o_kind o).

(** Every reference held by an object of the heap is to an object of the
    heap. *)
Definition closed_heap (h : heap) : bool :=
  forallb (obj_in (List.length h)) h.

Definition no_index (ps : list (key * prop)) : bool :=
  forallb (fun kp => match array_index kp.1 with
                     | Some _ => false
                     | None => true
                     end) ps.

(** The prototype of arrays inherits from the prototype of objects, which
    ends the chain, and neither owns a property named by an index. *)
Definition array_prototype_plain (h : heap) : bool :=
  match h !! ArrayPrototype, h !! ObjectPrototype with
  | Some pa, Some po =>
      bool_decide (o_proto pa = Some ObjectPrototype)
      && bool_decide (o_proto po = None)
      && no_index (o_props pa) && no_index (o_props po)
  | _, _ => false
  end.

(** [[1, [2, [3]], 4]] at 10, with [[2, [3]]] at 11 and [[3]] at 12. *)
Definition nested_heap : heap :=
  realm ++ [ array_of [VNum 1; VObj 11%nat; VNum 4];
             array_of [VNum 2; VObj 12%nat];
             array_of [VNum 3] ].

(** The heap [h] after the library has allocated an array in it and
    pushed the items [acc] onto that array. *)
Definition pushed (h : heap) (acc : list value) : heap := h ++ [array_of acc].

(** ** [exports.intersect] *)

(** What [for (const value of v)] yields, one computation per turn: the
    elements of an array, read by index; the elements of a Set; the
    entries of a Map, each a new pair; the bytes of a Buffer; the
    characters of a string.  Nothing in the loop of [intersect] writes to
    what it iterates, so the length of an array is read once.  The model
    has no iterators written by users: any other value is not iterable. *)

(** [array[i]] *)
Definition element_at (array : value) (i : nat) : M value :=
  read (fun h => get h array (index_key (N.of_nat i))).

Definition iterate (h : heap) (v : value) : outcome (list (M value)) :=
  match v with
  | VStr s =>
      Ret (map (fun c => ret (VStr (String c ""))) (list_ascii_of_string s))
  | VObj l =>
      match kind_of h l with
      | KArray =>
          let? len := get h v length_key in
          let? n := to_integer len in
          Ret (map (element_at v) (seq 0 (Z.to_nat (default 0 n))))
      | KSet vs => Ret (map ret vs)
      | KMap es =>
          Ret (map (fun kv => let* n := alloc (array_of [kv.1; kv.2]) in
                              ret (VObj n)) es)
      | KBuffer bytes => Ret (map (fun b => ret (VNum b)) bytes)
      | _ => Throw TypeError
      end
  | _ => Throw TypeError
  end.

(** [new Set(elements)], as the list of its members. *)
Definition set_of (vs : list value) : list value :=
  foldl (fun s v => if existsb (same_value_zero v) s then s else s ++ [v]) [] vs.

(** [internals.has(ref, key)].  The reference is the Set that [intersect]
    has made of an array (on the left) or the value it was given.  A Set
    and a Map have their built-in [has]; the members of a WeakSet and of
    a WeakMap are not in the heap, so that the run ends there; on any
    other value, a function under the name [has] is code that the library
    does not hold. *)
Definition has (h : heap) (ref : list value + value) (key : value) : outcome bool :=
  match ref with
  | inl members => Ret (existsb (same_value_zero key) members)
  | inr ref =>
      let by_property :=
        let? m := get h ref (KStr "has") in
        if bool_decide (typeof h m = TFunction) then UserCode
        else
          match to_key key with
          | None => UserCode
          | Some k => let? v := get h ref k in Ret (negb (strict_eq v VUndef))
          end in
      match ref with
      | VObj l =>
          match kind_of h l with
          | KSet vs => Ret (existsb (same_value_zero key) vs)
          | KMap es => Ret (existsb (fun kv => same_value_zero key kv.1) es)
          | KWeakSet | KWeakMap => UserCode
          | _ => by_property
          end
      | _ => by_property
      end
  end.

(** The loop of [intersect] over what [array2] yields; [found] is the Set
    of the values already taken. *)
Fixpoint intersect_loop (hash : list value + value) (first common : value)
    (items : list (M value)) (found : list value) : M value :=
  match items with
  | [] => ret (if truthy first then VNull else common)
  | next :: rest =>
      let* value := next in
      let* in_hash := read (fun h => has h hash value) in
      if in_hash && negb (existsb (same_value_zero value) found) then
        if truthy first then ret value
        else
          call_push common value ;;
          intersect_loop hash first common rest (found ++ [value])
      else intersect_loop hash first common rest found
  end.

(** [exports.intersect(array1, array2, options)]; [first] is the value of
    [options.first], the one option that is read. *)
Definition intersect (array1 array2 first : value) : M value :=
  if negb (truthy array1) || negb (truthy array2) then
    if truthy first then ret VNull
    else let* n := alloc (empty_array (Some ArrayPrototype)) in ret (VObj n)
  else
    let* common := alloc (empty_array (Some ArrayPrototype)) in
    let* hash :=
      read (fun h => if isArray h array1
                     then let? vs := elements_of h array1 in Ret (inl (set_of vs))
                     else Ret (inr array1)) in
    let* items := read (fun h => iterate h array2) in
    intersect_loop hash first (VObj common) items [].

(** [[1, 2, 2, 3]] at 10, [[3, 2, 5, 2, 3]] at 11 and [{ a: 1, b: 2 }] at
    12, [['b', 'c', 'a']] at 13. *)
Definition intersect_heap : heap :=
  realm ++ [ array_of [VNum 1; VNum 2; VNum 2; VNum 3];
             array_of [VNum 3; VNum 2; VNum 5; VNum 2; VNum 3];
             record [("a", VNum 1); ("b", VNum 2)];
             array_of [VStr "b"; VStr "c"; VStr "a"] ].
(** The values that the loop of [intersect] takes from the items [xs],
    given the members of the hash and the values already found. *)
Fixpoint taken (members found xs : list value) : list value :=
  match xs with
  | [] => []
  | x :: xs' =>
      if existsb (same_value_zero x) members
         && negb (existsb (same_value_zero x) found)
      then x :: taken members (found ++ [x]) xs'
      else taken members found xs'
  end.

(** ** [exports.reach] with its options, and [exports.reachTemplate] *)

Record ReachOptions := mkReachOptions {
  ro_separator : option value;
  ro_default : option value;
  ro_strict : option value;
  ro_functions : option value;
  ro_iterables : option value
}.

Definition no_reach_options : ReachOptions :=
  mkReachOptions None None None None None.

(** The third argument of [reach]: left out (or any value without the
    fields read), a separator as a string, or an object. *)
Inductive reach_argument :=
| ReachOmitted
| ReachSeparator (s : string)
| ReachObject (o : ReachOptions).

(** [options = options || {}], then [{ separator: options }] for a
    string; the empty string is falsy. *)
Definition reach_options (a : reach_argument) : ReachOptions :=
  match a with
  | ReachOmitted => no_reach_options
  | ReachSeparator s =>
      if truthy (VStr s) then mkReachOptions (Some (VStr s)) None None None None
      else no_reach_options
  | ReachObject o => o
  end.

(** [s.split(sep)] for a separator that is not empty: the pieces between
    the occurrences of [sep], found from the left; [skip] counts the
    characters of an occurrence still to pass. *)
Fixpoint split_go (sep : string) (skip : nat) (s : string) : list string :=
  match s with
  | "" => [""]
  | String c s' =>
      match skip with
      | S k => split_go sep k s'
      | O =>
          if String.prefix sep s
          then "" :: split_go sep (String.length sep - 1) s'
          else match split_go sep 0 s' with
               | w :: ws => String c w :: ws
               | [] => [String c ""]
               end
      end
  end.

Definition split_on (sep s : string) : list string := split_go sep 0 s.

(** [isChainArray ? chain : chain.split(options.separator || '.')] *)
Definition reach_path (h : heap) (chain : value) (options : ReachOptions)
  : outcome (list value) :=
  if isArray h chain then elements_of h chain
  else
    match chain with
    | VStr s =>
        let separator := flag (ro_separator options) in
        if truthy separator then
          match separator, to_key separator with
          | VObj _, _ => UserCode
          | _, Some (KStr sep) => Ret (map VStr (split_on sep s))
          | _, _ => Throw TypeError
          end
        else Ret (map VStr (split_dot s))
    | _ => call_missing h chain "split"
    end.

Inductive iterable := IterableSet | IterableMap.

(** [options.iterables && internals.iterables(ref)]; [None] stands for
    the falsy answers. *)
Definition iterables (h : heap) (options : ReachOptions) (ref : value)
  : option iterable :=
  if truthy (flag (ro_iterables options)) then
    if instanceof h ref SetPrototype then Some IterableSet
    else if instanceof h ref MapPrototype then Some IterableMap
    else None
  else None.

(** [len + number] *)
Definition plus_number (len : value) (number : Z) : outcome value :=
  match len with
  | VNum m => Ret (VNum (m + number))
  | VUndef | VNaN => Ret VNaN
  | VNull | VBool false => Ret (VNum number)
  | VBool true => Ret (VNum (1 + number))
  | VStr s => Ret (VStr (s ++ string_of_Z number))
  | VSym _ => Throw TypeError
  | VObj _ => UserCode
  end.

(** The key of a turn: on an array, and on a Set read as an iterable, a
    segment that spells an integer is taken as an index, counted from
    [ref.length] when negative. *)
Definition reach_segment (h : heap) (type : option iterable) (ref key : value)
  : outcome value :=
  if isArray h ref then reach_key h ref key
  else
    match type with
    | Some IterableSet =>
        let? number := to_integer key in
        match number with
        | Some n =>
            if n <? 0 then
              let? len := get h ref length_key in plus_number len n
            else Ret (VNum n)
        | None => Ret key
        end
    | _ => Ret key
    end.

(** [[...ref][key]]: the new array is read without being put in the
    heap; what is not an element of it is read from the prototype of
    arrays. *)
Definition spread_get (h : heap) (ref key : value) : outcome value :=
  match ref with
  | VObj l =>
      match kind_of h l with
      | KSet vs =>
          match to_key key with
          | None => UserCode
          | Some k =>
              if bool_decide (k = length_key)
              then Ret (VNum (Z.of_nat (List.length vs)))
              else
                match array_index k with
                | Some i =>
                    match vs !! N.to_nat i with
                    | Some x => Ret x
                    | None => get h (VObj ArrayPrototype) k
                    end
                | None => get h (VObj ArrayPrototype) k
                end
          end
      | _ => Throw TypeError
      end
  | _ => Throw TypeError
  end.

(** [ref.get(key)] on a Map *)
Definition map_get (h : heap) (ref key : value) : outcome value :=
  match ref with
  | VObj l =>
      match kind_of h l with
      | KMap es =>
          Ret (match List.find (fun kv => same_value_zero key kv.1) es with
               | Some kv => kv.2
               | None => VUndef
               end)
      | _ => Throw TypeError
      end
  | _ => Throw TypeError
  end.

(** [ref[key]] *)
Definition get_value (h : heap) (ref key : value) : outcome value :=
  match to_key key with
  | None => UserCode
  | Some k => get h ref k
  end.

(** The loop of [reach].  The errors are named by the first piece of
    their message; the key and the chain, which the message also shows,
    are left out. *)
Fixpoint reach_with_loop (h : heap) (options : ReachOptions)
    (path : list value) (ref : value) : outcome value :=
  match path with
  | [] => Ret ref
  | segment :: rest =>
      let type := iterables h options ref in
      let? key := reach_segment h type ref segment in
      let? missing :=
        if negb (truthy ref) then Ret true
        else if bool_decide (typeof h ref = TFunction)
                && strict_eq (flag (ro_functions options)) (VBool false)
        then Ret true
        else
          match type with
          | None => let? v := get_value h ref key in Ret (strict_eq v VUndef)
          | Some _ => Ret false
          end in
      if missing then
        if truthy (flag (ro_strict options))
           && negb (bool_decide (rest = []))
        then Throw (HoekError "Missing segment")
        else if negb (bool_decide (typeof h ref = TObject)
                      || strict_eq (flag (ro_functions options)) (VBool true)
                      || negb (bool_decide (typeof h ref = TFunction)))
        then Throw (HoekError "Invalid segment")
        else Ret (flag (ro_default options))
      else
        let? next :=
          match type with
          | None => get_value h ref key
          | Some IterableSet => spread_get h ref key
          | Some IterableMap => map_get h ref key
          end in
        reach_with_loop h options rest next
  end.

(** [exports.reach(obj, chain, options)] *)
Definition reach_with (h : heap) (obj chain : value) (argument : reach_argument)
  : outcome value :=
  if strict_eq chain (VBool false) || is_nullish chain then Ret obj
  else
    let options := reach_options argument in
    if isArray h chain && truthy (flag (ro_separator options))
    then Throw (HoekError "Separator option no valid for array-based chain")
    else
      let? path := reach_path h chain options in
      reach_with_loop h options path obj.

(** [{ a: [5, { c: 'x' }] }] at 10, with its array at 11 and [{ c: 'x' }]
    at 12; a Set of ['p', 'q'] at 13 and a Map of ['k' -> 7] at 14. *)
Definition reach_heap : heap :=
  realm ++ [ record [("a", VObj 11%nat)];
             array_of [VNum 5; VObj 12%nat];
             record [("c", VStr "x")];
             mkObj (KSet [VStr "p"; VStr "q"]) (Some SetPrototype) true [];
             mkObj (KMap [(VStr "k", VNum 7)]) (Some MapPrototype) true [] ].





(** The region made of all the objects of a heap. *)
Definition all_of (h : heap) (l : loc) : Prop := (l < List.length h)%nat.

(** A value that [clone] returns as it is: anything but an object, and
    [null]. *)
Definition plain_value (h : heap) (v : value) : bool :=
  negb (bool_decide (typeof h v = TObject)) || bool_decide (v = VNull).

(** All the properties of [o] are data properties with such values. *)
Definition plain_props (h : heap) (o : obj) : bool :=
  forallb (fun kp : key * prop =>
             match kp.2 with
             | PData v _ _ _ => plain_value h v
             | PAccessor _ _ _ _ => false
             end) (o_props o).

(** The properties that [clone] defines on the copy of such an object,
    for the keys [ks]: the value and the enumerability of the source,
    writable and configurable. *)
Definition copied_props (o : obj) (ks : list key) : list (key * prop) :=
  omap (fun k => match lookup_prop k (o_props o) with
                 | Some (PData v e _ _) => Some (k, PData v e true true)
                 | _ => None
                 end) ks.

(** [{ a: 1, b: 'x' }] at 10, where [a] is read-only and [b] is hidden
    and fixed. *)
Definition flags_heap : heap :=
  realm ++ [ plain (Some ObjectPrototype)
               [(KStr "a", PData (VNum 1) true false true);
                (KStr "b", PData (VStr "x") false true false)] ].

(** The computation [m], run in the heap [h], does not end with the
    error of the library. *)
Definition quiet_at {A} (m : M A) (h : heap) : Prop :=
  forall msg, m h <> Throw (HoekError msg).

Definition quiet {A} (m : M A) : Prop := forall h, quiet_at m h.

(** The same of a read. *)
Definition quiet_read {A} (r : outcome A) : Prop :=
  forall msg, r <> Throw (HoekError msg).

(** [{ f: function }] at 10 and the list of keys [['f.x']] at 11. *)
Definition function_heap : heap :=
  realm ++ [ record [("f", VObj FunctionPrototype)]; array_of [VStr "f.x"] ].

(** The keys that the loop of [clone] copies from an array: all but
    [length]. *)
Definition element_keys (ks : list key) : list key :=
  List.filter (fun k => negb (bool_decide (k = length_key))) ks.

(** [[7, <hole>, 'x']] at 10, an array with one more property [tag]. *)
Definition sparse_heap : heap :=
  realm ++ [ mkObj KArray (Some ArrayPrototype) true
               [(length_key, PData (VNum 3) false true false);
                (KStr "0", data (VNum 7));
                (KStr "tag", PData (VBool true) false false false);
                (KStr "2", data (VStr "x"))] ].

(** ** [exports.once]

    The functions of this part are values of the model with a body.  The
    state that a call works on is made of a world, which the methods of
    the caller read and write, and of the variables [once] of the
    wrappers made so far, one cell per wrapper. *)

Section Once.

Variable world : Type.
Variable arguments : Type.

Definition once_state : Type := (world * list bool)%type.

(** A function: what a call does and returns, and whether its property
    [_hoekOnce] is truthy. *)
Record callable := mkCallable {
  call : arguments -> once_state -> outcome (value * once_state);
  hoekOnce : bool
}.

(** The function [wrapped] of [once], whose variable [once] is the cell
    [cell]: the cell is set before the method is called, and what the
    method returns is dropped. *)
Definition wrapped (cell : nat) (method : callable) : callable :=
  mkCallable
    (fun args st =>
       match st.2 !! cell with
       | Some false =>
           let? r := call method args (st.1, <[cell := true]> st.2) in
           Ret (VUndef, r.2)
       | _ => Ret (VUndef, st)
       end)
    true.

(** [exports.once(method)] *)
Definition once (method : callable) (st : once_state) : callable * once_state :=
  if hoekOnce method then (method, st)
  else (wrapped (List.length st.2) method, (st.1, st.2 ++ [false])).

(** The method leaves the cell alone: the variable [once] of a wrapper is
    visible to that wrapper only. *)
Definition keeps_cell (method : callable) (cell : nat) : Prop :=
  forall args st v st',
    call method args st = Ret (v, st') -> st'.2 !! cell = st.2 !! cell.

End Once.

Arguments mkCallable {world arguments} call hoekOnce.
Arguments call {world arguments} c args st.
Arguments hoekOnce {world arguments} c.
Arguments wrapped {world arguments} cell method.
Arguments once {world arguments} method st.
Arguments keeps_cell {world arguments} method cell.

(** A method that adds its argument to a counter and returns the sum. *)
Definition add_to_counter : callable Z Z :=
  mkCallable (fun n st => Ret (VNum (st.1 + n), (st.1 + n, st.2))) false.

(** [{ only: true }] *)
Definition options_only : Options :=
  mkOptions None None None None None None None (Some (VBool true)) None.

(** [b[key] === a[key]], for two reads that return. *)
Definition same_entry (h : heap) (a b : value) (k : key) : bool :=
  match get h a k, get h b k with
  | Ret x, Ret y => strict_eq x y
  | _, _ => false
  end.

(** [{ a: 1, b: 2 }] at 10 and [{ b: 2 }] at 11. *)
Definition pairs_heap : heap :=
  realm ++ [ record [("a", VNum 1); ("b", VNum 2)]; record [("b", VNum 2)] ].

(** [{ iterables: true, default: d }] *)
Definition options_iterables (d : option value) : ReachOptions :=
  mkReachOptions None d None None (Some (VBool true)).

(** An invariant of the loop of [contain] over an array: the tally [ms]
    is positive exactly at the values that some element among [seen]
    equals. *)
Definition counted (vs : list value) (ms : list nat) (seen : list value)
  : Prop :=
  List.length ms = List.length vs
  /\ forall j v, vs !! j = Some v ->
       exists m, ms !! j = Some m
                 /\ (m <> 0%nat <-> existsb (strict_eq v) seen = true).

(** The same over the keys of a record: the tally is positive exactly at
    the keys that occur among [seen]. *)
Definition counted_keys (eks : list key) (ms : list nat) (seen : list key)
  : Prop :=
  List.length ms = List.length eks
  /\ forall j k, eks !! j = Some k ->
       exists m, ms !! j = Some m /\ (m <> 0%nat <-> In k seen).

(** * Properties *)

(** ** Inversion of monadic runs *)

Lemma bind_Ret {A B} (m : M A) (f : A -> M B) h b h' :
  bind m f h = Ret (b, h') ->
  exists a h1, m h = Ret (a, h1) /\ f a h1 = Ret (b, h').
Proof.
  unfold bind. destruct (m h) as [[a h1]| | |]; try discriminate.
  intros H. exists a, h1. auto.
Qed.

Lemma ret_Ret {A} (a b : A) h h' : ret a h = Ret (b, h') -> b = a /\ h' = h.
Proof. unfold ret. intros H. injection H as -> ->. auto. Qed.

Lemma pure_read_Ret {A} (f : heap -> A) h a h' :
  pure_read f h = Ret (a, h') -> a = f h /\ h' = h.
Proof. unfold pure_read. intros H. injection H as <- <-. auto. Qed.

Lemma read_Ret {A} (f : heap -> outcome A) h a h' :
  read f h = Ret (a, h') -> f h = Ret a /\ h' = h.
Proof.
  unfold read. destruct (f h); try discriminate.
  intros H. injection H as -> ->. auto.
Qed.

Lemma assert_Ret c msg h u h' :
  assert c msg h = Ret (u, h') -> c = true /\ h' = h.
Proof.
  unfold assert. destruct c; [|discriminate].
  intros H. apply ret_Ret in H. tauto.
Qed.

Lemma obind_Ret {A B} (m : outcome A) (f : A -> outcome B) b :
  obind m f = Ret b -> exists a, m = Ret a /\ f a = Ret b.
Proof. destruct m; try discriminate. simpl. eauto. Qed.

(** Peel one monadic step off a run that returned. *)
Ltac inv_run H :=
  match type of H with
  | bind _ _ _ = Ret _ =>
      let a := fresh "a" in let h1 := fresh "h" in
      let H1 := fresh "Hrun" in
      apply bind_Ret in H; destruct H as (a & h1 & H1 & H);
      inv_run H1
  | ret _ _ = Ret _ =>
      apply ret_Ret in H; first [destruct H as [-> ->] | (destruct H; subst)]
  | pure_read _ _ = Ret _ =>
      apply pure_read_Ret in H; first [destruct H as [-> ->] | (destruct H; subst)]
  | read _ _ = Ret _ =>
      let E := fresh "E" in
      apply read_Ret in H; destruct H as [H E];
      match type of E with ?x = _ => first [subst x | subst] end
  | assert _ _ _ = Ret _ =>
      let E := fresh "E" in
      apply assert_Ret in H; destruct H as [H E];
      match type of E with ?x = _ => first [subst x | subst] end
  | throw _ _ = Ret _ => discriminate H
  | _ => idtac
  end.

#[global] Arguments typeof : simpl never.
#[global] Arguments isArray : simpl never.
#[global] Arguments get : simpl never.
#[global] Arguments keys : simpl never.
#[global] Arguments set_prop : simpl never.
#[global] Arguments define_property : simpl never.
#[global] Arguments push : simpl never.
#[global] Arguments elements_of : simpl never.
#[global] Arguments instanceof : simpl never.
#[global] Arguments reach : simpl never.
#[global] Arguments reachSet : simpl never.
#[global] Arguments store : simpl never.
#[global] Arguments contain_values : simpl never.
#[global] Arguments getInternalProto : simpl never.
#[global] Arguments clone_base : simpl never.

(** ** The verdict of [contain] *)

Section ContainFacts.

Variable deepEqual : heap -> value -> value -> compareFlags -> bool.

Lemma verdict_loop_spec options matches result :
  verdict_loop options matches result =
    (result || existsb (fun m => negb (Nat.eqb m 0)) matches)
    && negb (truthy (flag (opt_once options))
             && existsb (fun m => Nat.ltb 1 m) matches)
    && negb (negb (truthy (flag (opt_part options)))
             && existsb (fun m => Nat.eqb m 0) matches).
Proof.
  revert result. induction matches as [|m ms IH]; intros result; simpl.
  - rewrite !andb_false_r, orb_false_r. simpl. now rewrite !andb_true_r.
  - destruct (truthy (flag (opt_once options))) eqn:Ho,
             (truthy (flag (opt_part options))) eqn:Hp,
             (Nat.ltb 1 m) eqn:H1, (Nat.eqb m 0) eqn:H0; simpl;
      rewrite ?IH, ?Ho, ?Hp; simpl;
      rewrite ?andb_false_r, ?andb_true_r, ?orb_true_r, ?orb_false_r;
      try reflexivity;
      try (apply Nat.eqb_eq in H0; apply Nat.ltb_lt in H1; lia).
Qed.

(** C6.  The final verdict of [contain] is the one the specification
    words: with [only] requested and either unmatched input or no
    [once], it is "no unmatched input"; otherwise it is true exactly
    when some slot of the tally is non-zero, no slot exceeds one under
    [once], and no slot is zero unless [part] is requested. *)
Theorem verdict_refines_spec options matches misses :
  verdict options matches misses =
    verdict_spec (truthy (flag (opt_only options)))
      (truthy (flag (opt_once options)))
      (truthy (flag (opt_part options))) matches misses.
Proof.
  unfold verdict, verdict_spec.
  destruct (truthy (flag (opt_only options))
            && (misses || negb (truthy (flag (opt_once options))))); [reflexivity|].
  rewrite verdict_loop_spec. reflexivity.
Qed.

(** Whenever [contain] gets as far as the tally, what it returns is the
    verdict of that tally. *)
Lemma contain_returns_verdict h ref values options pairs vs matches misses :
  contain_values h ref values = Ret (pairs, vs) ->
  isArray h ref = true ->
  contain_array deepEqual h options ref vs (repeat 0%nat (List.length vs))
    = Ret (inr (matches, misses)) ->
  vs <> [] ->
  contain deepEqual h ref values options = Ret (verdict options matches misses).
Proof.
  intros Hv Harr Ht Hne. unfold contain. rewrite Hv. simpl.
  assert (Hty : typeof h ref = TObject).
  { destruct ref; try discriminate. unfold isArray, typeof, is_function in *.
    destruct (h !! l); [|discriminate].
    apply bool_decide_eq_true in Harr. rewrite Harr. reflexivity. }
  rewrite Hty.
  replace (negb (bool_decide (TObject = TString) || bool_decide (TObject = TObject)))
    with false by reflexivity.
  destruct (Nat.eqb (List.length vs) 0) eqn:E.
  { apply Nat.eqb_eq in E. destruct vs; [congruence|discriminate]. }
  destruct ref; try discriminate.
  rewrite Harr, Ht. reflexivity.
Qed.

End ContainFacts.

(** ** [contain] on a sequence with [once] and [only], and on no values *)

Section ContainClaims.

Variable deepEqual : heap -> value -> value -> compareFlags -> bool.

Lemma isArray_typeof h v : isArray h v = true -> typeof h v = TObject.
Proof.
  destruct v; try discriminate. unfold isArray, typeof, is_function.
  destruct (h !! l); [|discriminate].
  intros H. apply bool_decide_eq_true in H. rewrite H. reflexivity.
Qed.



(** C10.  With no values requested, [contain] throws the library's
    error before anything is compared, whatever the reference is: an
    empty array of values against any reference, or a record of values
    without enumerable keys against a record reference. *)
Theorem contain_empty_values_throws h ref values options :
  (isArray h values = true /\ get h values length_key = Ret (VNum 0))
  \/ (typeof h ref = TObject /\ isArray h ref = false
      /\ isArray h values = false /\ typeof h values = TObject
      /\ exists l, values = VObj l /\ enumerable_keys h l = []) ->
  exists msg, contain deepEqual h ref values options = Throw (HoekError msg).
Proof.
  intros [[Harr Hlen] | (Href & Hra & Hva & Hvt & l & -> & Hk)].
  - unfold contain, contain_values.
    rewrite Harr, andb_false_r. unfold elements_of. rewrite Hlen. simpl.
    destruct (bool_decide (typeof h ref = TString)
              || bool_decide (typeof h ref = TObject)); simpl; eauto.
  - unfold contain, contain_values.
    rewrite Href, Hvt, Hra, Hva. simpl. rewrite Hk. simpl. eauto.
Qed.

End ContainClaims.


Example contain_once_only_same_length :
  contain (fun _ _ _ _ => false) contain_heap (VObj 11%nat) (VObj 11%nat)
    options_once_only = Ret true.
Proof. reflexivity. Qed.

Lemma contain_empty_values_throws_witness :
  exists msg,
    contain (fun _ _ _ _ => false) contain_heap (VStr "abc") (VObj 12%nat)
      no_options = Throw (HoekError msg).
Proof.
  apply (contain_empty_values_throws (fun _ _ _ _ => false) contain_heap
           (VStr "abc") (VObj 12%nat) no_options).
  left. split; reflexivity.
Defined.

Example contain_empty_values_array_reference :
  contain (fun _ _ _ _ => false) contain_heap (VObj 10%nat) (VObj 12%nat)
    no_options = Throw (HoekError "Values array cannot be empty").
Proof. reflexivity. Qed.

Example contain_empty_values_record_reference :
  contain (fun _ _ _ _ => false) contain_heap (VObj 13%nat) (VObj 14%nat)
    no_options = Throw (HoekError "Values array cannot be empty").
Proof. reflexivity. Qed.

(** ** [merge] hands back its target *)

Lemma merge_unfold fuel target source options :
  merge (S fuel) target source options =
    (let* target_ok :=
       pure_read (fun h => truthy target && bool_decide (typeof h target = TObject)) in
     assert target_ok "Invalid target value: must be an object" ;;
     let* source_ok :=
       pure_read (fun h => is_nullish source
                           || bool_decide (typeof h source = TObject)) in
     assert source_ok
       "Invalid source value: must be null, undefined, or an object" ;;
     if negb (truthy source) then ret target
     else
       let options := merge_options options in
       let clone := fun v => clone fuel v (symbols_only options) in
       let* source_is_array := pure_read (fun h => isArray h source) in
       if source_is_array then
         let* target_is_array := pure_read (fun h => isArray h target) in
         assert target_is_array "Cannot merge array onto an object" ;;
         (if negb (truthy (flag (opt_mergeArrays options)))
          then set_prop target length_key (VNum 0)
          else ret tt) ;;
         merge_array_loop fuel clone target source 0 ;;
         ret target
       else
         let* ks := read (fun h => keys h source options) in
         merge_keys clone (fun t s => merge fuel t s options)
           target source options ks ;;
         ret target).
Proof. reflexivity. Qed.

#[global] Opaque merge.



Example merge_source_wins :
  exists h', merge 3 (VObj 10%nat) (VObj 11%nat) no_options merge_heap
               = Ret (VObj 10%nat, h')
             /\ get h' (VObj 10%nat) (KStr "x") = Ret (VNum 2).
Proof. eexists. split; vm_compute; reflexivity. Qed.

(** ** [clone] and the immutability of a prototype *)

Lemma clone_seen_unfold fuel obj options _seen :
  clone_seen (S fuel) obj options _seen =
    (let* ty := pure_read (fun h => typeof h obj) in
     if negb (bool_decide (ty = TObject)) || bool_decide (obj = VNull)
     then ret (obj, _seen)
     else
       match obj with
       | VObj l =>
           let shallow := flag (opt_shallow options) in
           if truthy shallow && negb (strict_eq shallow (VBool true)) then
             let* copy :=
               cloneWithShallow_with
                 (fun v o => let* r := clone_seen fuel v o None in ret r.1)
                 obj options in
             ret (copy, _seen)
           else
             let clone : clone_fn :=
               if truthy shallow then fun v s => ret (v, s)
               else fun v s => clone_seen fuel v options s in
             let seen :=
               if truthy shallow then _seen else Some (default ∅ _seen) in
             match (if truthy shallow then None
                    else match seen with
                         | Some m => m !! l
                         | None => None
                         end) with
             | Some lookup => ret (VObj lookup, seen)
             | None =>
                 let* baseProto := pure_read (fun h => getInternalProto h l) in
                 let* base := clone_base l baseProto options in
                 match base with
                 | inl v => ret (v, seen)
                 | inr newObj =>
                     let seen := fmap (insert l newObj) seen in
                     let* seen :=
                       if bool_decide (baseProto = SetPrototype) then
                         let* vs := pure_read (fun h => set_elements h l) in
                         clone_set_loop clone newObj vs seen
                       else if bool_decide (baseProto = MapPrototype) then
                         let* es := pure_read (fun h => map_entries h l) in
                         clone_map_loop clone newObj es seen
                       else ret seen in
                     let* ks := read (fun h => keys h obj options) in
                     let isArr := bool_decide (baseProto = ArrayPrototype) in
                     let* seen := clone_keys_loop clone l newObj isArr ks seen in
                     (if isArr then
                        let* len := read (fun h => get h obj length_key) in
                        set_prop (VObj newObj) length_key len
                      else ret tt) ;;
                     ret (VObj newObj, seen)
                 end
             end
       | _ => ret (obj, _seen)
       end).
Proof. reflexivity. Qed.

#[global] Opaque clone_seen.

(** C2, as the code has it.  A value that is not an array, a buffer, a
    date or a pattern, and whose prototype has a truthy [isImmutable], is
    returned by [clone] as the same reference, with nothing allocated or
    written, for every options value whose [prototype] is not [false]
    and whose [shallow] is not a list of keys. *)
Theorem clone_immutable_same_reference fuel l p v options h :
  typeof h (VObj l) = TObject ->
  default_branch h l ->
  strict_eq (flag (opt_prototype options)) (VBool false) = false ->
  shallow_keys options = false ->
  proto_of h l = Some p ->
  get h (VObj p) isImmutable_key = Ret v ->
  truthy v = true ->
  clone (S fuel) (VObj l) options h = Ret (VObj l, h).
Proof.
  intros Hty (Hb & Hd & Hr & Ha) Hproto Hsh Hp Hget Hv.
  unfold clone. rewrite clone_seen_unfold. unfold shallow_keys in Hsh.
  cbv zeta. unfold bind at 1. unfold bind at 1. unfold pure_read at 1.
  rewrite Hty. cbn [negb orb bool_decide decide_rel]. 
  replace (bool_decide (TObject = TObject)) with true by reflexivity.
  cbn [negb orb]. replace (bool_decide (VObj l = VNull)) with false by reflexivity.
  rewrite Hsh.
  assert (Hbase : clone_base l (getInternalProto h l) options h = Ret (inl (VObj l), h)).
  { unfold clone_base.
    rewrite !bool_decide_eq_false_2 by assumption.
    rewrite Hproto. cbn [negb]. unfold bind, pure_read, read.
    rewrite Hp, Hget, Hv. reflexivity. }
  destruct (truthy (flag (opt_shallow options))).
  - unfold bind, pure_read. rewrite Hbase. reflexivity.
  - cbn [default]. rewrite lookup_empty.
    unfold bind, pure_read. rewrite Hbase. reflexivity.
Qed.

Lemma clone_immutable_same_reference_witness :
  clone 1 (VObj 11%nat) no_options immutable_heap
    = Ret (VObj 11%nat, immutable_heap).
Proof.
  apply (clone_immutable_same_reference 0%nat 11%nat 10%nat (VBool true)
           no_options immutable_heap);
    try reflexivity.
  repeat split; discriminate.
Defined.

(** C2 as stated fails: with [{ prototype: false }] a record whose
    prototype declares [isImmutable] is copied into a new, plain record. *)
Lemma clone_immutable_counterexample :
  proto_of immutable_heap 11%nat = Some 10%nat
  /\ get immutable_heap (VObj 10%nat) isImmutable_key = Ret (VBool true)
  /\ clone 3 (VObj 11%nat) options_no_prototype immutable_heap
       = Ret (VObj 12%nat,
              immutable_heap ++ [record [("x", VNum 1)]])
  /\ clone 3 (VObj 11%nat) options_no_prototype immutable_heap
       <> Ret (VObj 11%nat, immutable_heap).
Proof. repeat split; try reflexivity. vm_compute. discriminate. Qed.

(** ** [applyToDefaults] *)

Lemma applyToDefaults_falsy_source fuel defaults source options h :
  truthy defaults = true -> typeof h defaults = TObject ->
  truthy source = false ->
  applyToDefaults fuel defaults source options h = Ret (VNull, h).
Proof.
  intros Hd Hty Hs. unfold applyToDefaults, bind, pure_read, assert, ret.
  rewrite Hd, Hty, Hs. reflexivity.
Qed.

Lemma applyToDefaults_true_source fuel defaults options h :
  truthy defaults = true -> typeof h defaults = TObject ->
  truthy (flag (opt_shallow options)) = false ->
  applyToDefaults fuel defaults (VBool true) options h
    = clone fuel defaults no_options h.
Proof.
  intros Hd Hty Hs. unfold applyToDefaults, assert.
  unfold bind at 1 2 3 4. unfold pure_read, ret.
  rewrite Hd, Hty, Hs. rewrite !bool_decide_eq_true_2 by reflexivity. cbn.
  rewrite !bool_decide_eq_true_2 by reflexivity. cbn.
  unfold bind. destruct (clone fuel defaults no_options h) as [[c h']| | |];
    reflexivity.
Qed.

Lemma applyToDefaults_object_source fuel defaults source options h :
  truthy defaults = true -> typeof h defaults = TObject ->
  truthy source = true -> typeof h source = TObject ->
  truthy (flag (opt_shallow options)) = false ->
  applyToDefaults fuel defaults source options h
    = (let* copy := clone fuel defaults no_options in
       merge fuel copy source
         (mkOptions None None None
            (Some (if negb (strict_eq (flag (opt_nullOverride options)) VUndef)
                   then flag (opt_nullOverride options) else VBool false))
            (Some (VBool false)) None None None None)) h.
Proof.
  intros Hd Hty Hs Hsty Hsh.
  assert (Hne : strict_eq source (VBool true) = false).
  { destruct source; try reflexivity.
    unfold typeof in Hsty. discriminate. }
  unfold applyToDefaults, assert, bind, pure_read, ret.
  rewrite Hd, Hty. rewrite !bool_decide_eq_true_2 by reflexivity.
  cbn [andb]. rewrite Hs, Hsty, Hsh, Hne.
  rewrite !bool_decide_eq_true_2 by reflexivity.
  cbn [andb orb negb]. 
  destruct (clone fuel defaults no_options h) as [[c h']| | |]; reflexivity.
Qed.

(** C3, at the input where the code departs from it:
    [applyToDefaults({ x: 1 }, { x: null }, { shallow: ['y'],
    nullOverride: true })] keeps [x: 1], where the same call without
    [shallow] gives [x: null]. *)
Theorem applyToDefaults_shallow_ignores_nullOverride :
  (exists h',
      applyToDefaults 5 (VObj 10%nat) (VObj 11%nat)
        options_shallow_nullOverride defaults_heap = Ret (VObj 13%nat, h')
      /\ get h' (VObj 13%nat) (KStr "x") = Ret (VNum 1))
  /\ (exists h',
        applyToDefaults 5 (VObj 10%nat) (VObj 11%nat)
          options_nullOverride defaults_heap = Ret (VObj 13%nat, h')
        /\ get h' (VObj 13%nat) (KStr "x") = Ret VNull).
Proof. split; eexists; split; vm_compute; reflexivity. Qed.

Example applyToDefaults_keeps_defaults :
  exists c h',
    applyToDefaults 5 (VObj 10%nat) (VObj 11%nat) no_options defaults_heap
      = Ret (VObj c, h')
    /\ get h' (VObj c) (KStr "x") = Ret (VNum 1).
Proof. do 2 eexists. split; vm_compute; reflexivity. Qed.

(** ** Own properties: lookup after update, and the order of keys *)



Lemma lookup_prop_In k p ps : lookup_prop k ps = Some p -> In (k, p) ps.
Proof.
  induction ps as [|[k' p'] ps IH]; simpl; [discriminate|].
  destruct (decide (k = k')) as [->|Hne].
  - intros [= ->]. now left.
  - intros H. right. auto.
Qed.

Lemma lookup_prop_Some_key k p ps : lookup_prop k ps = Some p -> In k (map fst ps).
Proof. intros H. apply lookup_prop_In in H. apply (in_map fst) in H. exact H. Qed.

Lemma lookup_prop_None k ps : lookup_prop k ps = None -> ~ In k (map fst ps).
Proof.
  induction ps as [|[k' p'] ps IH]; simpl; [tauto|].
  destruct (decide (k = k')) as [->|Hne]; [discriminate|].
  intros H [Heq|Hin]; [congruence|]. now apply IH.
Qed.

Lemma insert_index_In n k l x : In x (insert_index n k l) <-> x = (n, k) \/ In x l.
Proof.
  induction l as [|[m k'] l IH]; simpl.
  - intuition.
  - destruct (n <? m)%N; simpl; rewrite ?IH; intuition.
Qed.

Lemma sort_indices_In l x : In x (sort_indices l) <-> In x l.
Proof.
  induction l as [|[n k] l IH]; simpl; [tauto|].
  rewrite insert_index_In, IH. simpl. intuition.
Qed.

Lemma index_entries_In ks n k :
  In (n, k) (index_entries ks) <-> In k ks /\ array_index k = Some n.
Proof.
  unfold index_entries. rewrite <- list_elem_of_In, list_elem_of_omap.
  split.
  - intros (k' & Hin & Heq). apply list_elem_of_In in Hin.
    destruct (array_index k') eqn:E; [|discriminate].
    injection Heq as <- <-. auto.
  - intros [Hin Hidx]. exists k. rewrite list_elem_of_In. split; [exact Hin|].
    now rewrite Hidx.
Qed.

Lemma ordered_keys_In ks k : In k (ordered_keys ks) <-> In k ks.
Proof.
  unfold ordered_keys. rewrite !in_app_iff, in_map_iff, !filter_In. split.
  - intros [([n k'] & Heq & Hin) | [[Hin _] | [Hin _]]]; try exact Hin.
    simpl in Heq. subst. apply sort_indices_In, index_entries_In in Hin. tauto.
  - intros Hin. destruct k as [s|n].
    + destruct (array_index (KStr s)) as [n|] eqn:E.
      * left. exists (n, KStr s). split; [reflexivity|].
        apply sort_indices_In, index_entries_In. auto.
      * right. left. split; [exact Hin|]. unfold is_plain_string_key. now rewrite E.
    + right. right. split; [exact Hin|reflexivity].
Qed.

Lemma own_keys_In o k : In k (own_keys o) <-> In k (map fst (o_props o)).
Proof. apply ordered_keys_In. Qed.

Lemma own_names_In o k :
  In k (own_names o) <-> In k (map fst (o_props o)) /\ is_symbol_key k = false.
Proof.
  unfold own_names. rewrite filter_In, own_keys_In.
  destruct (is_symbol_key k); simpl; intuition discriminate.
Qed.

(** The keys that [internals.keys] lists: the own keys, without the
    symbols when [options.symbols] is [false]. *)
Lemma keys_In h l o options ks k :
  h !! l = Some o ->
  keys h (VObj l) options = Ret ks ->
  In k ks <->
    In k (map fst (o_props o))
    /\ (strict_eq (flag (opt_symbols options)) (VBool false) = false
        \/ is_symbol_key k = false).
Proof.
  intros Hl. unfold keys. rewrite Hl.
  destruct (strict_eq (flag (opt_symbols options)) (VBool false)); simpl;
    intros [= <-].
  - rewrite own_names_In. intuition discriminate.
  - rewrite own_keys_In. intuition.
Qed.

(** ** Reading after writing *)

Lemma get_own_data h l o k v e w c :
  h !! l = Some o ->
  lookup_prop k (o_props o) = Some (PData v e w c) ->
  get h (VObj l) k = Ret v.
Proof.
  intros Hl Hk. unfold get, get_from. simpl. rewrite Hl, Hk. reflexivity.
Qed.


Lemma array_index_length : array_index length_key = None.
Proof. reflexivity. Qed.



(** A write that returns changes the object it was made on, and no
    other. *)
Lemma set_prop_Ret ref k v h u h' :
  set_prop ref k v h = Ret (u, h') ->
  exists l o e c o',
    ref = VObj l /\ h !! l = Some o /\ assign_own o k v e c = Ret o'
    /\ h' = <[l := o']> h.
Proof.
  unfold set_prop. destruct ref; try discriminate.
  destruct (h !! l) as [o|] eqn:Hl; [|discriminate].
  destruct (lookup_prop k (o_props o)) as [[v0 e [] c|g s e c]|] eqn:Hk;
    try discriminate.
  - intros H. apply obind_Ret in H as (o' & Ho' & [= <-]).
    exists l, o, e, c, o'. auto.
  - destruct s; discriminate.
  - intros H. apply obind_Ret in H as (inh & _ & H).
    assert (Hx : (if o_extensible o
                  then let? o' := assign_own o k v true true in Ret ((), <[l:=o']> h)
                  else Throw TypeError) = Ret (u, h')).
    { destruct inh as [[? ? [] ?|? [] ? ?]|]; try discriminate; exact H. }
    destruct (o_extensible o); [|discriminate].
    apply obind_Ret in Hx as (o' & Ho' & [= <-]).
    exists l, o, true, true, o'. auto.
Qed.

Lemma lookup_Some_lt (h : heap) l o : h !! l = Some o -> (l < List.length h)%nat.
Proof. apply lookup_lt_Some. Qed.


(** ** [merge]: the values of a source record that are not objects *)




Example merge_null_overrides_by_default :
  exists h', merge 3 (VObj 10%nat) (VObj 11%nat) no_options defaults_heap
               = Ret (VObj 10%nat, h')
             /\ get h' (VObj 10%nat) (KStr "x") = Ret VNull.
Proof. eexists. split; vm_compute; reflexivity. Qed.

Example merge_null_kept_out :
  merge 3 (VObj 10%nat) (VObj 11%nat) options_no_nullOverride defaults_heap
    = Ret (VObj 10%nat, defaults_heap).
Proof. vm_compute. reflexivity. Qed.

(** ** What the writes touch *)

Lemma alloc_Ret o h l h' :
  alloc o h = Ret (l, h') -> l = List.length h /\ h' = h ++ [o].
Proof. unfold alloc. intros [= <- <-]. auto. Qed.

Lemma define_property_Ret l k p h u h' :
  define_property l k p h = Ret (u, h') ->
  exists o o',
    h !! l = Some o
    /\ bump_length k (with_props o (update_prop k p (o_props o))) = Ret o'
    /\ h' = <[l := o']> h.
Proof.
  unfold define_property. destruct (h !! l) as [o|]; [|discriminate].
  intros H.
  assert (Hd : (let? o' := bump_length k (with_props o (update_prop k p (o_props o))) in
                Ret ((), <[l:=o']> h)) = Ret (u, h')).
  { destruct (lookup_prop k (o_props o)) as [cur|].
    - destruct (prop_configurable cur); [exact H|discriminate].
    - destruct (o_extensible o); [exact H|discriminate]. }
  apply obind_Ret in Hd as (o' & Hb & [= <-]). eauto.
Qed.

Lemma set_add_Ret l v h u h' :
  set_add l v h = Ret (u, h') -> exists o', h' = <[l := o']> h.
Proof.
  unfold set_add. destruct (h !! l) as [o|] eqn:Hl; [|discriminate].
  destruct (o_kind o); try discriminate.
  destruct (existsb (same_value_zero v) elements).
  - intros H. injection H as _ <-. exists o. symmetry. now apply list_insert_id.
  - intros H. injection H as _ <-. eauto.
Qed.

Lemma map_set_Ret l k v h u h' :
  map_set l k v h = Ret (u, h') -> exists o', h' = <[l := o']> h.
Proof.
  unfold map_set. destruct (h !! l) as [o|] eqn:Hl; [|discriminate].
  destruct (o_kind o); try discriminate.
  intros H. injection H as _ <-. eauto.
Qed.

Lemma set_prop_writes ref k v h u h' :
  set_prop ref k v h = Ret (u, h') ->
  exists l o', ref = VObj l /\ h' = <[l := o']> h.
Proof.
  intros H. apply set_prop_Ret in H as (l & o & e & c & o' & -> & _ & _ & ->).
  eauto.
Qed.

Lemma prefix_insert_ge (h hi : heap) l o :
  h `prefix_of` hi -> (List.length h <= l)%nat -> h `prefix_of` <[l := o]> hi.
Proof.
  intros [ext ->] Hle. rewrite insert_app_r_alt by exact Hle.
  now apply prefix_app_r.
Qed.

Lemma prefix_lookup (h h' : heap) l :
  h `prefix_of` h' -> (l < List.length h)%nat -> h' !! l = h !! l.
Proof. intros Hp Hl. symmetry. now apply prefix_lookup_lt. Qed.

(** What [clone_base] does to the heap: nothing, or one allocation. *)
Lemma clone_base_Ret l baseProto options h b h' :
  clone_base l baseProto options h = Ret (b, h') ->
  (b = inl (VObj l) /\ h' = h)
  \/ (exists o, h' = h ++ [o]
                /\ (b = inr (List.length h)
                    \/ (b = inl (VObj (List.length h))
                        /\ (baseProto = BufferPrototype
                            \/ baseProto = DatePrototype
                            \/ baseProto = RegExpPrototype)))).
Proof.
  unfold clone_base. intros H.
  assert (Hleaf : forall (c : kind) (p : loc) ps (h0 : heap) b0 h0',
             (let* n := alloc (mkObj c (Some p) true ps) in ret (inl (VObj n))) h0
               = Ret (b0 : value + loc, h0') ->
             exists o, h0' = h0 ++ [o] /\ b0 = inl (VObj (List.length h0))).
  { intros c p ps h0 b0 h0' H0. inv_run H0. inv_run H0.
    apply alloc_Ret in Hrun as [-> ->]. eauto. }
  assert (Hnew : forall (o : obj) (h0 : heap) b0 h0',
             (let* n := alloc o in ret (inr n)) h0 = Ret (b0 : value + loc, h0') ->
             exists o, h0' = h0 ++ [o] /\ b0 = inr (List.length h0)).
  { intros o h0 b0 h0' H0. inv_run H0. inv_run H0.
    apply alloc_Ret in Hrun as [-> ->]. eauto. }
  destruct (bool_decide (baseProto = BufferPrototype)) eqn:E1.
  { apply bool_decide_eq_true in E1. inv_run H.
    apply Hleaf in H as (o & -> & ->). right. eauto 10. }
  destruct (bool_decide (baseProto = DatePrototype)) eqn:E2.
  { apply bool_decide_eq_true in E2. inv_run H.
    apply Hleaf in H as (o & -> & ->). right. eauto 10. }
  destruct (bool_decide (baseProto = RegExpPrototype)) eqn:E3.
  { apply bool_decide_eq_true in E3. inv_run H.
    apply Hleaf in H as (o & -> & ->). right. eauto 10. }
  destruct (bool_decide (baseProto = ArrayPrototype)) eqn:E4.
  { apply Hnew in H as (o & -> & ->). right. eauto. }
  destruct (strict_eq (flag (opt_prototype options)) (VBool false)); cbn [negb] in H.
  { destruct (needsProtoHack baseProto);
      apply Hnew in H as (o & -> & ->); right; eauto. }
  inv_run H. apply bind_Ret in H as (imm & h1 & Himm & H).
  assert (h1 = h) as ->.
  { destruct (proto_of h l); inv_run Himm; reflexivity. }
  destruct (truthy imm).
  { inv_run H. left. auto. }
  destruct (needsProtoHack baseProto).
  - destruct (proto_of h l); [|discriminate].
    apply Hnew in H as (o & -> & ->). right. eauto.
  - apply Hnew in H as (o & -> & ->). right. eauto.
Qed.

(** ** [clone] without [shallow] only adds to the heap and to [seen] *)

Section CloneLoopsFrame.

Variable clone : clone_fn.
Hypothesis clone_ok : clone_frames clone.
Variable newObj : loc.

Lemma clone_set_loop_frame vs :
  forall (s : seen_map) (h0 h : heap) s' h',
    h0 `prefix_of` h -> (List.length h0 <= newObj)%nat ->
    clone_set_loop clone newObj vs (Some s) h = Ret (s', h') ->
    h0 `prefix_of` h' /\ exists s2 : seen_map, s' = Some s2 /\ s ⊆ s2.
Proof.
  induction vs as [|v vs IH]; intros s h0 h s' h' Hp Hn H; simpl in H.
  - inv_run H. eauto.
  - inv_run H. apply clone_ok in Hrun as (Hp1 & s1 & Hs1 & Hsub).
    inv_run H. apply set_add_Ret in Hrun as (o' & ->).
    rewrite Hs1 in H.
    eapply IH in H as (Hp2 & s2 & -> & Hsub2); [| |exact Hn].
    + split; [exact Hp2|]. exists s2. split; [reflexivity|].
      etransitivity; eauto.
    + apply prefix_insert_ge; [|exact Hn]. etransitivity; eauto.
Qed.

Lemma clone_map_loop_frame es :
  forall (s : seen_map) (h0 h : heap) s' h',
    h0 `prefix_of` h -> (List.length h0 <= newObj)%nat ->
    clone_map_loop clone newObj es (Some s) h = Ret (s', h') ->
    h0 `prefix_of` h' /\ exists s2 : seen_map, s' = Some s2 /\ s ⊆ s2.
Proof.
  induction es as [|[k v] es IH]; intros s h0 h s' h' Hp Hn H; simpl in H.
  - inv_run H. eauto.
  - inv_run H. apply clone_ok in Hrun as (Hp1 & s1 & Hs1 & Hsub).
    inv_run H. apply map_set_Ret in Hrun as (o' & ->).
    rewrite Hs1 in H.
    eapply IH in H as (Hp2 & s2 & -> & Hsub2); [| |exact Hn].
    + split; [exact Hp2|]. exists s2. split; [reflexivity|].
      etransitivity; eauto.
    + apply prefix_insert_ge; [|exact Hn]. etransitivity; eauto.
Qed.

Lemma clone_keys_loop_frame obj isArr ks :
  forall (s : seen_map) (h0 h : heap) s' h',
    h0 `prefix_of` h -> (List.length h0 <= newObj)%nat ->
    clone_keys_loop clone obj newObj isArr ks (Some s) h = Ret (s', h') ->
    h0 `prefix_of` h' /\ exists s2 : seen_map, s' = Some s2 /\ s ⊆ s2.
Proof.
  induction ks as [|k ks IH]; intros s h0 h s' h' Hp Hn H; simpl in H.
  - inv_run H. eauto.
  - destruct (isArr && bool_decide (k = length_key)).
    { eapply IH; eauto. }
    inv_run H. destruct (has_accessor _).
    + inv_run H.
      assert (Hp1 : h0 `prefix_of` h1).
      { destruct (get_own _ obj k).
        - apply define_property_Ret in Hrun as (o & o' & _ & _ & ->).
          now apply prefix_insert_ge.
        - inv_run Hrun. exact Hp. }
      eapply IH; eauto.
    + inv_run H. inv_run H.
      apply clone_ok in Hrun0 as (Hp1 & s1 & Hs1 & Hsub).
      inv_run H. apply define_property_Ret in Hrun0 as (o & o' & _ & _ & ->).
      rewrite Hs1 in H.
      eapply IH in H as (Hp2 & s2 & -> & Hsub2); [| |exact Hn].
      * split; [exact Hp2|]. exists s2. split; [reflexivity|].
        etransitivity; eauto.
      * apply prefix_insert_ge; [|exact Hn]. etransitivity; eauto.
Qed.

End CloneLoopsFrame.

Lemma typeof_not_object_cases h obj :
  negb (bool_decide (typeof h obj = TObject)) || bool_decide (obj = VNull) = false ->
  exists l, obj = VObj l /\ typeof h obj = TObject.
Proof.
  intros H. apply orb_false_iff in H as [H1 H2].
  apply negb_false_iff, bool_decide_eq_true in H1.
  apply bool_decide_eq_false in H2.
  destruct obj; try discriminate; try congruence. eauto.
Qed.

Lemma clone_seen_frames fuel options :
  truthy (flag (opt_shallow options)) = false ->
  clone_frames (fun v s => clone_seen fuel v options s).
Proof.
  intros Hsh. induction fuel as [|fuel IH]; intros v s h r h' H.
  - discriminate H.
  - rewrite clone_seen_unfold in H. inv_run H.
    destruct (negb (bool_decide (typeof h v = TObject)) || bool_decide (v = VNull))
      eqn:Hty.
    { inv_run H. split; [reflexivity|]. exists s. auto. }
    apply typeof_not_object_cases in Hty as (l & -> & Hty).
    cbv zeta in H. rewrite Hsh in H. cbn [andb] in H.
    change (default ∅ (Some s)) with s in H.
    destruct (s !! l) as [t|] eqn:Hseen.
    { inv_run H. split; [reflexivity|]. exists s. auto. }
    inv_run H.
    apply bind_Ret in H as (base & h1 & Hbase & H).
    apply clone_base_Ret in Hbase
      as [[-> ->] | (o & -> & [-> | [-> _]])].
    + inv_run H. split; [reflexivity|]. exists s. auto.
    + cbn [fmap option_fmap option_map] in H.
      assert (Hsub1 : s ⊆ <[l := List.length h]> s) by (now apply insert_subseteq).
      apply bind_Ret in H as (sa & ha & Hloops & H).
      assert (Hl : h `prefix_of` ha
                   /\ exists s1 : seen_map, sa = Some s1 /\ s ⊆ s1).
      { destruct (bool_decide (getInternalProto h l = SetPrototype)).
        - inv_run Hloops.
          eapply clone_set_loop_frame in Hloops as (Hp & s1 & -> & Hs1);
            [| exact IH | apply prefix_app_r; reflexivity | lia].
          split; [exact Hp|]. exists s1. split; [reflexivity|].
          etransitivity; eauto.
        - destruct (bool_decide (getInternalProto h l = MapPrototype)).
          + inv_run Hloops.
            eapply clone_map_loop_frame in Hloops as (Hp & s1 & -> & Hs1);
              [| exact IH | apply prefix_app_r; reflexivity | lia].
            split; [exact Hp|]. exists s1. split; [reflexivity|].
            etransitivity; eauto.
          + inv_run Hloops. split; [apply prefix_app_r; reflexivity|]. eauto. }
      destruct Hl as (Hp1 & s1 & -> & Hs1).
      inv_run H.
      apply bind_Ret in H as (sb & hb & Hkeys & H).
      eapply clone_keys_loop_frame in Hkeys as (Hp2 & s2 & -> & Hs2);
        [| exact IH | exact Hp1 | lia].
      apply bind_Ret in H as (u & hc & Hlen & H).
      assert (Hp3 : h `prefix_of` hc).
      { destruct (bool_decide (getInternalProto h l = ArrayPrototype)).
        - inv_run Hlen. apply set_prop_writes in Hlen as (l' & o' & [= <-] & ->).
          apply prefix_insert_ge; [exact Hp2|lia].
        - inv_run Hlen. exact Hp2. }
      inv_run H. split; [exact Hp3|]. exists s2. split; [reflexivity|].
      etransitivity; eauto.
    + inv_run H. split; [apply prefix_app_r; reflexivity|]. eauto.
Qed.

(** ** The run of [clone] on a reference it has not seen *)

Lemma clone_seen_revisit fuel l t (s : seen_map) options h :
  truthy (flag (opt_shallow options)) = false ->
  typeof h (VObj l) = TObject ->
  s !! l = Some t ->
  clone_seen (S fuel) (VObj l) options (Some s) h = Ret ((VObj t, Some s), h).
Proof.
  intros Hsh Hty Hs. rewrite clone_seen_unfold.
  unfold bind at 1. unfold pure_read at 1. rewrite Hty.
  rewrite bool_decide_eq_true_2 by reflexivity.
  rewrite bool_decide_eq_false_2 by discriminate.
  cbv zeta. rewrite Hsh. cbn [negb orb andb].
  change (default ∅ (Some s)) with s. rewrite Hs. reflexivity.
Qed.

Lemma clone_seen_build fuel l (s : seen_map) options h r h' :
  truthy (flag (opt_shallow options)) = false ->
  typeof h (VObj l) = TObject ->
  s !! l = None ->
  clone_seen (S fuel) (VObj l) options (Some s) h = Ret (r, h') ->
  exists base h1,
    clone_base l (getInternalProto h l) options h = Ret (base, h1)
    /\ match base with
       | inl v => r = (v, Some s) /\ h' = h1
       | inr newObj =>
           exists sa ha ks sb hb,
             clone_entries (fun v s => clone_seen fuel v options s) l newObj
               (getInternalProto h l) (Some (<[l := newObj]> s)) h1
               = Ret (sa, ha)
             /\ keys ha (VObj l) options = Ret ks
             /\ clone_keys_loop (fun v s => clone_seen fuel v options s) l newObj
                  (bool_decide (getInternalProto h l = ArrayPrototype)) ks sa ha
                  = Ret (sb, hb)
             /\ clone_length l newObj (getInternalProto h l) hb = Ret (tt, h')
             /\ r = (VObj newObj, sb)
       end.
Proof.
  intros Hsh Hty Hs H. rewrite clone_seen_unfold in H. inv_run H.
  rewrite Hty in H. rewrite bool_decide_eq_true_2 in H by reflexivity.
  rewrite bool_decide_eq_false_2 in H by discriminate.
  cbv zeta in H. rewrite Hsh in H. cbn [negb orb andb] in H.
  change (default ∅ (Some s)) with s in H. rewrite Hs in H.
  inv_run H. apply bind_Ret in H as (base & h1 & Hbase & H).
  exists base, h1. split; [exact Hbase|].
  destruct base as [v|newObj].
  - inv_run H. auto.
  - cbn [fmap option_fmap option_map] in H.
    apply bind_Ret in H as (sa & ha & Hent & H).
    inv_run H. apply bind_Ret in H as (sb & hb & Hkeys & H).
    apply bind_Ret in H as ([] & hc & Hlen & H).
    inv_run H. exists sa, ha, a, sb, hb. auto.
Qed.

Section CloneEntriesFrame.

Variable clone : clone_fn.
Hypothesis clone_ok : clone_frames clone.


End CloneEntriesFrame.

Lemma clone_length_frame l newObj baseProto (h0 h : heap) u h' :
  h0 `prefix_of` h -> (List.length h0 <= newObj)%nat ->
  clone_length l newObj baseProto h = Ret (u, h') ->
  h0 `prefix_of` h'.
Proof.
  intros Hp Hn H. unfold clone_length in H.
  destruct (bool_decide (baseProto = ArrayPrototype)).
  - inv_run H. apply set_prop_writes in H as (l' & o' & [= <-] & ->).
    now apply prefix_insert_ge.
  - inv_run H. exact Hp.
Qed.


(** ** A self-reference in the source is a self-reference in the copy *)





Section SelfReference.

Variable clone : clone_fn.
Variables (h : heap) (l newObj : loc) (o : obj) (k : key) (e w c : bool).

Hypothesis clone_ok : clone_frames clone.
Hypothesis clone_revisits :
  forall (s : seen_map) hi r h',
    typeof hi (VObj l) = TObject -> s !! l = Some newObj ->
    clone (VObj l) (Some s) hi = Ret (r, h') ->
    r = (VObj newObj, Some s) /\ h' = hi.
Hypothesis source : h !! l = Some o.
Hypothesis source_type : typeof h (VObj l) = TObject.
Hypothesis self : lookup_prop k (o_props o) = Some (PData (VObj l) e w c).
Hypothesis not_length : k <> length_key.
Hypothesis fresh : (List.length h <= newObj)%nat.



End SelfReference.

Lemma clone_seen_None fuel l options h :
  truthy (flag (opt_shallow options)) = false ->
  typeof h (VObj l) = TObject ->
  clone_seen fuel (VObj l) options None h
    = clone_seen fuel (VObj l) options (Some ∅) h.
Proof.
  intros Hsh Hty. destruct fuel as [|fuel]; [reflexivity|].
  rewrite !clone_seen_unfold. unfold bind, pure_read.
  rewrite Hty. rewrite !bool_decide_eq_true_2 by reflexivity.
  rewrite !bool_decide_eq_false_2 by discriminate.
  cbv zeta. rewrite Hsh. reflexivity.
Qed.




(** ** Array indices and their decimal spelling *)

Lemma array_index_key n : (n < max_index)%N -> array_index (index_key n) = Some n.
Proof.
  intros Hn. unfold array_index, index_key, string_of_N.
  rewrite NilZero.usu.
  - rewrite DecimalN.Unsigned.of_to. rewrite String.eqb_refl.
    apply N.ltb_lt in Hn. now rewrite Hn.
  - destruct n; simpl; [discriminate|].
    apply DecimalPos.Unsigned.to_uint_nonnil.
Qed.

Lemma index_key_not_length n : index_key n <> length_key.
Proof.
  unfold index_key, length_key, string_of_N. intros H. injection H as H.
  apply (f_equal NilZero.uint_of_string) in H.
  rewrite NilZero.usu in H.
  - discriminate H.
  - destruct n; simpl; [discriminate|]. apply DecimalPos.Unsigned.to_uint_nonnil.
Qed.

Lemma index_key_inj a b : index_key a = index_key b -> a = b.
Proof.
  unfold index_key, string_of_N. intros H. injection H as H.
  apply (f_equal NilZero.uint_of_string) in H.
  assert (Hnn : forall n, N.to_uint n <> Decimal.Nil).
  { intros n. destruct n; simpl; [discriminate|].
    apply DecimalPos.Unsigned.to_uint_nonnil. }
  rewrite !NilZero.usu in H by apply Hnn.
  injection H as H. now apply DecimalN.Unsigned.to_uint_inj.
Qed.


(** ** Writing into an array *)



Lemma bump_length_kind k o o' : bump_length k o = Ret o' -> o_kind o' = o_kind o.
Proof.
  unfold bump_length. intros H.
  destruct (o_kind o) eqn:Hk; try (injection H as <-; exact Hk).
  destruct (array_index k); try (injection H as <-; exact Hk).
  destruct (n <? array_length o)%N; try (injection H as <-; exact Hk).
  destruct (lookup_prop length_key (o_props o)) as [[? ? [] ?|]|]; try discriminate.
  injection H as <-. exact Hk.
Qed.





(** ** [merge] with an array as source *)

Lemma clone_frame fuel v options h c h' :
  truthy (flag (opt_shallow options)) = false ->
  clone fuel v options h = Ret (c, h') -> h `prefix_of` h'.
Proof.
  intros Hsh H. unfold clone in H. apply bind_Ret in H as (r & h1 & H & Hret).
  inv_run Hret.
  destruct (negb (bool_decide (typeof h v = TObject)) || bool_decide (v = VNull))
    eqn:Hty.
  - destruct fuel as [|fuel]; [discriminate H|].
    rewrite clone_seen_unfold in H. inv_run H. rewrite Hty in H.
    inv_run H. reflexivity.
  - apply typeof_not_object_cases in Hty as (l & -> & Hty).
    rewrite clone_seen_None in H by assumption.
    now apply (clone_seen_frames fuel options Hsh) in H.
Qed.

Section MergeArrayLoop.

Variable cl : value -> M value.
Hypothesis cl_frame : forall v h c h', cl v h = Ret (c, h') -> h `prefix_of` h'.

Variables (hB : heap) (t s : loc) (os : obj) (base m : Z) (e w c : bool).

Hypothesis distinct : s <> t.
Hypothesis source_kind : o_kind os = KArray.
Hypothesis source_length :
  lookup_prop length_key (o_props os) = Some (PData (VNum m) e w c).
Hypothesis base_pos : 0 <= base.


End MergeArrayLoop.



(** The examples of the specification: [merge({ a: [1] }, { a: [2] })]
    gives [{ a: [1, 2] }], and [{ a: [2] }] with [mergeArrays: false]. *)
Example merge_arrays_append :
  exists h',
    merge 5 (VObj 10%nat) (VObj 12%nat) no_options arrays_heap
      = Ret (VObj 10%nat, h')
    /\ get h' (VObj 10%nat) (KStr "a") = Ret (VObj 11%nat)
    /\ elements_of h' (VObj 11%nat) = Ret [VNum 1; VNum 2].
Proof. eexists. repeat split; vm_compute; reflexivity. Qed.

Example merge_arrays_replace :
  exists h',
    merge 5 (VObj 10%nat) (VObj 12%nat) options_no_mergeArrays arrays_heap
      = Ret (VObj 10%nat, h')
    /\ get h' (VObj 10%nat) (KStr "a") = Ret (VObj 11%nat)
    /\ elements_of h' (VObj 11%nat) = Ret [VNum 2].
Proof. eexists. repeat split; vm_compute; reflexivity. Qed.

(** ** [merge] and [clone] stay out of a protected region *)

Section ProtectedFacts.

Variable P : loc -> Prop.
Variable h0 : heap.
Hypothesis ok : protected_ok P h0.

Lemma protected_same_refl : protected_same P h0 h0.
Proof. split; auto. Qed.

Lemma protected_fresh h l :
  protected_same P h0 h -> (List.length h <= l)%nat -> ~ P l.
Proof.
  intros [Hlen _] Hl HP. destruct ok as (Hdom & _). apply Hdom in HP. lia.
Qed.

Lemma protected_same_insert h l o :
  protected_same P h0 h -> ~ P l -> protected_same P h0 (<[l := o]> h).
Proof.
  intros [Hlen Hsame] Hl. split.
  - now rewrite length_insert.
  - intros x Hx. rewrite list_lookup_insert_ne; [now apply Hsame|congruence].
Qed.

Lemma protected_same_alloc h o :
  protected_same P h0 h -> protected_same P h0 (h ++ [o]).
Proof.
  intros [Hlen Hsame]. split.
  - rewrite length_app. lia.
  - intros x Hx. rewrite lookup_app_l; [now apply Hsame|].
    destruct ok as (Hdom & _). apply Hdom in Hx. lia.
Qed.

Lemma protected_same_prefix h h' :
  protected_same P h0 h -> h `prefix_of` h' -> protected_same P h0 h'.
Proof.
  intros [Hlen Hsame] Hp. split.
  - apply prefix_length in Hp. lia.
  - intros x Hx. rewrite <- (Hsame x Hx). apply prefix_lookup; [exact Hp|].
    destruct ok as (Hdom & _). apply Hdom in Hx. lia.
Qed.

(** A protected object is an object, not a function, exactly as in
    [h0]. *)
Lemma protected_is_function h x :
  protected_same P h0 h -> P x -> is_function h x = is_function h0 x.
Proof. intros [_ Hsame] Hx. unfold is_function. now rewrite Hsame. Qed.

Lemma outside_object_not_protected h v x :
  protected_same P h0 h -> outside P h0 v -> v = VObj x ->
  typeof h v = TObject -> ~ P x.
Proof.
  intros Hs Hout -> Hty Hx. specialize (Hout x eq_refl Hx).
  unfold typeof in Hty. rewrite (protected_is_function h x Hs Hx), Hout in Hty.
  discriminate.
Qed.

Lemma outside_not_object h v :
  protected_same P h0 h ->
  truthy v && bool_decide (typeof h v = TObject) = false -> outside P h0 v.
Proof.
  intros Hs Hv x -> Hx. cbn [truthy andb] in Hv.
  apply bool_decide_eq_false in Hv. unfold typeof in Hv.
  rewrite (protected_is_function h x Hs Hx) in Hv.
  destruct (is_function h0 x); [reflexivity|congruence].
Qed.

(** *** Reads *)

Lemma lookup_chain_owner n h l k p :
  lookup_chain n h l k = Ret (Some p) ->
  exists l' o', h !! l' = Some o' /\ In (k, p) (o_props o')
                /\ (l' = l \/ template h l').
Proof.
  revert l. induction n as [|n IH]; intros l H; [discriminate|]. simpl in H.
  destruct (h !! l) as [o|] eqn:Hl; [|discriminate].
  destruct (lookup_prop k (o_props o)) as [q|] eqn:Hk.
  - injection H as ->. exists l, o. split; [exact Hl|]. split; [|now left].
    now apply lookup_prop_In.
  - destruct (o_proto o) as [pr|] eqn:Hp; [|discriminate].
    apply IH in H as (l' & o' & Hl' & Hin & Hor).
    exists l', o'. split; [exact Hl'|]. split; [exact Hin|]. right.
    destruct Hor as [->|Ht]; [|exact Ht]. right. eauto.
Qed.

(** What is read from an object outside the region may be stored
    outside the region. *)
Lemma get_outside h l k v :
  guarded P h0 h -> ~ P l -> get h (VObj l) k = Ret v -> outside P h0 v.
Proof.
  intros Hg Hl H. unfold get, get_from in H.
  apply obind_Ret in H as (p & Hp & Hv).
  destruct p as [[v0 e w c|g s e c]|].
  - injection Hv as <-. apply lookup_chain_owner in Hp as (l' & o' & Hl' & Hin & Hor).
    eapply (Hg l' o' Hl'); [|exact Hin].
    destruct Hor as [->|Ht]; auto.
  - destruct g; try discriminate. injection Hv as <-. intros x Hx. discriminate.
  - injection Hv as <-. intros x Hx. discriminate.
Qed.

(** A read that starts in the region stays in it, so it gives what it
    gave in [h0]. *)
Lemma lookup_chain_protected h k n :
  protected_same P h0 h ->
  forall m l x, P l -> (n <= m)%nat ->
    lookup_chain n h0 l k = Ret x -> lookup_chain m h l k = Ret x.
Proof.
  intros [_ Hsame]. induction n as [|n IH]; intros m l x Hl Hnm H; [discriminate|].
  destruct m as [|m]; [lia|]. simpl in *. rewrite (Hsame l Hl).
  destruct (h0 !! l) as [o|] eqn:Ho; [|exact H].
  destruct (lookup_prop k (o_props o)); [exact H|].
  destruct (o_proto o) as [p|] eqn:Hp; [|exact H].
  apply IH; [|lia|exact H]. destruct ok as (_ & Hclosed & _). eauto.
Qed.

Lemma get_protected h l k v :
  protected_same P h0 h -> P l ->
  get h0 (VObj l) k = Ret v -> get h (VObj l) k = Ret v.
Proof.
  intros Hs Hl H. unfold get, get_from in *.
  apply obind_Ret in H as (p & Hp & Hv).
  erewrite lookup_chain_protected; [exact Hv|exact Hs|exact Hl| |exact Hp].
  destruct Hs as [Hlen _]. lia.
Qed.

(** A protected object does not pass the test of immutability. *)
Lemma protected_not_immutable h l p v :
  protected_same P h0 h -> P l -> proto_of h l = Some p ->
  get h (VObj p) isImmutable_key = Ret v -> truthy v = false.
Proof.
  intros Hs Hl Hp Hget. destruct ok as (_ & Hclosed & Himm).
  unfold proto_of in Hp. rewrite (proj2 Hs l Hl) in Hp.
  destruct (h0 !! l) as [o|] eqn:Ho; [|discriminate].
  destruct (Himm l o p Hl Ho Hp) as (v' & Hv' & Hf).
  rewrite (get_protected h p _ v' Hs (Hclosed l o p Hl Ho Hp) Hv') in Hget.
  now injection Hget as <-.
Qed.

(** *** Writes and allocations outside the region *)

Lemma template_insert h l o o' x :
  h !! l = Some o -> o_proto o' = o_proto o ->
  template (<[l := o']> h) x -> template h x.
Proof.
  intros Hl Hproto [Hi|(l' & ol & Hl' & Hp)]; [now left|]. right.
  destruct (decide (l' = l)) as [->|Hne].
  - rewrite list_lookup_insert_eq in Hl' by (eapply lookup_Some_lt; eauto).
    injection Hl' as <-. exists l, o. split; [exact Hl|congruence].
  - rewrite list_lookup_insert_ne in Hl' by congruence. eauto.
Qed.

Lemma guarded_insert h l o o' :
  guarded P h0 h -> h !! l = Some o -> o_proto o' = o_proto o ->
  good P h0 o' -> guarded P h0 (<[l := o']> h).
Proof.
  intros Hg Hl Hproto Hgood x ox Hx Hor.
  destruct (decide (x = l)) as [->|Hne].
  - rewrite list_lookup_insert_eq in Hx by (eapply lookup_Some_lt; eauto).
    injection Hx as <-. exact Hgood.
  - rewrite list_lookup_insert_ne in Hx by congruence.
    apply (Hg x ox Hx). destruct Hor as [Hn|Ht]; [now left|right].
    exact (template_insert h l o o' x Hl Hproto Ht).
Qed.

Lemma guarded_alloc h o :
  guarded P h0 h -> good P h0 o ->
  (forall p, o_proto o = Some p -> template h p) ->
  guarded P h0 (h ++ [o]).
Proof.
  intros Hg Hgood Hproto x ox Hx Hor.
  destruct (decide (x < List.length h)%nat) as [Hlt|Hge].
  - rewrite lookup_app_l in Hx by exact Hlt. apply (Hg x ox Hx).
    destruct Hor as [Hn|[Hi|(l' & ol & Hl' & Hp)]]; [now left|right; now left|].
    right. destruct (decide (l' < List.length h)%nat) as [Hlt'|Hge'].
    + rewrite lookup_app_l in Hl' by exact Hlt'. right. eauto.
    + rewrite lookup_app_r in Hl' by lia.
      destruct (l' - List.length h)%nat; [|discriminate].
      injection Hl' as <-. now apply Hproto.
  - rewrite lookup_app_r in Hx by lia.
    destruct (x - List.length h)%nat as [|[|?]]; try discriminate.
    injection Hx as <-. exact Hgood.
Qed.

Lemma good_update o k v e w c :
  good P h0 o -> outside P h0 v ->
  good P h0 (with_props o (update_prop k (PData v e w c) (o_props o))).
Proof.
  intros Hgood Hout k' v' e' w' c' Hin. simpl in Hin.
  assert (Hup : forall ps x, In x (update_prop k (PData v e w c) ps) ->
                             x = (k, PData v e w c) \/ In x ps).
  { induction ps as [|[k0 p0] ps IH]; simpl; intros x Hx.
    - destruct Hx as [<-|[]]. now left.
    - destruct (decide (k = k0)); simpl in Hx.
      + destruct Hx as [<-|Hx]; auto.
      + destruct Hx as [<-|Hx]; auto. apply IH in Hx. tauto. }
  apply Hup in Hin as [[= <- <- <- <- <-]|Hin]; [exact Hout|].
  eapply Hgood; eauto.
Qed.

Lemma outside_number n : outside P h0 (VNum n).
Proof. intros x Hx. discriminate. Qed.

Lemma good_bump_length k o o' :
  good P h0 o -> bump_length k o = Ret o' -> good P h0 o'.
Proof.
  unfold bump_length. intros Hgood H.
  destruct (o_kind o); try (injection H as <-; exact Hgood).
  destruct (array_index k); try (injection H as <-; exact Hgood).
  destruct (n <? array_length o)%N; try (injection H as <-; exact Hgood).
  destruct (lookup_prop length_key (o_props o)) as [[? ? [] ?|]|]; try discriminate.
  injection H as <-. apply good_update; [exact Hgood|apply outside_number].
Qed.

Lemma good_filter o (f : key * prop -> bool) :
  good P h0 o -> good P h0 (with_props o (List.filter f (o_props o))).
Proof.
  intros Hgood k v e w c Hin. simpl in Hin. apply filter_In in Hin as [Hin _].
  eapply Hgood; eauto.
Qed.

Lemma good_assign_own o k v e c o' :
  good P h0 o -> outside P h0 v -> assign_own o k v e c = Ret o' -> good P h0 o'.
Proof.
  intros Hgood Hout H. unfold assign_own in H.
  destruct (bool_decide (o_kind o = KArray) && bool_decide (k = length_key)).
  - apply obind_Ret in H as (n & _ & H). unfold set_array_length in H.
    destruct (forallb _ _); [|discriminate]. injection H as <-.
    apply (good_update (with_props o (List.filter _ (o_props o)))).
    + apply good_filter. exact Hgood.
    + apply outside_number.
  - eapply good_bump_length; [|exact H]. now apply good_update.
Qed.

Lemma assign_own_proto o k v e c o' :
  assign_own o k v e c = Ret o' -> o_proto o' = o_proto o.
Proof.
  unfold assign_own.
  destruct (bool_decide (o_kind o = KArray) && bool_decide (k = length_key)).
  - intros H. apply obind_Ret in H as (n & _ & H). unfold set_array_length in H.
    destruct (forallb _ _); [|discriminate]. now injection H as <-.
  - unfold bump_length. cbn [o_kind with_props].
    destruct (o_kind o); try (intros [= <-]; reflexivity).
    destruct (array_index k); try (intros [= <-]; reflexivity).
    destruct (N.ltb _ _); try (intros [= <-]; reflexivity).
    destruct (lookup_prop length_key _) as [[? ? [] ?|]|]; try discriminate.
    intros [= <-]. reflexivity.
Qed.

(** An assignment to an object outside the region, of a value that may
    be stored there. *)
Lemma set_prop_guarded h l k v u h' :
  protected_same P h0 h -> guarded P h0 h -> ~ P l -> outside P h0 v ->
  set_prop (VObj l) k v h = Ret (u, h') ->
  protected_same P h0 h' /\ guarded P h0 h'.
Proof.
  intros Hs Hg Hl Hout H.
  apply set_prop_Ret in H as (l' & o & e & c & o' & [= <-] & Ho & Ha & ->).
  split; [now apply protected_same_insert|].
  eapply guarded_insert; eauto.
  - eapply assign_own_proto; eauto.
  - eapply good_assign_own; [|exact Hout|exact Ha]. apply (Hg l o Ho). now left.
Qed.

End ProtectedFacts.

Section CloneGuards.

Variable P : loc -> Prop.
Variable h0 : heap.
Hypothesis ok : protected_ok P h0.

Lemma good_update_prop o k p :
  good P h0 o ->
  (forall v e w c, p = PData v e w c -> outside P h0 v) ->
  good P h0 (with_props o (update_prop k p (o_props o))).
Proof.
  intros Hgood Hp k' v' e' w' c' Hin. simpl in Hin.
  assert (Hup : forall ps x, In x (update_prop k p ps) -> x = (k, p) \/ In x ps).
  { induction ps as [|[k0 p0] ps IH]; simpl; intros x Hx.
    - destruct Hx as [<-|[]]. now left.
    - destruct (decide (k = k0)); simpl in Hx.
      + destruct Hx as [<-|Hx]; auto.
      + destruct Hx as [<-|Hx]; auto. apply IH in Hx. tauto. }
  apply Hup in Hin as [[= <- <-]|Hin]; [eapply Hp; eauto|].
  eapply Hgood; eauto.
Qed.

Lemma bump_length_proto k o o' : bump_length k o = Ret o' -> o_proto o' = o_proto o.
Proof.
  unfold bump_length. intros H.
  destruct (o_kind o); try (injection H as <-; reflexivity).
  destruct (array_index k); try (injection H as <-; reflexivity).
  destruct (n <? array_length o)%N; try (injection H as <-; reflexivity).
  destruct (lookup_prop length_key (o_props o)) as [[? ? [] ?|]|]; try discriminate.
  injection H as <-. reflexivity.
Qed.

Lemma define_property_guarded h l k p u h' :
  protected_same P h0 h -> guarded P h0 h -> ~ P l ->
  (forall v e w c, p = PData v e w c -> outside P h0 v) ->
  define_property l k p h = Ret (u, h') ->
  protected_same P h0 h' /\ guarded P h0 h'.
Proof.
  intros Hs Hg Hl Hp H.
  apply define_property_Ret in H as (o & o' & Ho & Hb & ->).
  split; [now apply protected_same_insert|].
  eapply guarded_insert; [exact Hg|exact Ho| |].
  - now rewrite (bump_length_proto _ _ _ Hb).
  - eapply good_bump_length; [|exact Hb]. apply good_update_prop; [|exact Hp].
    apply (Hg l o Ho). now left.
Qed.

Lemma with_kind_guarded h l o c :
  protected_same P h0 h -> guarded P h0 h -> ~ P l -> h !! l = Some o ->
  protected_same P h0 (<[l := with_kind o c]> h)
  /\ guarded P h0 (<[l := with_kind o c]> h).
Proof.
  intros Hs Hg Hl Ho. split; [now apply protected_same_insert|].
  eapply guarded_insert; [exact Hg|exact Ho|reflexivity|].
  intros k v e w cf Hin. simpl in Hin. eapply (Hg l o Ho); [now left|exact Hin].
Qed.

Lemma set_add_guarded h l v u h' :
  protected_same P h0 h -> guarded P h0 h -> ~ P l ->
  set_add l v h = Ret (u, h') ->
  protected_same P h0 h' /\ guarded P h0 h'.
Proof.
  intros Hs Hg Hl H. unfold set_add in H.
  destruct (h !! l) as [o|] eqn:Ho; [|discriminate].
  destruct (o_kind o); try discriminate.
  destruct (existsb _ _).
  - injection H as _ <-. auto.
  - injection H as _ <-. now apply with_kind_guarded.
Qed.

Lemma map_set_guarded h l k v u h' :
  protected_same P h0 h -> guarded P h0 h -> ~ P l ->
  map_set l k v h = Ret (u, h') ->
  protected_same P h0 h' /\ guarded P h0 h'.
Proof.
  intros Hs Hg Hl H. unfold map_set in H.
  destruct (h !! l) as [o|] eqn:Ho; [|discriminate].
  destruct (o_kind o); try discriminate.
  injection H as _ <-. now apply with_kind_guarded.
Qed.

Lemma alloc_guarded h o n h' :
  protected_same P h0 h -> guarded P h0 h -> good P h0 o ->
  (forall p, o_proto o = Some p -> template h p) ->
  alloc o h = Ret (n, h') ->
  protected_same P h0 h' /\ guarded P h0 h' /\ ~ P n.
Proof.
  intros Hs Hg Hgood Hp H. apply alloc_Ret in H as [-> ->].
  split; [now apply protected_same_alloc|]. split; [now apply guarded_alloc|].
  eapply protected_fresh; eauto.
Qed.

Lemma good_no_props c p e : good P h0 (mkObj c p e []).
Proof. intros k v e' w cf []. Qed.

Lemma good_number_prop c p e k n e' w cf :
  good P h0 (mkObj c p e [(k, PData (VNum n) e' w cf)]).
Proof. intros k' v e'' w' cf' [[= <- <- <- <- <-]|[]]. apply outside_number. Qed.

Lemma outside_fresh x : ~ P x -> outside P h0 (VObj x).
Proof. intros Hx y [= <-] Hy. contradiction. Qed.

Lemma template_builtin h p : (p < 9)%nat -> template h p.
Proof. now left. Qed.

Lemma template_proto_of h l p : proto_of h l = Some p -> template h p.
Proof.
  unfold proto_of. destruct (h !! l) as [o|] eqn:Ho; [|discriminate].
  intros Hp. right. eauto.
Qed.

Lemma needsProtoHack_builtin b : needsProtoHack b = true -> (b < 9)%nat.
Proof.
  unfold needsProtoHack. rewrite !orb_true_iff.
  intros [[[H|H]|H]|H]; apply bool_decide_eq_true in H; subst;
    unfold SetPrototype, MapPrototype, WeakSetPrototype, WeakMapPrototype; lia.
Qed.

Lemma clone_base_guarded h l baseProto options b h' :
  protected_same P h0 h -> guarded P h0 h ->
  clone_base l baseProto options h = Ret (b, h') ->
  protected_same P h0 h' /\ guarded P h0 h'
  /\ match b with
     | inl v => outside P h0 v
     | inr n => ~ P n
     end.
Proof.
  intros Hs Hg H. unfold clone_base in H.
  assert (Hleaf : forall (c : kind) (p : loc) ps b0 h1,
             (p < 9)%nat -> good P h0 (mkObj c (Some p) true ps) ->
             (let* n := alloc (mkObj c (Some p) true ps) in ret (inl (VObj n))) h
               = Ret (b0 : value + loc, h1) ->
             protected_same P h0 h1 /\ guarded P h0 h1
             /\ match b0 with inl v => outside P h0 v | inr n => ~ P n end).
  { intros c p ps b0 h1 Hp Hgood H1.
    apply bind_Ret in H1 as (n & hn & Ha & H1). inv_run H1.
    eapply alloc_guarded in Ha as (Hs1 & Hg1 & Hn); eauto.
    - split; [exact Hs1|]. split; [exact Hg1|]. now apply outside_fresh.
    - intros q [= <-]. now left. }
  assert (Hnew : forall (o : obj) b0 h1,
             good P h0 o -> (forall p, o_proto o = Some p -> template h p) ->
             (let* n := alloc o in ret (inr n)) h = Ret (b0 : value + loc, h1) ->
             protected_same P h0 h1 /\ guarded P h0 h1
             /\ match b0 with inl v => outside P h0 v | inr n => ~ P n end).
  { intros o b0 h1 Hgood Hp H1.
    apply bind_Ret in H1 as (n & hn & Ha & H1). inv_run H1.
    eapply alloc_guarded in Ha as (Hs1 & Hg1 & Hn); eauto. }
  destruct (bool_decide (baseProto = BufferPrototype)).
  { inv_run H. eapply Hleaf; [| |exact H]; [unfold BufferPrototype; lia|].
    apply good_no_props. }
  destruct (bool_decide (baseProto = DatePrototype)).
  { inv_run H. eapply Hleaf; [| |exact H]; [unfold DatePrototype; lia|].
    apply good_no_props. }
  destruct (bool_decide (baseProto = RegExpPrototype)).
  { inv_run H. eapply Hleaf; [| |exact H]; [unfold RegExpPrototype; lia|].
    apply good_number_prop. }
  destruct (bool_decide (baseProto = ArrayPrototype)).
  { eapply Hnew; [| |exact H]; [apply good_number_prop|].
    intros p [= <-]. left. unfold ArrayPrototype. lia. }
  destruct (strict_eq (flag (opt_prototype options)) (VBool false)); cbn [negb] in H.
  { destruct (needsProtoHack baseProto) eqn:Hn.
    - eapply Hnew; [| |exact H]; [apply good_no_props|].
      intros p [= <-]. left. now apply needsProtoHack_builtin.
    - eapply Hnew; [| |exact H]; [apply good_no_props|].
      intros p [= <-]. left. unfold ObjectPrototype. lia. }
  inv_run H. apply bind_Ret in H as (imm & h1 & Himm & H).
  assert (h1 = h /\ (truthy imm = true -> ~ P l)) as [-> Hnot].
  { destruct (proto_of h l) as [p|] eqn:Hp.
    - apply read_Ret in Himm as [Himm ->]. split; [reflexivity|].
      intros Ht HP. pose proof (protected_not_immutable P h0 ok h l p imm Hs HP Hp Himm).
      congruence.
    - inv_run Himm. split; [reflexivity|]. discriminate. }
  destruct (truthy imm).
  { inv_run H. split; [exact Hs|]. split; [exact Hg|].
    apply outside_fresh. auto. }
  destruct (needsProtoHack baseProto).
  - destruct (proto_of h l) as [p|] eqn:Hp; [|discriminate].
    eapply Hnew; [| |exact H]; [apply good_no_props|].
    intros q [= <-]. eapply template_proto_of; eauto.
  - eapply Hnew; [| |exact H]; [apply good_no_props|].
    intros q Hq. eapply template_proto_of; eauto.
Qed.

Section Loops.

Variable clone : clone_fn.
Hypothesis clone_ok : clone_guards P h0 clone.
Variable newObj : loc.
Hypothesis fresh : ~ P newObj.

Lemma clone_set_loop_guarded vs :
  forall (s : seen_map) h s' h',
    protected_same P h0 h -> guarded P h0 h -> seen_outside P s ->
    clone_set_loop clone newObj vs (Some s) h = Ret (s', h') ->
    protected_same P h0 h' /\ guarded P h0 h'
    /\ exists s2 : seen_map, s' = Some s2 /\ seen_outside P s2.
Proof.
  induction vs as [|v vs IH]; intros s h s' h' Hs Hg Hso H; simpl in H.
  - inv_run H. eauto.
  - apply bind_Ret in H as (r & h1 & Hc & H).
    apply clone_ok in Hc as (Hs1 & Hg1 & (s1 & Hr & Hso1) & _); auto.
    apply bind_Ret in H as ([] & h2 & Ha & H).
    apply set_add_guarded in Ha as (Hs2 & Hg2); auto.
    rewrite Hr in H. eapply IH; eauto.
Qed.

Lemma clone_map_loop_guarded es :
  forall (s : seen_map) h s' h',
    protected_same P h0 h -> guarded P h0 h -> seen_outside P s ->
    clone_map_loop clone newObj es (Some s) h = Ret (s', h') ->
    protected_same P h0 h' /\ guarded P h0 h'
    /\ exists s2 : seen_map, s' = Some s2 /\ seen_outside P s2.
Proof.
  induction es as [|[k v] es IH]; intros s h s' h' Hs Hg Hso H; simpl in H.
  - inv_run H. eauto.
  - apply bind_Ret in H as (r & h1 & Hc & H).
    apply clone_ok in Hc as (Hs1 & Hg1 & (s1 & Hr & Hso1) & _); auto.
    apply bind_Ret in H as ([] & h2 & Ha & H).
    apply map_set_guarded in Ha as (Hs2 & Hg2); auto.
    rewrite Hr in H. eapply IH; eauto.
Qed.

Lemma clone_keys_loop_guarded obj isArr ks :
  forall (s : seen_map) h s' h',
    protected_same P h0 h -> guarded P h0 h -> seen_outside P s ->
    clone_keys_loop clone obj newObj isArr ks (Some s) h = Ret (s', h') ->
    protected_same P h0 h' /\ guarded P h0 h'
    /\ exists s2 : seen_map, s' = Some s2 /\ seen_outside P s2.
Proof.
  induction ks as [|k ks IH]; intros s h s' h' Hs Hg Hso H; simpl in H.
  - inv_run H. eauto.
  - destruct (isArr && bool_decide (k = length_key)).
    { eapply IH; eauto. }
    inv_run H. destruct (has_accessor (get_own h obj k)) eqn:Hacc.
    + apply bind_Ret in H as ([] & h1 & Hd & H).
      assert (Hstep : protected_same P h0 h1 /\ guarded P h0 h1).
      { destruct (get_own h obj k) as [d|]; [|inv_run Hd; auto].
        eapply define_property_guarded; [exact Hs|exact Hg|exact fresh| |exact Hd].
        intros v e w c ->. discriminate Hacc. }
      destruct Hstep. eapply IH; eauto.
    + inv_run H. apply bind_Ret in H as (r & h1 & Hc & H).
      apply clone_ok in Hc as (Hs1 & Hg1 & (s1 & Hr & Hso1) & Hout); auto.
      apply bind_Ret in H as ([] & h2 & Hd & H).
      eapply define_property_guarded in Hd as (Hs2 & Hg2); eauto.
      * rewrite Hr in H. eapply IH; eauto.
      * intros v e w c [= <- _ _ _]. exact Hout.
Qed.

Lemma clone_entries_guarded l baseProto (s : seen_map) h s' h' :
  protected_same P h0 h -> guarded P h0 h -> seen_outside P s ->
  clone_entries clone l newObj baseProto (Some s) h = Ret (s', h') ->
  protected_same P h0 h' /\ guarded P h0 h'
  /\ exists s2 : seen_map, s' = Some s2 /\ seen_outside P s2.
Proof.
  intros Hs Hg Hso H. unfold clone_entries in H.
  destruct (bool_decide (baseProto = SetPrototype)).
  { inv_run H. eapply clone_set_loop_guarded; eauto. }
  destruct (bool_decide (baseProto = MapPrototype)).
  { inv_run H. eapply clone_map_loop_guarded; eauto. }
  inv_run H. eauto.
Qed.

End Loops.

Lemma clone_length_guarded l newObj baseProto h u h' :
  protected_same P h0 h -> guarded P h0 h -> ~ P newObj ->
  (baseProto = ArrayPrototype -> kind_of h newObj = KArray) ->
  clone_length l newObj baseProto h = Ret (u, h') ->
  protected_same P h0 h' /\ guarded P h0 h'.
Proof.
  intros Hs Hg Hn Harr H. unfold clone_length in H.
  destruct (bool_decide (baseProto = ArrayPrototype)) eqn:Eb; [|inv_run H; auto].
  apply bool_decide_eq_true in Eb. specialize (Harr Eb).
  apply bind_Ret in H as (len & hx & Hlen & H). apply read_Ret in Hlen as [Hlen ->].
  apply set_prop_Ret in H as (l' & o & e & c & o' & [= <-] & Ho & Ha & ->).
  split; [now apply protected_same_insert|].
  eapply guarded_insert; [exact Hg|exact Ho|eapply assign_own_proto; eauto|].
  unfold kind_of in Harr. rewrite Ho in Harr.
  unfold assign_own in Ha. rewrite Harr in Ha.
  rewrite !bool_decide_eq_true_2 in Ha by reflexivity. cbn [andb] in Ha.
  apply obind_Ret in Ha as (n & _ & Ha). unfold set_array_length in Ha.
  destruct (forallb _ _); [|discriminate]. injection Ha as <-.
  apply (good_update P h0 (with_props o (List.filter _ (o_props o)))).
  - apply good_filter. apply (Hg newObj o Ho). now left.
  - apply outside_number.
Qed.

End CloneGuards.

(** The loop over the keys leaves the class of the new object as it
    is. *)
Lemma clone_keys_loop_kind clone obj newObj isArr ks :
  clone_frames clone ->
  forall (s : seen_map) h s' h',
    (newObj < List.length h)%nat ->
    clone_keys_loop clone obj newObj isArr ks (Some s) h = Ret (s', h') ->
    kind_of h' newObj = kind_of h newObj /\ (newObj < List.length h')%nat.
Proof.
  intros Hfr. induction ks as [|k ks IH]; intros s h s' h' Hn H; simpl in H.
  - inv_run H. auto.
  - destruct (isArr && bool_decide (k = length_key)).
    { eapply IH; eauto. }
    assert (Hdef : forall d hd u hd',
               (newObj < List.length hd)%nat ->
               define_property newObj k d hd = Ret (u, hd') ->
               kind_of hd' newObj = kind_of hd newObj
               /\ (newObj < List.length hd')%nat).
    { intros d hd u hd' Hlt Hd.
      apply define_property_Ret in Hd as (o & o' & Ho & Hb & ->).
      rewrite length_insert. split; [|exact Hlt].
      unfold kind_of. rewrite list_lookup_insert_eq by exact Hlt. rewrite Ho.
      now rewrite (bump_length_kind _ _ _ Hb). }
    inv_run H. destruct (has_accessor (get_own h obj k)).
    + apply bind_Ret in H as ([] & h1 & Hd & H).
      assert (Hstep : kind_of h1 newObj = kind_of h newObj
                      /\ (newObj < List.length h1)%nat).
      { destruct (get_own h obj k) as [d|]; [|inv_run Hd; auto].
        eapply Hdef; eauto. }
      destruct Hstep as [Hk1 Hn1]. apply IH in H as [Hk2 Hn2]; [|exact Hn1].
      split; [congruence|exact Hn2].
    + inv_run H. apply bind_Ret in H as (r & h1 & Hc & H).
      apply Hfr in Hc as (Hp1 & s1 & Hr & _).
      apply bind_Ret in H as ([] & h2 & Hd & H).
      assert (Hn1 : (newObj < List.length h1)%nat).
      { apply prefix_length in Hp1. lia. }
      apply Hdef in Hd as [Hk2 Hn2]; [|exact Hn1].
      rewrite Hr in H. apply IH in H as [Hk3 Hn3]; [|exact Hn2].
      split; [|exact Hn3]. rewrite Hk3, Hk2. unfold kind_of.
      now rewrite (prefix_lookup h h1 newObj Hp1 Hn).
Qed.

Lemma clone_base_array l options h b h' :
  clone_base l ArrayPrototype options h = Ret (b, h') ->
  b = inr (List.length h) /\ h' = h ++ [empty_array (Some ArrayPrototype)].
Proof.
  unfold clone_base. intros H.
  rewrite (bool_decide_eq_false_2 (ArrayPrototype = BufferPrototype)) in H by discriminate.
  rewrite (bool_decide_eq_false_2 (ArrayPrototype = DatePrototype)) in H by discriminate.
  rewrite (bool_decide_eq_false_2 (ArrayPrototype = RegExpPrototype)) in H by discriminate.
  rewrite (bool_decide_eq_true_2 (ArrayPrototype = ArrayPrototype)) in H by reflexivity.
  apply bind_Ret in H as (n & hn & Ha & H). apply alloc_Ret in Ha as [-> ->].
  inv_run H. auto.
Qed.

Section CloneSeenGuards.

Variable P : loc -> Prop.
Variable h0 : heap.
Hypothesis ok : protected_ok P h0.

Lemma seen_outside_insert (s : seen_map) l n :
  seen_outside P s -> ~ P n -> seen_outside P (<[l := n]> s).
Proof.
  intros Hso Hn a t Ha. destruct (decide (a = l)) as [->|Hne].
  - rewrite lookup_insert_eq in Ha. now injection Ha as <-.
  - rewrite lookup_insert_ne in Ha by congruence. eauto.
Qed.

Lemma clone_seen_guards fuel options :
  truthy (flag (opt_shallow options)) = false ->
  clone_guards P h0 (fun v s => clone_seen fuel v options s).
Proof.
  intros Hsh. induction fuel as [|fuel IH]; intros v s h r h' Hs Hg Hso H.
  - discriminate H.
  - destruct (negb (bool_decide (typeof h v = TObject)) || bool_decide (v = VNull))
      eqn:Hty.
    { rewrite clone_seen_unfold in H. inv_run H. rewrite Hty in H. inv_run H.
      split; [exact Hs|]. split; [exact Hg|]. split; [eauto|]. cbn [fst].
      apply (outside_not_object P h0 h v Hs).
      apply orb_true_iff in Hty as [Hty|Hty].
      - apply negb_true_iff in Hty. rewrite Hty. apply andb_false_r.
      - apply bool_decide_eq_true in Hty. subst v. reflexivity. }
    apply typeof_not_object_cases in Hty as (l & -> & Hty).
    destruct (s !! l) as [t|] eqn:Hseen.
    { rewrite (clone_seen_revisit fuel l t s options h Hsh Hty Hseen) in H.
      injection H as <- <-. split; [exact Hs|]. split; [exact Hg|].
      split; [eauto|]. apply (outside_fresh P h0). eauto. }
    apply clone_seen_build in H as (base & h1 & Hbase & H); try assumption.
    pose proof (clone_base_guarded P h0 ok _ _ _ _ _ _ Hs Hg Hbase)
      as (Hs1 & Hg1 & Hb).
    destruct base as [bv|newObj].
    + destruct H as [-> ->]. split; [exact Hs1|]. split; [exact Hg1|].
      split; [eauto|exact Hb].
    + destruct H as (sa & ha & ks & sb & hb & Hent & Hks & Hkeys & Hlen & ->).
      pose proof (clone_seen_frames fuel options Hsh) as Hfr.
      pose proof Hent as Hent'.
      pose proof (seen_outside_insert s l newObj Hso Hb) as Hso1.
      eapply clone_entries_guarded in Hent as (Hs2 & Hg2 & s2 & -> & Hso2);
        try eassumption.
      pose proof Hkeys as Hkeys'.
      eapply clone_keys_loop_guarded in Hkeys as (Hs3 & Hg3 & s3 & -> & Hso3);
        try eassumption.
      eapply clone_length_guarded in Hlen as (Hs4 & Hg4); try eassumption.
      * split; [exact Hs4|]. split; [exact Hg4|]. split; [eauto|].
        now apply (outside_fresh P h0).
      * intros Harr. rewrite Harr in *.
        apply clone_base_array in Hbase as [[= ->] ->].
        unfold clone_entries in Hent'.
        rewrite (bool_decide_eq_false_2 (ArrayPrototype = SetPrototype)) in Hent'
          by discriminate.
        rewrite (bool_decide_eq_false_2 (ArrayPrototype = MapPrototype)) in Hent'
          by discriminate.
        inv_run Hent'.
        eapply clone_keys_loop_kind in Hkeys' as [Hk _]; [|exact Hfr|].
        -- rewrite Hk. unfold kind_of. rewrite lookup_app_r by lia.
           now rewrite Nat.sub_diag.
        -- rewrite length_app. simpl. lia.
Qed.

(** [clone], as [merge] calls it. *)
Lemma clone_guarded fuel v options h c h' :
  truthy (flag (opt_shallow options)) = false ->
  protected_same P h0 h -> guarded P h0 h ->
  clone fuel v options h = Ret (c, h') ->
  protected_same P h0 h' /\ guarded P h0 h' /\ outside P h0 c.
Proof.
  intros Hsh Hs Hg H. unfold clone in H.
  apply bind_Ret in H as (r & h1 & H & Hret). inv_run Hret.
  destruct (negb (bool_decide (typeof h v = TObject)) || bool_decide (v = VNull))
    eqn:Hty.
  - destruct fuel as [|fuel]; [discriminate H|].
    rewrite clone_seen_unfold in H. inv_run H. rewrite Hty in H. inv_run H.
    split; [exact Hs|]. split; [exact Hg|]. cbn [fst].
    apply (outside_not_object P h0 h v Hs).
    apply orb_true_iff in Hty as [Hty|Hty].
    + apply negb_true_iff in Hty. rewrite Hty. apply andb_false_r.
    + apply bool_decide_eq_true in Hty. subst v. reflexivity.
  - apply typeof_not_object_cases in Hty as (l & -> & Hty).
    rewrite clone_seen_None in H by assumption.
    apply (clone_seen_guards fuel options Hsh) in H as (Hs1 & Hg1 & _ & Hout);
      auto.
    intros a t Ha. rewrite lookup_empty in Ha. discriminate.
Qed.

End CloneSeenGuards.

Section MergeGuards.

Variable P : loc -> Prop.
Variable h0 : heap.
Hypothesis ok : protected_ok P h0.

Lemma push_guarded t c h u h' :
  protected_same P h0 h -> guarded P h0 h -> ~ P t -> outside P h0 c ->
  push (VObj t) c h = Ret (u, h') ->
  protected_same P h0 h' /\ guarded P h0 h'.
Proof.
  intros Hs Hg Ht Hc H. unfold push in H.
  apply bind_Ret in H as (len & hx & Hlen & H). apply read_Ret in Hlen as [_ ->].
  destruct len; try discriminate.
  apply bind_Ret in H as ([] & h1 & H1 & H2).
  eapply set_prop_guarded in H1 as (Hs1 & Hg1); try eassumption.
  eapply set_prop_guarded in H2; try eassumption. apply outside_number.
Qed.

Section Loops.

Variable cl : value -> M value.
Hypothesis cl_ok :
  forall v h c h',
    protected_same P h0 h -> guarded P h0 h -> cl v h = Ret (c, h') ->
    protected_same P h0 h' /\ guarded P h0 h' /\ outside P h0 c.

Lemma merge_array_loop_guarded n t source :
  ~ P t ->
  forall i h u h',
    protected_same P h0 h -> guarded P h0 h ->
    merge_array_loop n cl (VObj t) source i h = Ret (u, h') ->
    protected_same P h0 h' /\ guarded P h0 h'.
Proof.
  intros Ht. induction n as [|n IH]; intros i h u h' Hs Hg H; [discriminate H|].
  simpl in H.
  apply bind_Ret in H as (len & hx & Hlen & H). apply read_Ret in Hlen as [_ ->].
  destruct (match len with VNum m => i <? m | _ => false end).
  - apply bind_Ret in H as (v & hx & Hv & H). apply read_Ret in Hv as [_ ->].
    apply bind_Ret in H as (c & h1 & Hc & H).
    apply cl_ok in Hc as (Hs1 & Hg1 & Hout); auto.
    apply bind_Ret in H as ([] & h2 & Hp & H).
    eapply push_guarded in Hp as (Hs2 & Hg2); try eassumption.
    eapply IH; eauto.
  - inv_run H. auto.
Qed.

Variable mg : value -> value -> M value.
Hypothesis mg_ok :
  forall x source h r h',
    ~ P x -> protected_same P h0 h -> guarded P h0 h ->
    mg (VObj x) source h = Ret (r, h') ->
    protected_same P h0 h' /\ guarded P h0 h'.

Lemma merge_key_guarded t source options k h u h' :
  ~ P t -> protected_same P h0 h -> guarded P h0 h ->
  merge_key cl mg (VObj t) source options k h = Ret (u, h') ->
  protected_same P h0 h' /\ guarded P h0 h'.
Proof.
  intros Ht Hs Hg H. unfold merge_key in H.
  apply bind_Ret in H as (en & hx & Hen & H). inv_run Hen.
  destruct (bool_decide (k = proto_key) || negb _); [inv_run H; auto|].
  apply bind_Ret in H as (value & hx & Hv & H). apply read_Ret in Hv as [Hv ->].
  apply bind_Ret in H as (ty & hx & Hty & H). inv_run Hty.
  destruct (truthy value && bool_decide (typeof h value = TObject)) eqn:Hobj.
  - apply bind_Ret in H as (slot & hx & Hslot & H).
    apply read_Ret in Hslot as [Hslot ->].
    apply bind_Ret in H as (rep & hx & Hrep & H). inv_run Hrep.
    match type of H with
    | (if ?b then _ else _) _ = _ => destruct b eqn:Hrepl
    end.
    + apply bind_Ret in H as (c & h1 & Hc & H).
      apply cl_ok in Hc as (Hs1 & Hg1 & Hout); auto.
      eapply set_prop_guarded in H; eassumption.
    + apply bind_Ret in H as (r & h1 & Hm & H). inv_run H.
      rewrite !orb_false_iff in Hrepl.
      destruct Hrepl as [[[[[Htr Hto] _] _] _] _].
      apply negb_false_iff in Htr, Hto. apply bool_decide_eq_true in Hto.
      pose proof (get_outside P h0 h t k slot Hg Ht Hslot) as Hout.
      destruct slot; try discriminate.
      eapply mg_ok; [|exact Hs|exact Hg|exact Hm].
      eapply outside_object_not_protected; eauto.
  - assert (Hout : outside P h0 value) by (eapply outside_not_object; eauto).
    destruct (negb (is_nullish value)).
    { eapply set_prop_guarded in H; eassumption. }
    destruct (truthy (flag (opt_nullOverride options))).
    { eapply set_prop_guarded in H; eassumption. }
    inv_run H. auto.
Qed.

Lemma merge_keys_guarded t source options ks :
  ~ P t ->
  forall h u h',
    protected_same P h0 h -> guarded P h0 h ->
    merge_keys cl mg (VObj t) source options ks h = Ret (u, h') ->
    protected_same P h0 h' /\ guarded P h0 h'.
Proof.
  intros Ht. induction ks as [|k ks IH]; intros h u h' Hs Hg H; simpl in H.
  - inv_run H. auto.
  - apply bind_Ret in H as ([] & h1 & Hk & H).
    eapply merge_key_guarded in Hk as (Hs1 & Hg1); try eassumption.
    eapply IH; eauto.
Qed.

End Loops.

Lemma merge_guarded fuel :
  forall t source options h r h',
    ~ P t -> protected_same P h0 h -> guarded P h0 h ->
    merge fuel (VObj t) source options h = Ret (r, h') ->
    protected_same P h0 h' /\ guarded P h0 h'.
Proof.
  induction fuel as [|fuel IH]; intros t source options h r h' Ht Hs Hg H;
    [discriminate H|].
  rewrite merge_unfold in H. cbv zeta in H.
  assert (Hcl : forall v h1 c h2,
             protected_same P h0 h1 -> guarded P h0 h1 ->
             clone fuel v (symbols_only (merge_options options)) h1 = Ret (c, h2) ->
             protected_same P h0 h2 /\ guarded P h0 h2 /\ outside P h0 c).
  { intros v h1 c h2 Hs1 Hg1 Hc. eapply clone_guarded; try eassumption.
    reflexivity. }
  apply bind_Ret in H as (ok1 & hx & Hok1 & H). inv_run Hok1.
  apply bind_Ret in H as ([] & hx & Hok1 & H). inv_run Hok1.
  apply bind_Ret in H as (ok2 & hx & Hok2 & H). inv_run Hok2.
  apply bind_Ret in H as ([] & hx & Hok2 & H). inv_run Hok2.
  destruct (negb (truthy source)); [inv_run H; auto|].
  apply bind_Ret in H as (sa & hx & Hsa & H). inv_run Hsa.
  destruct (isArray h source).
  - apply bind_Ret in H as (ta & hx & Hta & H). inv_run Hta.
    apply bind_Ret in H as ([] & hx & Hta & H). inv_run Hta.
    apply bind_Ret in H as ([] & hB & Htrunc & H).
    apply bind_Ret in H as ([] & hE & Hloop & H). inv_run H.
    assert (HB : protected_same P h0 hB /\ guarded P h0 hB).
    { destruct (negb (truthy (flag (opt_mergeArrays (merge_options options))))).
      - eapply set_prop_guarded in Htrunc; try eassumption. apply outside_number.
      - inv_run Htrunc. auto. }
    destruct HB as [HsB HgB].
    eapply merge_array_loop_guarded in Hloop; eauto.
  - apply bind_Ret in H as (ks & hx & Hks & H). apply read_Ret in Hks as [_ ->].
    apply bind_Ret in H as ([] & hE & Hloop & H). inv_run H.
    eapply merge_keys_guarded in Hloop; eauto.
Qed.

End MergeGuards.

(** ** The shallow keys: what [store] detaches, [restore] reattaches *)








Section StoreRestore.

Variables (src : loc) (o : obj).
Hypothesis not_array : o_kind o <> KArray.









End StoreRestore.









(** A listed path that ends in a negative array index is read from the
    end of the array by [reach] and written under its literal name by
    [reachSet]: the source array ends with one property more. *)
Example shallow_negative_index_adds_a_property :
  exists c h',
    clone 6 (VObj 10%nat) options_shallow_negative negative_index_heap
      = Ret (c, h')
    /\ get_own negative_index_heap 11%nat (KStr "-1") = None
    /\ get_own h' 11%nat (KStr "-1") = Some (data (VObj 12%nat)).
Proof. do 2 eexists. repeat split; vm_compute; reflexivity. Qed.

(** ** Escapes *)

Lemma string_app_assoc (r s t : string) :
  ((r ++ s) ++ t = r ++ (s ++ t))%string.
Proof.
  induction r as [|c r IH]; [reflexivity|].
  change (String c ((r ++ s) ++ t) = String c (r ++ (s ++ t)))%string.
  now rewrite IH.
Qed.

Lemma string_cons_app c (s t : string) :
  (String c s ++ t)%string = String c (s ++ t)%string.
Proof. reflexivity. Qed.

Lemma string_nil_app (t : string) : ("" ++ t)%string = t.
Proof. reflexivity. Qed.

Lemma replace_chars_app class replacement s t :
  replace_chars class replacement (s ++ t)%string
  = (replace_chars class replacement s ++ replace_chars class replacement t)%string.
Proof.
  induction s as [|c s IH]; [reflexivity|].
  change (String c s ++ t)%string with (String c (s ++ t)%string).
  cbn [replace_chars]. rewrite IH. symmetry. apply string_app_assoc.
Qed.

Lemma regex_special_backslash c : regex_special c = false -> Ascii.eqb c "\" = false.
Proof.
  intros H. destruct (Ascii.eqb_spec c "\") as [->|]; [discriminate H|reflexivity].
Qed.

Lemma literal_pattern_escape s :
  literal_pattern
    (replace_chars regex_special (fun c => String "\" (String c "")) s) = Some s.
Proof.
  induction s as [|c s IH]; [reflexivity|]. cbn [replace_chars].
  destruct (regex_special c) eqn:Hc.
  - rewrite ?string_cons_app, ?string_nil_app; cbn [literal_pattern]. rewrite Ascii.eqb_refl, Hc, IH. reflexivity.
  - rewrite ?string_cons_app, ?string_nil_app; cbn [literal_pattern].
    rewrite (regex_special_backslash c Hc), Hc, IH. reflexivity.
Qed.


Lemma replace_chars_length class s :
  String.length (replace_chars class (fun c => String "\" (String c "")) s)
  = (String.length s
     + List.length (List.filter class (list_ascii_of_string s)))%nat.
Proof.
  induction s as [|c s IH]; [reflexivity|].
  cbn [replace_chars list_ascii_of_string List.filter].
  destruct (class c); rewrite ?string_cons_app, ?string_nil_app;
    cbn [String.length List.length]; rewrite IH; lia.
Qed.

Lemma replace_chars_none class replacement s :
  forallb (fun c => negb (class c)) (list_ascii_of_string s) = true ->
  replace_chars class replacement s = s.
Proof.
  induction s as [|c s IH]; [reflexivity|]. cbn. intros H.
  apply andb_prop in H as [Hc Hs]. apply negb_true_iff in Hc. rewrite Hc.
  rewrite string_cons_app, string_nil_app. now rewrite IH.
Qed.

Lemma filter_nil_forallb {A} (f : A -> bool) l :
  List.filter f l = [] -> forallb (fun c => negb (f c)) l = true.
Proof.
  induction l as [|a l IH]; [reflexivity|]. cbn. destruct (f a); [discriminate|].
  intros H. now rewrite IH.
Qed.

(** X2.  [escapeRegex] hands a text back unchanged exactly when the text
    has none of the special characters, and two texts never get the same
    pattern. *)
Theorem escapeRegex_fixes_plain_text h s t :
  (escapeRegex h (VStr s) = Ret (VStr s)
   <-> forallb (fun c => negb (regex_special c)) (list_ascii_of_string s) = true)
  /\ (escapeRegex h (VStr s) = escapeRegex h (VStr t) -> s = t).
Proof.
  split; [split|].
  - intros H. injection H as H. apply (f_equal String.length) in H.
    rewrite replace_chars_length in H. apply filter_nil_forallb.
    apply length_zero_iff_nil. lia.
  - intros H. cbn. now rewrite replace_chars_none.
  - intros H. injection H as H. apply (f_equal literal_pattern) in H.
    rewrite !literal_pattern_escape in H. now injection H.
Qed.

Lemma escapeRegex_fixes_plain_text_witness :
  escapeRegex realm (VStr "a.b") = escapeRegex realm (VStr "a.b")
  /\ "a.b" = "a.b".
Proof.
  split; [reflexivity|].
  apply (proj2 (escapeRegex_fixes_plain_text realm "a.b" "a.b")). reflexivity.
Defined.

Example escapeRegex_escapes :
  escapeRegex realm (VStr "4^f$s.4*5+-_?%=#!:@|~\/`(>)[<]d{}s,")
  = Ret (VStr "4\^f\$s\.4\*5\+\-_\?%\=#\!\:@\|~\\\/`\(>\)\[<\]d\{\}s\,").
Proof. reflexivity. Qed.

Lemma header_char_code c :
  header_char c = ((32 <=? nat_of_ascii c) && (nat_of_ascii c <=? 126))%nat.
Proof. destruct c as [[] [] [] [] [] [] [] []]; reflexivity. Qed.

Lemma header_char_printable c : header_char c = true <-> printable c.
Proof.
  rewrite header_char_code. unfold printable.
  rewrite andb_true_iff, !Nat.leb_le. reflexivity.
Qed.

Lemma header_chars_printable l :
  forallb header_char l = true <-> Forall printable l.
Proof.
  induction l as [|c l IH]; cbn.
  - split; [constructor|reflexivity].
  - rewrite andb_true_iff, Forall_cons, IH, header_char_printable. reflexivity.
Qed.

(** X3.  [escapeHeaderAttribute] accepts a text exactly when all its
    characters are printable ASCII (codes 32 to 126); any other text
    raises the error, with the text in the message. *)
Theorem escapeHeaderAttribute_accepts_printable h s :
  (Forall printable (list_ascii_of_string s) ->
   exists r, escapeHeaderAttribute h (VStr s) = Ret (VStr r))
  /\ (~ Forall printable (list_ascii_of_string s) ->
      escapeHeaderAttribute h (VStr s)
      = Throw (HoekError ("Bad attribute value (" ++ s ++ ")")%string)).
Proof.
  unfold escapeHeaderAttribute. cbn [to_key].
  destruct (forallb header_char (list_ascii_of_string s)) eqn:E; split; intros H.
  - eexists. reflexivity.
  - exfalso. apply H. now apply header_chars_printable.
  - apply header_chars_printable in H. congruence.
  - reflexivity.
Qed.

Lemma escapeHeaderAttribute_accepts_printable_witness :
  exists r, escapeHeaderAttribute realm (VStr "a b") = Ret (VStr r).
Proof.
  apply (proj1 (escapeHeaderAttribute_accepts_printable realm "a b")).
  repeat constructor; unfold printable; cbn; lia.
Defined.

Lemma header_one_pass s :
  replace_chars (Ascii.eqb double_quote)
    (fun _ => String "\" (String double_quote ""))
    (replace_chars (Ascii.eqb "\") (fun _ => "\\") s)
  = replace_chars (fun c => Ascii.eqb c "\" || Ascii.eqb c double_quote)
      (fun c => String "\" (String c "")) s.
Proof.
  induction s as [|c s IH]; [reflexivity|]. cbn [replace_chars].
  rewrite replace_chars_app, IH. rewrite (Ascii.eqb_sym "\" c).
  destruct (Ascii.eqb_spec c "\") as [->|Hb]; [reflexivity|].
  cbn [orb replace_chars]. rewrite (Ascii.eqb_sym double_quote c).
  destruct (Ascii.eqb_spec c double_quote) as [->|Hq]; reflexivity.
Qed.

Lemma quoted_text_one_pass s :
  quoted_text
    (replace_chars (fun c => Ascii.eqb c "\" || Ascii.eqb c double_quote)
       (fun c => String "\" (String c "")) s) = Some s.
Proof.
  induction s as [|c s IH]; [reflexivity|]. cbn [replace_chars].
  destruct (Ascii.eqb c "\") eqn:Hb; cbn [orb].
  - rewrite ?string_cons_app, ?string_nil_app; cbn [quoted_text]. rewrite Ascii.eqb_refl, IH. reflexivity.
  - destruct (Ascii.eqb c double_quote) eqn:Hq.
    + rewrite ?string_cons_app, ?string_nil_app; cbn [quoted_text]. rewrite Ascii.eqb_refl, IH. reflexivity.
    + rewrite ?string_cons_app, ?string_nil_app; cbn [quoted_text]. rewrite Hb, Hq, IH. reflexivity.
Qed.

(** X4.  The two replacements of [escapeHeaderAttribute], backslashes
    first and double quotes second, leave no bare double quote: read as
    the content of a quoted string, the result spells the attribute. *)
Theorem escapeHeaderAttribute_quotes h s r :
  escapeHeaderAttribute h (VStr s) = Ret (VStr r) -> quoted_text r = Some s.
Proof.
  unfold escapeHeaderAttribute. cbn [to_key].
  destruct (forallb header_char (list_ascii_of_string s)); [|discriminate].
  intros H. injection H as <-. rewrite header_one_pass. apply quoted_text_one_pass.
Qed.

Lemma escapeHeaderAttribute_quotes_witness :
  quoted_text "a\\b" = Some "a\b".
Proof. apply (escapeHeaderAttribute_quotes realm "a\b" "a\\b"). reflexivity. Defined.

Example escapeHeaderAttribute_bad_character :
  escapeHeaderAttribute realm (VStr (String "010" "ab"))
  = Throw (HoekError ("Bad attribute value (" ++ String "010" "ab" ++ ")")%string).
Proof. reflexivity. Qed.

(** ** Heaps without dangling references *)

Lemma closed_heap_lookup h l o :
  closed_heap h = true -> h !! l = Some o -> obj_in (List.length h) o = true.
Proof.
  unfold closed_heap. rewrite forallb_forall. intros Hc Hl. apply Hc.
  apply list_elem_of_In. eapply list_elem_of_lookup_2; eauto.
Qed.

Lemma closed_heap_proto h l o p :
  closed_heap h = true -> h !! l = Some o -> o_proto o = Some p ->
  (p < List.length h)%nat.
Proof.
  intros Hc Hl Hp. pose proof (closed_heap_lookup h l o Hc Hl) as Ho.
  unfold obj_in in Ho. rewrite Hp in Ho.
  apply andb_prop in Ho as [Ho _]. apply andb_prop in Ho as [Ho _].
  now apply Nat.ltb_lt in Ho.
Qed.

Lemma closed_heap_prop h l o k p :
  closed_heap h = true -> h !! l = Some o -> In (k, p) (o_props o) ->
  prop_in (List.length h) p = true.
Proof.
  intros Hc Hl Hin. pose proof (closed_heap_lookup h l o Hc Hl) as Ho.
  unfold obj_in in Ho. apply andb_prop in Ho as [Ho _].
  apply andb_prop in Ho as [_ Ho]. rewrite forallb_forall in Ho.
  apply (Ho (k, p) Hin).
Qed.

(** A read in a closed heap gives the same in any heap that extends it. *)
Lemma lookup_chain_extends (h h' : heap) k n :
  closed_heap h = true -> h `prefix_of` h' ->
  forall m l x, (l < List.length h)%nat -> (n <= m)%nat ->
    lookup_chain n h l k = Ret x -> lookup_chain m h' l k = Ret x.
Proof.
  intros Hc Hp. induction n as [|n IH]; intros m l x Hl Hnm H; [discriminate|].
  destruct m as [|m]; [lia|]. simpl in *. rewrite (prefix_lookup h h' l Hp Hl).
  destruct (h !! l) as [o|] eqn:Ho; [|exact H].
  destruct (lookup_prop k (o_props o)); [exact H|].
  destruct (o_proto o) as [p|] eqn:Hpr; [|exact H].
  apply IH; [|lia|exact H]. eapply closed_heap_proto; eauto.
Qed.

Lemma get_extends (h h' : heap) v k x :
  closed_heap h = true -> h `prefix_of` h' -> value_in (List.length h) v = true ->
  get h v k = Ret x -> get h' v k = Ret x.
Proof.
  intros Hc Hp Hv H. destruct v; try exact H.
  unfold get, get_from in *. apply obind_Ret in H as (p & Hp1 & Hx).
  erewrite (lookup_chain_extends h h' k _ Hc Hp); [exact Hx| | |exact Hp1].
  - now apply Nat.ltb_lt in Hv.
  - apply prefix_length in Hp. lia.
Qed.

Lemma isArray_extends (h h' : heap) v :
  h `prefix_of` h' -> value_in (List.length h) v = true ->
  isArray h' v = isArray h v.
Proof.
  intros Hp Hv. destruct v; try reflexivity. unfold isArray.
  apply Nat.ltb_lt in Hv. now rewrite (prefix_lookup h h' l Hp Hv).
Qed.

Lemma get_string_in n s k : value_in n (get_string s k) = true.
Proof.
  unfold get_string. destruct k as [t|]; [|reflexivity].
  destruct (string_dec t "length") as [->|Hne].
  - reflexivity.
  - assert (E : forall A (a b : A),
               match t with
               | "length" => a
               | _ => b
               end = b \/ t = "length").
    { intros A a b.
      repeat (destruct t as [|[[] [] [] [] [] [] [] []] t]; auto). }
    destruct (E value (VNum (Z.of_nat (String.length s)))
                (match array_index (KStr t) with
                 | Some n0 => match String.get (N.to_nat n0) s with
                              | Some c => VStr (String c "")
                              | None => VUndef
                              end
                 | None => VUndef
                 end)) as [->|]; [|contradiction].
    destruct (array_index (KStr t)); [|reflexivity].
    destruct (String.get _ s); reflexivity.
Qed.

(** What a read gives in a closed heap is a value of the heap. *)
Lemma get_closed h v k x :
  closed_heap h = true -> get h v k = Ret x -> value_in (List.length h) x = true.
Proof.
  intros Hc H. destruct v; try (injection H as <-; reflexivity); try discriminate.
  - injection H as <-. apply get_string_in.
  - unfold get, get_from in H. apply obind_Ret in H as (p & Hp & Hx).
    destruct p as [[v e w c|g s e c]|]; simpl in Hx.
    + injection Hx as <-.
      apply lookup_chain_owner in Hp as (l' & o' & Hl' & Hin & _).
      apply (closed_heap_prop h l' o' _ _ Hc Hl' Hin).
    + destruct g; try discriminate. now injection Hx as <-.
    + now injection Hx as <-.
Qed.

(** ** Pushing onto a new array *)

Lemma lookup_prop_app k ps qs :
  lookup_prop k (ps ++ qs)
  = match lookup_prop k ps with
    | Some p => Some p
    | None => lookup_prop k qs
    end.
Proof.
  induction ps as [|[k' p'] ps IH]; [reflexivity|]. simpl.
  destruct (decide (k = k')); [reflexivity|exact IH].
Qed.

Lemma update_prop_new k p ps :
  lookup_prop k ps = None -> update_prop k p ps = ps ++ [(k, p)].
Proof.
  induction ps as [|[k' p'] ps IH]; [reflexivity|]. simpl.
  destruct (decide (k = k')); [discriminate|]. intros H. now rewrite IH.
Qed.

Lemma elements_In vs k p :
  In (k, p) (imap (fun i v => (index_key (N.of_nat i), data v)) vs) ->
  exists i v, vs !! i = Some v /\ k = index_key (N.of_nat i) /\ p = data v.
Proof.
  intros H. apply list_elem_of_In in H. apply list_elem_of_lookup_1 in H as [i Hi].
  rewrite list_lookup_imap in Hi.
  destruct (vs !! i) as [v|] eqn:Hv; [|discriminate]. injection Hi as <- <-. eauto.
Qed.

Lemma elements_lookup_past vs n :
  (List.length vs <= N.to_nat n)%nat ->
  lookup_prop (index_key n)
    (imap (fun i v => (index_key (N.of_nat i), data v)) vs) = None.
Proof.
  intros Hn. destruct (lookup_prop _ _) as [p|] eqn:E; [|reflexivity].
  apply lookup_prop_In, elements_In in E as (i & v & Hv & Hk & _).
  apply index_key_inj in Hk. apply lookup_lt_Some in Hv. lia.
Qed.

Lemma filter_all {A} (f : A -> bool) l : forallb f l = true -> List.filter f l = l.
Proof.
  induction l as [|a l IH]; [reflexivity|]. simpl. intros H.
  apply andb_prop in H as [Ha Hl]. rewrite Ha. now rewrite IH.
Qed.

Lemma filter_none {A} (f : A -> bool) l :
  forallb (fun a => negb (f a)) l = true -> List.filter f l = [].
Proof.
  induction l as [|a l IH]; [reflexivity|]. simpl. intros H.
  apply andb_prop in H as [Ha Hl]. apply negb_true_iff in Ha. rewrite Ha. now apply IH.
Qed.

Lemma array_of_snoc acc v :
  array_of (acc ++ [v])
  = mkObj KArray (Some ArrayPrototype) true
      ((length_key, PData (VNum (Z.of_nat (List.length acc) + 1)) false true false)
         :: imap (fun i v => (index_key (N.of_nat i), data v)) acc
         ++ [(index_key (N.of_nat (List.length acc)), data v)]).
Proof.
  unfold array_of. rewrite imap_app, length_app. simpl.
  rewrite Nat.add_0_r. do 5 f_equal. lia.
Qed.

(** Storing an element at the length of an array built by pushes. *)
Lemma assign_own_array_of acc v :
  (N.of_nat (List.length acc) < max_index)%N ->
  assign_own (array_of acc) (index_key (N.of_nat (List.length acc))) v true true
  = Ret (array_of (acc ++ [v])).
Proof.
  intros Hmax. rewrite array_of_snoc. unfold assign_own.
  rewrite (bool_decide_eq_false_2 (index_key _ = length_key))
    by apply index_key_not_length.
  rewrite andb_false_r. unfold bump_length, with_props, array_of.
  cbn [o_kind o_props o_proto o_extensible].
  rewrite (array_index_key _ Hmax).
  cbn [update_prop].
  destruct (decide (index_key (N.of_nat (List.length acc)) = length_key)) as [E|_];
    [now apply index_key_not_length in E|].
  rewrite update_prop_new by (apply elements_lookup_past; lia).
  unfold array_length. cbn [o_props lookup_prop].
  destruct (decide (length_key = length_key)) as [_|]; [|congruence].
  replace (N.of_nat (List.length acc) <? Z.to_N (Z.of_nat (List.length acc)))%N
    with false by (symmetry; apply N.ltb_ge; lia).
  cbn [update_prop].
  destruct (decide (length_key = length_key)) as [_|]; [|congruence].
  replace (Z.of_N (N.of_nat (List.length acc) + 1))
    with (Z.of_nat (List.length acc) + 1) by lia.
  reflexivity.
Qed.

Lemma elements_below vs n :
  (Z.of_nat (List.length vs) < 4294967296) -> (List.length vs <= N.to_nat n)%nat ->
  forallb (fun kp : key * prop => negb (index_at_least n kp.1))
    (imap (fun i v => (index_key (N.of_nat i), data v)) vs) = true.
Proof.
  intros Hmax Hn. apply forallb_forall. intros [k p] Hin.
  apply elements_In in Hin as (i & v & Hv & -> & _). apply lookup_lt_Some in Hv.
  unfold index_at_least. cbn [fst]. rewrite array_index_key by (unfold max_index; lia).
  apply negb_true_iff, N.leb_gt. lia.
Qed.

(** Assigning to an array the length it has changes nothing. *)
Lemma assign_own_length_same vs :
  Z.of_nat (List.length vs) < 4294967296 ->
  assign_own (array_of vs) length_key (VNum (Z.of_nat (List.length vs))) false false
  = Ret (array_of vs).
Proof.
  intros Hmax. unfold assign_own. cbn [o_kind array_of].
  rewrite !bool_decide_eq_true_2 by reflexivity. cbn [andb].
  unfold to_length. cbn [to_integer obind].
  replace (0 <=? Z.of_nat (List.length vs)) with true by (symmetry; apply Z.leb_le; lia).
  replace (Z.of_nat (List.length vs) <? 4294967296) with true
    by (symmetry; apply Z.ltb_lt; lia).
  cbn [andb obind]. unfold set_array_length. cbn [o_props].
  pose proof (elements_below vs (Z.to_N (Z.of_nat (List.length vs))) Hmax
                ltac:(lia)) as Hb.
  assert (Hl : index_at_least (Z.to_N (Z.of_nat (List.length vs))) length_key = false).
  { unfold index_at_least. now rewrite array_index_length. }
  unfold with_props, array_of. cbn [o_kind o_props o_proto o_extensible List.filter fst].
  rewrite Hl. cbn [negb]. rewrite (filter_none _ _ Hb). cbn [forallb].
  rewrite (filter_all _ _ Hb). cbn [update_prop].
  destruct (decide (length_key = length_key)) as [_|]; [|congruence].
  replace (Z.of_N (Z.to_N (Z.of_nat (List.length vs))))
    with (Z.of_nat (List.length vs)) by lia.
  reflexivity.
Qed.

Lemma no_index_lookup ps k n :
  no_index ps = true -> array_index k = Some n -> lookup_prop k ps = None.
Proof.
  intros Hps Hk. destruct (lookup_prop k ps) as [p|] eqn:E; [|reflexivity].
  apply lookup_prop_In in E. unfold no_index in Hps. rewrite forallb_forall in Hps.
  specialize (Hps _ E). cbn in Hps. now rewrite Hk in Hps.
Qed.

Lemma array_prototype_plain_length h :
  array_prototype_plain h = true -> (2 <= List.length h)%nat.
Proof.
  unfold array_prototype_plain. destruct (h !! ArrayPrototype) eqn:E; [|discriminate].
  intros _. apply lookup_lt_Some in E. unfold ArrayPrototype in E. lia.
Qed.

(** No index is inherited by an array. *)
Lemma inherited_index_none (h h' : heap) m n :
  array_prototype_plain h = true -> h `prefix_of` h' ->
  (2 <= m)%nat -> (n < max_index)%N ->
  lookup_chain m h' ArrayPrototype (index_key n) = Ret None.
Proof.
  intros Hpl Hp Hm Hn. pose proof (array_prototype_plain_length h Hpl) as Hlen.
  unfold array_prototype_plain in Hpl.
  destruct (h !! ArrayPrototype) as [pa|] eqn:Ea; [|discriminate].
  destruct (h !! ObjectPrototype) as [po|] eqn:Eo; [|discriminate].
  apply andb_prop in Hpl as [Hpl Hno]. apply andb_prop in Hpl as [Hpl Hna].
  apply andb_prop in Hpl as [Hpa Hpo].
  apply bool_decide_eq_true in Hpa, Hpo.
  destruct m as [|[|m]]; [lia|lia|]. cbn [lookup_chain].
  rewrite (prefix_lookup h h' ArrayPrototype Hp) by (unfold ArrayPrototype; lia).
  rewrite Ea, (no_index_lookup _ _ n Hna (array_index_key n Hn)), Hpa.
  rewrite (prefix_lookup h h' ObjectPrototype Hp) by (unfold ObjectPrototype; lia).
  rewrite Eo, (no_index_lookup _ _ n Hno (array_index_key n Hn)), Hpo. reflexivity.
Qed.

Lemma lookup_snoc (h : heap) o : (h ++ [o]) !! List.length h = Some o.
Proof. rewrite lookup_app_r by lia. now rewrite Nat.sub_diag. Qed.

Lemma insert_snoc (h : heap) o o' : <[List.length h := o']> (h ++ [o]) = h ++ [o'].
Proof.
  rewrite insert_app_r_alt by lia. now rewrite Nat.sub_diag.
Qed.

Lemma array_of_length_prop vs :
  lookup_prop length_key (o_props (array_of vs))
  = Some (PData (VNum (Z.of_nat (List.length vs))) false true false).
Proof.
  unfold array_of. cbn [o_props lookup_prop].
  destruct (decide (length_key = length_key)); [reflexivity|congruence].
Qed.

Lemma array_of_lookup_past vs n :
  (List.length vs <= N.to_nat n)%nat ->
  lookup_prop (index_key n) (o_props (array_of vs)) = None.
Proof.
  intros Hn. unfold array_of. cbn [o_props lookup_prop].
  destruct (decide (index_key n = length_key)) as [E|_];
    [now apply index_key_not_length in E|].
  now apply elements_lookup_past.
Qed.

Lemma set_prop_array_of_element h acc v :
  array_prototype_plain h = true ->
  (N.of_nat (List.length acc) < max_index)%N ->
  set_prop (VObj (List.length h)) (index_key (N.of_nat (List.length acc))) v
    (h ++ [array_of acc])
  = Ret (tt, h ++ [array_of (acc ++ [v])]).
Proof.
  intros Hpl Hn. pose proof (array_prototype_plain_length h Hpl) as Hlen.
  unfold set_prop. rewrite lookup_snoc.
  rewrite array_of_lookup_past by lia.
  unfold inherited_prop. cbn [o_proto array_of].
  rewrite (inherited_index_none h (h ++ [array_of acc])); try assumption.
  - cbn [obind o_extensible].
    change (mkObj KArray (Some ArrayPrototype) true
              ((length_key, PData (VNum (Z.of_nat (List.length acc))) false true false)
                 :: imap (fun i v => (index_key (N.of_nat i), data v)) acc))
      with (array_of acc).
    rewrite assign_own_array_of by assumption. cbn [obind].
    now rewrite insert_snoc.
  - now apply prefix_app_r.
  - rewrite length_app. lia.
Qed.

Lemma set_prop_array_of_length h vs :
  Z.of_nat (List.length vs) < 4294967296 ->
  set_prop (VObj (List.length h)) length_key (VNum (Z.of_nat (List.length vs)))
    (h ++ [array_of vs])
  = Ret (tt, h ++ [array_of vs]).
Proof.
  intros Hmax. unfold set_prop. rewrite lookup_snoc, array_of_length_prop.
  rewrite assign_own_length_same by assumption. cbn [obind].
  now rewrite insert_snoc.
Qed.

(** A push onto the array that the library has made and filled by
    pushes: one more element, in a heap that is otherwise the same. *)
Lemma push_array_of h acc v :
  array_prototype_plain h = true ->
  Z.of_nat (List.length acc) + 1 < 4294967296 ->
  push (VObj (List.length h)) v (h ++ [array_of acc])
  = Ret (tt, h ++ [array_of (acc ++ [v])]).
Proof.
  intros Hpl Hmax.
  assert (Hn : (N.of_nat (List.length acc) < max_index)%N) by (unfold max_index; lia).
  unfold push, bind, read.
  rewrite (get_own_data _ _ _ _ _ _ _ _ (lookup_snoc h (array_of acc))
             (array_of_length_prop acc)).
  rewrite Z.max_r by lia.
  replace (Z.to_N (Z.of_nat (List.length acc))) with (N.of_nat (List.length acc)) by lia.
  rewrite set_prop_array_of_element by assumption.
  replace (Z.of_nat (List.length acc) + 1)
    with (Z.of_nat (List.length (acc ++ [v]))) by (rewrite length_app; simpl; lia).
  apply set_prop_array_of_length. rewrite length_app. simpl. lia.
Qed.

(** ** [flatten] into a new array *)

Lemma flatten_unfold fuel array target :
  flatten (S fuel) array target
  = (let* result :=
       if truthy target then ret target
       else let* n := alloc (empty_array (Some ArrayPrototype)) in ret (VObj n) in
     flatten_loop fuel (flatten fuel) array result 0 ;;
     ret result).
Proof. reflexivity. Qed.

Lemma flatten_loop_unfold n fl array result i :
  flatten_loop (S n) fl array result i
  = (let* len := read (fun h => get h array length_key) in
     let* more := read (fun _ => below i len) in
     if more then
       let* tested := read (fun h => get h array (index_key (Z.to_N i))) in
       let* nested := pure_read (fun h => isArray h tested) in
       let* item := read (fun h => get h array (index_key (Z.to_N i))) in
       (if nested then let* _ := fl item result in ret tt
        else call_push result item) ;;
       flatten_loop n fl array result (i + 1)
     else ret tt).
Proof. reflexivity. Qed.

Lemma flat_loop_unfold n flat h array i :
  flat_loop (S n) flat h array i
  = (let? len := get h array length_key in
     let? more := below i len in
     if more then
       let? item := get h array (index_key (Z.to_N i)) in
       let? xs := if isArray h item then flat item else Ret [item] in
       let? ys := flat_loop n flat h array (i + 1) in
       Ret (xs ++ ys)
     else Ret []).
Proof. reflexivity. Qed.

#[global] Opaque flatten flatten_loop flat_loop.

Lemma isArray_snoc h vs : isArray (h ++ [array_of vs]) (VObj (List.length h)) = true.
Proof. unfold isArray. rewrite lookup_snoc. now apply bool_decide_eq_true. Qed.

Section FlattenNew.

Variable h : heap.
Hypothesis closed : closed_heap h = true.
Hypothesis plain_prototype : array_prototype_plain h = true.

Lemma pushed_prefix acc : h `prefix_of` pushed h acc.
Proof. now apply prefix_app_r. Qed.

Section Loop.

Variable flat : value -> outcome (list value).
Variable fl : value -> value -> M value.

Hypothesis fl_flat : forall item acc xs,
  value_in (List.length h) item = true -> flat item = Ret xs ->
  Z.of_nat (List.length acc) + Z.of_nat (List.length xs) < 4294967296 ->
  fl item (VObj (List.length h)) (pushed h acc)
  = Ret (VObj (List.length h), pushed h (acc ++ xs)).

Lemma flatten_loop_new n :
  forall array i acc xs,
    value_in (List.length h) array = true ->
    flat_loop n flat h array i = Ret xs ->
    Z.of_nat (List.length acc) + Z.of_nat (List.length xs) < 4294967296 ->
    flatten_loop n fl array (VObj (List.length h)) i (pushed h acc)
    = Ret (tt, pushed h (acc ++ xs)).
Proof.
  induction n as [|n IH]; intros array i acc xs Harr H Hmax; [discriminate H|].
  rewrite flat_loop_unfold in H. rewrite flatten_loop_unfold.
  apply obind_Ret in H as (len & Hlen & H).
  apply obind_Ret in H as (more & Hmore & H).
  unfold bind at 1. unfold read at 1.
  rewrite (get_extends h (pushed h acc) _ _ _ closed (pushed_prefix acc) Harr Hlen).
  unfold bind at 1. unfold read at 1. rewrite Hmore.
  destruct more.
  - apply obind_Ret in H as (item & Hitem & H).
    apply obind_Ret in H as (xs1 & Hxs1 & H).
    apply obind_Ret in H as (ys & Hys & H). injection H as <-.
    pose proof (get_closed _ _ _ _ closed Hitem) as Hin.
    pose proof (get_extends h (pushed h acc) _ _ _ closed (pushed_prefix acc) Harr Hitem)
      as Hitem'.
    rewrite length_app in Hmax.
    unfold bind at 1. unfold read at 1. rewrite Hitem'.
    unfold bind at 1. unfold pure_read at 1.
    rewrite (isArray_extends h (pushed h acc) item (pushed_prefix acc) Hin).
    unfold bind at 1. unfold read at 1. rewrite Hitem'.
    unfold bind at 1.
    destruct (isArray h item).
    + unfold bind at 1. rewrite (fl_flat item acc xs1 Hin Hxs1) by lia.
      unfold ret at 1. rewrite app_assoc. apply IH; [exact Harr|exact Hys|].
      rewrite length_app. lia.
    + injection Hxs1 as <-. simpl in Hmax.
      unfold call_push, bind at 1, pure_read at 1. unfold pushed at 1 2.
      rewrite isArray_snoc, push_array_of by (try assumption; lia).
      rewrite app_assoc. apply IH; [exact Harr|exact Hys|].
      rewrite length_app. simpl. lia.
  - injection H as <-. now rewrite app_nil_r.
Qed.

End Loop.

Lemma flatten_into_new fuel :
  forall item acc xs,
    value_in (List.length h) item = true -> flat_items fuel h item = Ret xs ->
    Z.of_nat (List.length acc) + Z.of_nat (List.length xs) < 4294967296 ->
    flatten fuel item (VObj (List.length h)) (pushed h acc)
    = Ret (VObj (List.length h), pushed h (acc ++ xs)).
Proof.
  induction fuel as [|fuel IH]; intros item acc xs Hin H Hmax; [discriminate H|].
  rewrite flatten_unfold. cbn [truthy]. unfold bind at 1. unfold ret at 1.
  unfold bind at 1.
  rewrite (flatten_loop_new (flat_items fuel h) (flatten fuel) IH fuel item 0 acc xs
             Hin H Hmax).
  reflexivity.
Qed.

End FlattenNew.

Lemma flat_loop_not_arrays h flat n :
  (forall item xs, flat item = Ret xs -> Forall (fun x => isArray h x = false) xs) ->
  forall array i xs,
    flat_loop n flat h array i = Ret xs -> Forall (fun x => isArray h x = false) xs.
Proof.
  intros Hflat. induction n as [|n IH]; intros array i xs H; [discriminate H|].
  rewrite flat_loop_unfold in H.
  apply obind_Ret in H as (len & Hlen & H).
  apply obind_Ret in H as (more & Hmore & H).
  destruct more; [|injection H as <-; constructor].
  apply obind_Ret in H as (item & Hitem & H).
  apply obind_Ret in H as (xs1 & Hxs1 & H).
  apply obind_Ret in H as (ys & Hys & H). injection H as <-.
  apply Forall_app. split; [|eapply IH; eauto].
  destruct (isArray h item) eqn:E; [eapply Hflat; eauto|].
  injection Hxs1 as <-. repeat constructor. exact E.
Qed.

Lemma flat_items_not_arrays h fuel :
  forall array xs,
    flat_items fuel h array = Ret xs -> Forall (fun x => isArray h x = false) xs.
Proof.
  induction fuel as [|fuel IH]; intros array xs H; [discriminate H|].
  simpl in H. eapply flat_loop_not_arrays; eauto.
Qed.

(** X5.  [flatten(array)], with no target: when the walk of the nested
    arrays of [array] ends with the fuel at hand, the call returns a new
    array that holds, in the order of the walk, the items that are not
    arrays, and only them; every object that was in the heap, the arrays
    walked among them, is as it was. *)
Theorem flatten_new_array fuel h array target xs :
  closed_heap h = true -> array_prototype_plain h = true ->
  value_in (List.length h) array = true -> truthy target = false ->
  flat_items fuel h array = Ret xs ->
  Z.of_nat (List.length xs) < 4294967296 ->
  flatten fuel array target h = Ret (VObj (List.length h), h ++ [array_of xs])
  /\ Forall (fun x => isArray h x = false) xs.
Proof.
  intros Hc Hpl Harr Ht Hflat Hmax. split; [|eapply flat_items_not_arrays; eauto].
  destruct fuel as [|fuel]; [discriminate Hflat|].
  rewrite flatten_unfold, Ht. unfold bind at 1. unfold bind at 1. unfold alloc at 1.
  unfold ret at 1. unfold bind at 1. simpl in Hflat.
  change (h ++ [empty_array (Some ArrayPrototype)]) with (pushed h []).
  rewrite (flatten_loop_new h Hc Hpl (flat_items fuel h) (flatten fuel)
             (flatten_into_new h Hc Hpl fuel) fuel array 0 [] xs Harr Hflat)
    by (simpl; lia).
  reflexivity.
Qed.

Lemma flatten_new_array_witness :
  flatten 10 (VObj 10%nat) VUndef nested_heap
  = Ret (VObj 13%nat, nested_heap ++ [array_of [VNum 1; VNum 2; VNum 3; VNum 4]])
  /\ Forall (fun x => isArray nested_heap x = false) [VNum 1; VNum 2; VNum 3; VNum 4].
Proof.
  apply (flatten_new_array 10 nested_heap (VObj 10%nat) VUndef
           [VNum 1; VNum 2; VNum 3; VNum 4]); vm_compute; reflexivity.
Defined.

(** ** [intersect] *)

Lemma existsb_same_value x l : existsb (same_value_zero x) l = true <-> In x l.
Proof.
  rewrite existsb_exists. unfold same_value_zero. split.
  - intros (y & Hy & E). apply bool_decide_eq_true in E. now subst.
  - intros H. exists x. split; [exact H|]. now apply bool_decide_eq_true.
Qed.

Lemma existsb_same_value_false x l : existsb (same_value_zero x) l = false <-> ~ In x l.
Proof.
  rewrite <- existsb_same_value. destruct (existsb _ l); split; intros; congruence.
Qed.

Lemma set_of_In vs x : In x (set_of vs) <-> In x vs.
Proof.
  unfold set_of.
  assert (G : forall s, In x (foldl (fun s v => if existsb (same_value_zero v) s
                                                then s else s ++ [v]) s vs)
                        <-> In x s \/ In x vs).
  { induction vs as [|v vs IH]; intros s; simpl; [tauto|]. rewrite IH.
    destruct (existsb (same_value_zero v) s) eqn:E.
    - apply existsb_same_value in E. split; [tauto|]. intros [H|[->|H]]; auto.
    - rewrite in_app_iff. simpl. tauto. }
  rewrite G. simpl. tauto.
Qed.

Lemma taken_In members found xs x :
  In x (taken members found xs)
  <-> In x members /\ In x xs /\ ~ In x found.
Proof.
  revert found. induction xs as [|y xs IH]; intros found; simpl; [tauto|].
  destruct (existsb (same_value_zero y) members) eqn:Em; simpl.
  - apply existsb_same_value in Em.
    destruct (existsb (same_value_zero y) found) eqn:Ef; simpl.
    + apply existsb_same_value in Ef. rewrite IH. split; [tauto|].
      intros (H1 & [->|H2] & H3); tauto.
    + apply existsb_same_value_false in Ef. rewrite IH, in_app_iff. simpl.
      split.
      * intros [->|(H1 & H2 & H3)]; tauto.
      * intros (H1 & [->|H2] & H3); [now left|].
        destruct (decide (y = x)) as [->|Hne]; [now left|]. right. tauto.
  - apply existsb_same_value_false in Em. rewrite IH. split; [tauto|].
    intros (H1 & [->|H2] & H3); tauto.
Qed.

Lemma taken_NoDup members found xs : List.NoDup (taken members found xs).
Proof.
  revert found. induction xs as [|y xs IH]; intros found; simpl; [constructor|].
  destruct (existsb (same_value_zero y) members && _) eqn:E; [|apply IH].
  constructor; [|apply IH]. rewrite taken_In, in_app_iff. simpl. tauto.
Qed.

Lemma taken_sublist members found xs : taken members found xs `sublist_of` xs.
Proof.
  revert found. induction xs as [|y xs IH]; intros found; simpl; [constructor|].
  destruct (existsb (same_value_zero y) members && _).
  - constructor. apply IH.
  - constructor. apply IH.
Qed.

(** The elements that [elements_of] returns are what the reads by index
    return. *)
Lemma elements_of_reads h v n xs :
  get h v length_key = Ret (VNum n) -> elements_of h v = Ret xs ->
  Forall2 (fun i x => get h v (index_key (N.of_nat i)) = Ret x)
    (seq 0 (Z.to_nat n)) xs.
Proof.
  intros Hlen H. unfold elements_of in H. rewrite Hlen in H. cbn [obind] in H.
  revert xs H. generalize (seq 0 (Z.to_nat n)). intros idx.
  induction idx as [|i idx IH]; intros xs H; simpl in H.
  - injection H as <-. constructor.
  - apply obind_Ret in H as (x & Hx & H). apply obind_Ret in H as (ys & Hys & H).
    injection H as <-. constructor; [exact Hx|]. now apply IH.
Qed.

Lemma elements_of_extends (h h' : heap) v xs :
  closed_heap h = true -> h `prefix_of` h' -> value_in (List.length h) v = true ->
  elements_of h v = Ret xs -> elements_of h' v = Ret xs.
Proof.
  intros Hc Hp Hv H. unfold elements_of in *.
  apply obind_Ret in H as (len & Hlen & H).
  rewrite (get_extends h h' _ _ _ Hc Hp Hv Hlen). cbn [obind].
  destruct len; try exact H. revert xs H. generalize (seq 0 (Z.to_nat n)). intros idx.
  induction idx as [|i idx IH]; intros xs H; simpl in *; [exact H|].
  apply obind_Ret in H as (x & Hx & H). apply obind_Ret in H as (ys & Hys & H).
  rewrite (get_extends h h' _ _ _ Hc Hp Hv Hx). cbn [obind].
  rewrite (IH _ Hys). exact H.
Qed.

Lemma isArray_value_in h v : isArray h v = true -> value_in (List.length h) v = true.
Proof.
  destruct v; try reflexivity. unfold isArray. simpl.
  destruct (h !! l) eqn:E; [|discriminate]. intros _.
  apply Nat.ltb_lt. eapply lookup_Some_lt; eauto.
Qed.

Lemma isArray_kind_of h l : isArray h (VObj l) = true -> kind_of h l = KArray.
Proof.
  unfold isArray, kind_of. destruct (h !! l); [|discriminate].
  now intros H%bool_decide_eq_true.
Qed.

Lemma isArray_truthy h v : isArray h v = true -> truthy v = true.
Proof. destruct v; try discriminate. reflexivity. Qed.

Section IntersectArrays.

Variable h : heap.
Hypothesis closed : closed_heap h = true.
Hypothesis plain_prototype : array_prototype_plain h = true.

Variables (array2 : value) (members : list value).
Hypothesis array2_in : value_in (List.length h) array2 = true.

Lemma intersect_loop_all first idx :
  truthy first = false ->
  forall xs acc,
    Forall2 (fun i x => get h array2 (index_key (N.of_nat i)) = Ret x) idx xs ->
    Z.of_nat (List.length acc) + Z.of_nat (List.length xs) < 4294967296 ->
    intersect_loop (inl members) first (VObj (List.length h)) (map (element_at array2) idx) acc
      (pushed h acc)
    = Ret (VObj (List.length h), pushed h (acc ++ taken members acc xs)).
Proof.
  intros Hf. induction idx as [|i idx IH]; intros xs acc Hxs Hmax.
  - inversion Hxs; subst. simpl. rewrite Hf, app_nil_r. reflexivity.
  - inversion Hxs as [|? x ? xs' Hx Hxs']; subst. cbn [map intersect_loop taken].
    unfold bind at 1. unfold element_at at 1. unfold read at 1.
    rewrite (get_extends h (pushed h acc) _ _ _ closed (pushed_prefix h acc)
               array2_in Hx).
    unfold bind at 1. unfold read at 1. cbn [has]. cbn [List.length] in Hmax.
    destruct (existsb (same_value_zero x) members
              && negb (existsb (same_value_zero x) acc)) eqn:E.
    + rewrite Hf. unfold bind at 1, call_push, bind at 1, pure_read at 1.
      unfold pushed at 1 2.
      rewrite isArray_snoc, push_array_of by (try assumption; lia).
      change (h ++ [array_of (acc ++ [x])]) with (pushed h (acc ++ [x])).
      rewrite IH with (xs := xs'); [|exact Hxs'|rewrite length_app; simpl; lia].
      now rewrite <- app_assoc.
    + apply IH; [exact Hxs'|lia].
Qed.

Lemma intersect_loop_first first idx common hc :
  truthy first = true -> h `prefix_of` hc ->
  forall xs,
    Forall2 (fun i x => get h array2 (index_key (N.of_nat i)) = Ret x) idx xs ->
    intersect_loop (inl members) first common (map (element_at array2) idx) [] hc
    = Ret (default VNull (List.find (fun x => existsb (same_value_zero x) members) xs),
           hc).
Proof.
  intros Hf Hp. induction idx as [|i idx IH]; intros xs Hxs.
  - inversion Hxs; subst. simpl. now rewrite Hf.
  - inversion Hxs as [|? x ? xs' Hx Hxs']; subst. cbn [map intersect_loop List.find].
    unfold bind at 1. unfold element_at at 1. unfold read at 1.
    rewrite (get_extends h hc _ _ _ closed Hp array2_in Hx).
    unfold bind at 1. unfold read at 1. cbn [has existsb negb].
    rewrite andb_true_r.
    destruct (existsb (same_value_zero x) members); [now rewrite Hf|].
    now apply IH.
Qed.

End IntersectArrays.

Lemma kind_of_extends (h h' : heap) l :
  h `prefix_of` h' -> (l < List.length h)%nat -> kind_of h' l = kind_of h l.
Proof. intros Hp Hl. unfold kind_of. now rewrite (prefix_lookup h h' l Hp Hl). Qed.

(** The first lines of [intersect] on two arrays: the array of the common
    values is allocated, the first array read into a Set, and the second
    is ready to be walked. *)
Lemma intersect_arrays_start h array1 array2 first xs1 xs2 n :
  closed_heap h = true ->
  isArray h array1 = true -> isArray h array2 = true ->
  elements_of h array1 = Ret xs1 ->
  get h array2 length_key = Ret (VNum n) -> elements_of h array2 = Ret xs2 ->
  intersect array1 array2 first h
  = intersect_loop (inl (set_of xs1)) first (VObj (List.length h))
      (map (element_at array2) (seq 0 (Z.to_nat n))) [] (pushed h [])
    /\ Forall2 (fun i x => get h array2 (index_key (N.of_nat i)) = Ret x)
         (seq 0 (Z.to_nat n)) xs2.
Proof.
  intros Hc Ha1 Ha2 Hxs1 Hlen Hxs2.
  split; [|now apply elements_of_reads].
  pose proof (isArray_value_in h _ Ha1) as Hin1.
  pose proof (isArray_value_in h _ Ha2) as Hin2.
  assert (Hp : h `prefix_of` pushed h []) by now apply prefix_app_r.
  unfold intersect. rewrite (isArray_truthy h _ Ha1), (isArray_truthy h _ Ha2).
  cbn [negb orb]. unfold bind at 1. unfold alloc at 1.
  change (h ++ [empty_array (Some ArrayPrototype)]) with (pushed h []).
  unfold bind at 1. unfold read at 1.
  rewrite (isArray_extends h _ _ Hp Hin1), Ha1.
  rewrite (elements_of_extends h _ _ _ Hc Hp Hin1 Hxs1). cbn [obind].
  unfold bind at 1. unfold read at 1.
  destruct array2 as [| | | | | | |l2]; try discriminate Ha2.
  unfold iterate. rewrite (kind_of_extends h _ l2 Hp) by now apply Nat.ltb_lt in Hin2.
  rewrite (isArray_kind_of h l2 Ha2).
  rewrite (get_extends h _ _ _ _ Hc Hp Hin2 Hlen). cbn [obind to_integer default].
  reflexivity.
Qed.

(** X6.  [intersect] of two arrays, without [first]: the call returns a
    new array of the values of the second array that are also in the
    first, each once, in the order of the second array; every object
    that was in the heap is as it was. *)
Theorem intersect_common_values h array1 array2 first xs1 xs2 n :
  closed_heap h = true -> array_prototype_plain h = true ->
  isArray h array1 = true -> isArray h array2 = true ->
  elements_of h array1 = Ret xs1 ->
  get h array2 length_key = Ret (VNum n) -> elements_of h array2 = Ret xs2 ->
  Z.of_nat (List.length xs2) < 4294967296 ->
  truthy first = false ->
  exists ys,
    intersect array1 array2 first h
    = Ret (VObj (List.length h), h ++ [array_of ys])
    /\ List.NoDup ys
    /\ (forall x, In x ys <-> In x xs1 /\ In x xs2)
    /\ ys `sublist_of` xs2.
Proof.
  intros Hc Hpl Ha1 Ha2 Hxs1 Hlen Hxs2 Hmax Hf.
  destruct (intersect_arrays_start h array1 array2 first xs1 xs2 n
              Hc Ha1 Ha2 Hxs1 Hlen Hxs2) as [-> Hreads].
  exists (taken (set_of xs1) [] xs2). split; [|split; [|split]].
  - rewrite (intersect_loop_all h Hc Hpl array2 (set_of xs1)
               (isArray_value_in h _ Ha2) first _ Hf xs2 [] Hreads)
      by (simpl; lia).
    reflexivity.
  - apply taken_NoDup.
  - intros x. rewrite taken_In, set_of_In. simpl. tauto.
  - apply taken_sublist.
Qed.

Lemma intersect_common_values_witness :
  exists ys,
    intersect (VObj 10%nat) (VObj 11%nat) VUndef intersect_heap
    = Ret (VObj 14%nat, intersect_heap ++ [array_of ys])
    /\ List.NoDup ys
    /\ (forall x, In x ys <-> In x [VNum 1; VNum 2; VNum 2; VNum 3]
                              /\ In x [VNum 3; VNum 2; VNum 5; VNum 2; VNum 3])
    /\ ys `sublist_of` [VNum 3; VNum 2; VNum 5; VNum 2; VNum 3].
Proof.
  apply (intersect_common_values intersect_heap (VObj 10%nat) (VObj 11%nat) VUndef
           [VNum 1; VNum 2; VNum 2; VNum 3]
           [VNum 3; VNum 2; VNum 5; VNum 2; VNum 3] 5); vm_compute; reflexivity.
Defined.

Lemma find_existsb_members xs1 xs2 :
  List.find (fun x => existsb (same_value_zero x) (set_of xs1)) xs2
  = List.find (fun x => bool_decide (x ∈ xs1)) xs2.
Proof.
  induction xs2 as [|x xs2 IH]; [reflexivity|]. simpl. rewrite IH.
  destruct (existsb (same_value_zero x) (set_of xs1)) eqn:E.
  - apply existsb_same_value in E. rewrite set_of_In, <- list_elem_of_In in E.
    rewrite bool_decide_eq_true_2 by exact E. reflexivity.
  - apply existsb_same_value_false in E. rewrite set_of_In, <- list_elem_of_In in E.
    rewrite bool_decide_eq_false_2 by exact E. reflexivity.
Qed.

(** X7.  [intersect] of two arrays with [first]: the call returns the
    first value of the second array that is also in the first array, and
    [null] when there is none; the heap has grown by one empty array,
    which is not returned. *)
Theorem intersect_first_common h array1 array2 first xs1 xs2 n :
  closed_heap h = true ->
  isArray h array1 = true -> isArray h array2 = true ->
  elements_of h array1 = Ret xs1 ->
  get h array2 length_key = Ret (VNum n) -> elements_of h array2 = Ret xs2 ->
  truthy first = true ->
  intersect array1 array2 first h
  = Ret (default VNull (List.find (fun x => bool_decide (x ∈ xs1)) xs2),
         h ++ [array_of []]).
Proof.
  intros Hc Ha1 Ha2 Hxs1 Hlen Hxs2 Hf.
  destruct (intersect_arrays_start h array1 array2 first xs1 xs2 n
              Hc Ha1 Ha2 Hxs1 Hlen Hxs2) as [-> Hreads].
  rewrite (intersect_loop_first h Hc array2 (set_of xs1) (isArray_value_in h _ Ha2)
             first _ _ (pushed h []) Hf (pushed_prefix h []) xs2 Hreads).
  now rewrite find_existsb_members.
Qed.

Lemma intersect_first_common_witness :
  intersect (VObj 10%nat) (VObj 11%nat) (VBool true) intersect_heap
  = Ret (VNum 3, intersect_heap ++ [array_of []]).
Proof.
  apply (intersect_first_common intersect_heap (VObj 10%nat) (VObj 11%nat)
           (VBool true) [VNum 1; VNum 2; VNum 2; VNum 3]
           [VNum 3; VNum 2; VNum 5; VNum 2; VNum 3] 5); vm_compute; reflexivity.
Defined.

(** X8.  [flatten] of an array whose first element is the array itself
    goes down into it without end: whatever the fuel and the target, the
    call ends neither with a result nor with an error. *)
Theorem flatten_self_nested_runs_out s o m e w c e' w' c' fuel :
  forall target h,
    h !! s = Some o -> o_kind o = KArray ->
    lookup_prop length_key (o_props o) = Some (PData (VNum m) e w c) -> 0 < m ->
    lookup_prop (index_key 0) (o_props o) = Some (PData (VObj s) e' w' c') ->
    flatten fuel (VObj s) target h = OutOfFuel.
Proof.
  induction fuel as [|fuel IH]; intros target h Hs Hk Hlen Hm Hself; [reflexivity|].
  rewrite flatten_unfold.
  assert (G : forall result h', h' !! s = Some o ->
                (flatten_loop fuel (flatten fuel) (VObj s) result 0 ;; ret result) h'
                = OutOfFuel).
  { intros result h' Hs'. unfold bind at 1.
    destruct fuel as [|n]; [reflexivity|]. rewrite flatten_loop_unfold.
    unfold bind at 1. unfold read at 1.
    rewrite (get_own_data _ _ _ _ _ _ _ _ Hs' Hlen).
    unfold bind at 1. unfold read at 1. unfold below. cbn [to_integer obind].
    replace (0 <? m) with true by (symmetry; now apply Z.ltb_lt).
    unfold bind at 1. unfold read at 1. cbn [Z.to_N].
    rewrite (get_own_data _ _ _ _ _ _ _ _ Hs' Hself).
    unfold bind at 1. unfold pure_read at 1.
    assert (Harr : isArray h' (VObj s) = true).
    { unfold isArray. rewrite Hs'. now apply bool_decide_eq_true. }
    rewrite Harr. unfold bind at 1. unfold read at 1.
    rewrite (get_own_data _ _ _ _ _ _ _ _ Hs' Hself).
    unfold bind at 1. unfold bind at 1.
    now rewrite (IH result h' Hs' Hk Hlen Hm Hself). }
  destruct (truthy target).
  - unfold bind at 1. unfold ret at 1. now apply G.
  - unfold bind at 1. unfold bind at 1. unfold alloc at 1. unfold ret at 1.
    apply G. rewrite lookup_app_l; [exact Hs|]. eapply lookup_Some_lt; eauto.
Qed.

Lemma flatten_self_nested_runs_out_witness :
  flatten 50 (VObj 10%nat) VUndef (realm ++ [array_of [VObj 10%nat; VNum 1]])
  = OutOfFuel.
Proof.
  apply (flatten_self_nested_runs_out 10%nat (array_of [VObj 10%nat; VNum 1])
           2 false true false true true true 50).
  - reflexivity.
  - reflexivity.
  - reflexivity.
  - lia.
  - reflexivity.
Defined.

(** ** [reach] with its options *)







Example reach_examples :
  reach_with reach_heap (VObj 10%nat) (VStr "a.1.c") ReachOmitted = Ret (VStr "x")
  /\ reach_with reach_heap (VObj 10%nat) (VStr "a/-2") (ReachSeparator "/")
     = Ret (VNum 5)
  /\ reach_with reach_heap (VObj 10%nat) (VStr "a.x.c")
       (ReachObject (mkReachOptions None (Some (VNum 9)) None None None))
     = Ret (VNum 9)
  /\ reach_with reach_heap (VObj 10%nat) (VStr "a.x.c")
       (ReachObject (mkReachOptions None None (Some (VBool true)) None None))
     = Throw (HoekError "Missing segment")
  /\ reach_with reach_heap (VObj 13%nat) (VStr "1")
       (ReachObject (mkReachOptions None None None None (Some (VBool true))))
     = Ret (VStr "q")
  /\ reach_with reach_heap (VObj 14%nat) (VStr "k")
       (ReachObject (mkReachOptions None None None None (Some (VBool true))))
     = Ret (VNum 7).
Proof. repeat split; reflexivity. Qed.

Lemma string_of_Z_N z : 0 <= z -> string_of_Z z = string_of_N (Z.to_N z).
Proof. intros Hz. destruct z; try lia; reflexivity. Qed.

Lemma split_dot_plain s :
  forallb (fun c => negb (Ascii.eqb c ".")) (list_ascii_of_string s) = true ->
  split_dot s = [s].
Proof.
  induction s as [|c s IH]; [reflexivity|]. cbn [list_ascii_of_string forallb split_dot].
  intros H. apply andb_prop in H as [Hc Hs]. rewrite (IH Hs).
  apply negb_true_iff in Hc. now rewrite Hc.
Qed.

Lemma digits_no_dot u :
  forallb (fun c => negb (Ascii.eqb c "."))
    (list_ascii_of_string (NilEmpty.string_of_uint u)) = true.
Proof. induction u; simpl; auto. Qed.

Lemma string_of_N_no_dot n :
  forallb (fun c => negb (Ascii.eqb c ".")) (list_ascii_of_string (string_of_N n))
  = true.
Proof.
  unfold string_of_N, NilZero.string_of_uint.
  destruct (N.to_uint n); try reflexivity; apply digits_no_dot.
Qed.

Lemma number_of_negative k :
  number_of_string (String "-" (string_of_N k)) = Some (- Z.of_N k).
Proof.
  unfold number_of_string, string_of_N. rewrite NilZero.usu.
  - cbn [option_map]. now rewrite DecimalN.Unsigned.of_to.
  - destruct k; simpl; [discriminate|]. apply DecimalPos.Unsigned.to_uint_nonnil.
Qed.

(** X10.  On an array, a segment that spells a negative integer counts
    from the end: [reach(array, '-k')] is the element at [length - k],
    when there is one. *)
Theorem reach_negative_index h a o n e w c k x e' w' c' :
  h !! a = Some o -> o_kind o = KArray ->
  lookup_prop length_key (o_props o) = Some (PData (VNum n) e w c) ->
  (0 < k)%N -> Z.of_N k <= n ->
  lookup_prop (index_key (Z.to_N (n - Z.of_N k))) (o_props o)
  = Some (PData x e' w' c') ->
  x <> VUndef ->
  reach_with h (VObj a) (VStr (String "-" (string_of_N k))) ReachOmitted = Ret x.
Proof.
  intros Ha Hk Hlen Hpos Hle Hx Hdef.
  assert (Harr : isArray h (VObj a) = true).
  { unfold isArray. rewrite Ha. now apply bool_decide_eq_true. }
  assert (Hty : typeof h (VObj a) = TObject).
  { unfold typeof, is_function. rewrite Ha, Hk. reflexivity. }
  unfold reach_with, reach_path. cbn [strict_eq is_nullish orb reach_options].
  rewrite bool_decide_eq_false_2 by discriminate.
  replace (isArray h (VStr (String "-" (string_of_N k)))) with false by reflexivity.
  cbn [andb no_reach_options ro_separator flag default truthy].
  rewrite split_dot_plain
    by (cbn [list_ascii_of_string forallb Ascii.eqb]; apply string_of_N_no_dot).
  cbn [obind map reach_with_loop]. unfold iterables.
  cbn [ro_iterables flag default truthy ro_strict ro_functions ro_default].
  unfold reach_segment. rewrite Harr. unfold reach_key. rewrite Harr.
  cbn [to_integer obind]. rewrite number_of_negative.
  replace (- Z.of_N k <? 0) with true by (symmetry; apply Z.ltb_lt; lia).
  rewrite (get_own_data _ _ _ _ _ _ _ _ Ha Hlen). cbn [obind negb].
  rewrite Hty. rewrite (bool_decide_eq_false_2 (TObject = TFunction)) by discriminate.
  cbn [andb]. unfold get_value. cbn [to_key].
  rewrite string_of_Z_N by lia.
  replace (n + - Z.of_N k) with (n - Z.of_N k) by lia.
  change (KStr (string_of_N (Z.to_N (n - Z.of_N k))))
    with (index_key (Z.to_N (n - Z.of_N k))).
  rewrite (get_own_data _ _ _ _ _ _ _ _ Ha Hx). cbn [obind].
  assert (Hne : strict_eq x VUndef = false).
  { unfold strict_eq. destruct x; try reflexivity; try congruence;
      now apply bool_decide_eq_false. }
  rewrite Hne. reflexivity.
Qed.

Lemma reach_negative_index_witness :
  reach_with reach_heap (VObj 11%nat) (VStr "-2") ReachOmitted = Ret (VNum 5).
Proof.
  apply (reach_negative_index reach_heap 11%nat (array_of [VNum 5; VObj 12%nat])
           2 false true false 2%N (VNum 5) true true true);
    try reflexivity; try lia; discriminate.
Defined.

(** ** [reachTemplate] *)







(** ** [contain] with one value and no options *)

Section ContainOne.

Variable deepEqual : heap -> value -> value -> compareFlags -> bool.
Variable options : Options.
Hypothesis no_deep : truthy (flag (opt_deep options)) = false.
Hypothesis no_only : truthy (flag (opt_only options)) = false.
Hypothesis no_once : truthy (flag (opt_once options)) = false.

(** The verdict on one candidate that was matched [m] times. *)
Lemma verdict_one m misses :
  verdict options [m] misses = negb (Nat.eqb m 0).
Proof.
  unfold verdict. rewrite no_only. cbn [andb verdict_loop orb].
  rewrite no_once. cbn [andb orb].
  destruct (Nat.eqb m 0); destruct (negb (truthy (flag (opt_part options))));
    reflexivity.
Qed.

Lemma contain_array_loop_one h ref v idx :
  forall xs m misses,
    Forall2 (fun i x => get h ref (index_key (N.of_nat i)) = Ret x) idx xs ->
    exists m' misses',
      contain_array_loop deepEqual h options false ref [v] idx ([m], misses)
      = Ret ([m'], misses')
      /\ (negb (Nat.eqb m' 0) = negb (Nat.eqb m 0) || existsb (strict_eq v) xs).
Proof.
  induction idx as [|i idx IH]; intros xs m misses Hxs.
  - inversion Hxs; subst. exists m, misses. split; [reflexivity|].
    cbn [existsb]. now rewrite orb_false_r.
  - inversion Hxs as [|? x ? xs' Hx Hxs']; subst.
    cbn [contain_array_loop]. rewrite Hx. cbn [obind fst snd find_match].
    unfold compare. rewrite no_deep. cbn [negb orb andb].
    destruct (strict_eq v x) eqn:E.
    + cbn [increment]. unfold increment. cbn.
      destruct (IH xs' (S m) misses Hxs') as (m' & misses' & Hrun & Hm').
      exists m', misses'. split; [exact Hrun|]. rewrite Hm'. cbn [existsb].
      rewrite E. cbn. now rewrite orb_true_r.
    + destruct (IH xs' m true Hxs') as (m' & misses' & Hrun & Hm').
      exists m', misses'. split; [exact Hrun|]. rewrite Hm'. cbn [existsb].
      now rewrite E.
Qed.

End ContainOne.

(** X12.  [contain(array, value)] for one value that is not an array,
    without [deep], [only] and [once]: the answer is whether some element
    of the array is strictly equal to the value; NaN is never found. *)
Theorem contain_array_strict_member deepEqual h ref v options n xs :
  truthy (flag (opt_deep options)) = false ->
  truthy (flag (opt_only options)) = false ->
  truthy (flag (opt_once options)) = false ->
  isArray h ref = true -> isArray h v = false ->
  get h ref length_key = Ret (VNum n) -> elements_of h ref = Ret xs ->
  contain deepEqual h ref v options = Ret (existsb (strict_eq v) xs).
Proof.
  intros Hdeep Honly Honce Href Hv Hlen Hxs.
  pose proof (isArray_typeof _ _ Href) as Hty.
  assert (Hvals : contain_values h ref v = Ret (None, [v])).
  { unfold contain_values. rewrite Href, Hv. cbn [negb andb].
    now rewrite andb_false_r. }
  pose proof (elements_of_reads h ref n xs Hlen Hxs) as Hreads.
  destruct (contain_array_loop_one deepEqual options Hdeep h ref v _ xs 0%nat false
              Hreads) as (m' & misses' & Hrun & Hm').
  unfold contain. rewrite Hvals. cbn [obind fst snd List.length Nat.eqb repeat].
  rewrite Hty.
  replace (negb (bool_decide (TObject = TString) || bool_decide (TObject = TObject)))
    with false by reflexivity.
  destruct ref; try discriminate Href. rewrite Href.
  unfold contain_array. rewrite Hlen, Honly. cbn [obind andb].
  rewrite Hrun. cbn [obind].
  rewrite (verdict_one options Honly Honce), Hm'. reflexivity.
Qed.

Lemma contain_array_strict_member_witness :
  contain (fun _ _ _ _ => false) contain_heap (VObj 10%nat) (VNum 2) no_options
  = Ret true.
Proof.
  apply (contain_array_strict_member (fun _ _ _ _ => false) contain_heap
           (VObj 10%nat) (VNum 2) no_options 3 [VNum 1; VNum 2; VNum 2]);
    reflexivity.
Defined.

Section ContainRecord.

Variable deepEqual : heap -> value -> value -> compareFlags -> bool.
Variable options : Options.


End ContainRecord.




Lemma prefix_true t s : String.prefix t s = true <-> exists post, s = (t ++ post)%string.
Proof.
  revert s. induction t as [|c t IH]; intros s.
  - split; [intros _; now exists s|]. intros _. now destruct s.
  - destruct s as [|d s]; cbn [String.prefix].
    + split; [discriminate|]. intros [post H]. discriminate H.
    + destruct (ascii_dec c d) as [->|Hne].
      * rewrite IH. split; intros [post H]; exists post.
        -- now rewrite string_cons_app, H.
        -- rewrite string_cons_app in H. now injection H.
      * split; [discriminate|]. intros [post H]. rewrite string_cons_app in H.
        injection H as E _. congruence.
Qed.

Lemma drop_chars_length k s : (String.length (drop_chars k s) <= String.length s - k)%nat
                              \/ (String.length s < k)%nat.
Proof.
  revert s. induction k as [|k IH]; intros s; [left; simpl; lia|].
  destruct s as [|c s]; [right; simpl; lia|]. cbn [drop_chars String.length].
  destruct (IH s); [left|right]; lia.
Qed.

Lemma prefix_length t s : String.prefix t s = true -> (String.length t <= String.length s)%nat.
Proof.
  intros H. apply prefix_true in H as [post ->]. clear.
  induction t as [|c t IH]; [simpl; lia|]. rewrite string_cons_app. simpl. lia.
Qed.

(** The scan of a text for one candidate [t]: the candidate is counted
    when, and only when, it occurs in the text. *)
Lemma scan_one t n :
  forall s m,
    (String.length s < n)%nat ->
    exists m' left,
      scan n [VStr t] [t] s [m] = ([m'], left)
      /\ (m' <> 0%nat <->
          m <> 0%nat \/ exists pre post, s = (pre ++ t ++ post)%string).
Proof.
  assert (Hcount : forall m, count_match [VStr t] t [m] = [S m]).
  { intros m. unfold count_match. cbn [indexOf]. unfold strict_eq.
    rewrite bool_decide_eq_true_2 by reflexivity. reflexivity. }
  induction n as [|n IH]; intros s m Hn; [lia|]. cbn [scan first_alternative].
  destruct (String.prefix t s) eqn:Hp.
  - assert (Hsub : exists pre post, s = (pre ++ t ++ post)%string).
    { apply prefix_true in Hp as [post ->]. now exists "", post. }
    destruct t as [|c t].
    + rewrite Hcount. destruct s as [|d s].
      * exists (S m), "". split; [reflexivity|]. split; [auto|discriminate].
      * destruct (IH s (S m)) as (m' & left & Hrun & Hm'); [simpl in Hn; lia|].
        rewrite Hrun. exists m', (String d left). split; [reflexivity|].
        split; [auto|]. intros _. apply Hm'. now left.
    + rewrite Hcount.
      destruct (IH (drop_chars (String.length (String c t)) s) (S m))
        as (m' & left & Hrun & Hm').
      { pose proof (prefix_length _ _ Hp) as Hl.
        destruct (drop_chars_length (String.length (String c t)) s) as [H|H];
          simpl in *; lia. }
      rewrite Hrun. exists m', left. split; [reflexivity|].
      split; [auto|]. intros _. apply Hm'. now left.
  - destruct s as [|d s].
    + exists m, "". split; [reflexivity|]. split; [auto|].
      intros [H|(pre & post & H)]; [exact H|].
      destruct pre; [|discriminate H]. rewrite string_nil_app in H.
      destruct t; [discriminate Hp|discriminate H].
    + destruct (IH s m) as (m' & left & Hrun & Hm'); [simpl in Hn; lia|].
      rewrite Hrun. exists m', (String d left). split; [reflexivity|].
      cbn [fst]. rewrite Hm'. split.
      * intros [H|(pre & post & H)]; [now left|]. right.
        exists (String d pre), post. now rewrite string_cons_app, H.
      * intros [H|(pre & post & H)]; [now left|]. right.
        destruct pre as [|e pre].
        -- rewrite string_nil_app in H.
           assert (String.prefix t (String d s) = true)
             by (apply prefix_true; now exists post).
           congruence.
        -- rewrite string_cons_app in H. injection H as _ H. now exists pre, post.
Qed.

(** X14.  [contain(text, part)] for two strings, without [only] and
    [once]: the answer is whether [part] occurs in [text]. *)
Theorem contain_text_occurs deepEqual h s t options :
  truthy (flag (opt_only options)) = false ->
  truthy (flag (opt_once options)) = false ->
  exists answer,
    contain deepEqual h (VStr s) (VStr t) options = Ret answer
    /\ (answer = true <-> exists pre post, s = (pre ++ t ++ post)%string).
Proof.
  intros Honly Honce.
  destruct (scan_one t (S (String.length s)) s 0%nat ltac:(lia))
    as (m' & left & Hrun & Hm').
  exists (negb (Nat.eqb m' 0)). split.
  - unfold contain, contain_values.
    replace (typeof h (VStr s)) with TString by reflexivity.
    rewrite (bool_decide_eq_false_2 (TString = TObject)) by discriminate.
    cbn [andb]. replace (isArray h (VStr t)) with false by reflexivity.
    cbn [obind fst snd List.length Nat.eqb repeat].
    rewrite (bool_decide_eq_true_2 (TString = TString)) by reflexivity.
    cbn [orb negb]. unfold contain_string. cbn [all_strings foldr].
    rewrite Hrun. cbn [obind fst snd].
    now rewrite (verdict_one options Honly Honce).
  - rewrite negb_true_iff, Nat.eqb_neq, Hm'. split; [|auto].
    intros [H|H]; [congruence|exact H].
Qed.

Lemma contain_text_occurs_witness :
  exists answer,
    contain (fun _ _ _ _ => false) realm (VStr "abc") (VStr "bc") no_options
    = Ret answer
    /\ (answer = true <-> exists pre post, "abc" = (pre ++ "bc" ++ post)%string).
Proof.
  apply (contain_text_occurs (fun _ _ _ _ => false) realm "abc" "bc" no_options);
    reflexivity.
Defined.

(** ** [clone] writes to new objects only *)

Section ShallowLoops.

Variable newObj : loc.

Lemma clone_set_loop_shallow vs :
  forall seen (h0 h : heap) s' h',
    h0 `prefix_of` h -> (List.length h0 <= newObj)%nat ->
    clone_set_loop (fun v s => ret (v, s)) newObj vs seen h = Ret (s', h') ->
    h0 `prefix_of` h'.
Proof.
  induction vs as [|v vs IH]; intros seen h0 h s' h' Hp Hn H; simpl in H.
  - inv_run H. exact Hp.
  - apply bind_Ret in H as (r & h1 & Hr & H). apply ret_Ret in Hr as [-> ->].
    apply bind_Ret in H as ([] & h2 & Hadd & H).
    apply set_add_Ret in Hadd as (o' & ->).
    eapply IH in H; [exact H| |exact Hn]. now apply prefix_insert_ge.
Qed.

Lemma clone_map_loop_shallow es :
  forall seen (h0 h : heap) s' h',
    h0 `prefix_of` h -> (List.length h0 <= newObj)%nat ->
    clone_map_loop (fun v s => ret (v, s)) newObj es seen h = Ret (s', h') ->
    h0 `prefix_of` h'.
Proof.
  induction es as [|[k v] es IH]; intros seen h0 h s' h' Hp Hn H; simpl in H.
  - inv_run H. exact Hp.
  - apply bind_Ret in H as (r & h1 & Hr & H). apply ret_Ret in Hr as [-> ->].
    apply bind_Ret in H as ([] & h2 & Hset & H).
    apply map_set_Ret in Hset as (o' & ->).
    eapply IH in H; [exact H| |exact Hn]. now apply prefix_insert_ge.
Qed.

Lemma clone_keys_loop_shallow obj isArr ks :
  forall seen (h0 h : heap) s' h',
    h0 `prefix_of` h -> (List.length h0 <= newObj)%nat ->
    clone_keys_loop (fun v s => ret (v, s)) obj newObj isArr ks seen h
    = Ret (s', h') ->
    h0 `prefix_of` h'.
Proof.
  induction ks as [|k ks IH]; intros seen h0 h s' h' Hp Hn H; simpl in H.
  - inv_run H. exact Hp.
  - destruct (isArr && bool_decide (k = length_key)); [eapply IH; eauto|].
    apply bind_Ret in H as (d & hx & Hd & H). apply pure_read_Ret in Hd as [-> ->].
    destruct (has_accessor _).
    + apply bind_Ret in H as ([] & h1 & Hdef & H).
      eapply IH in H; [exact H| |exact Hn].
      destruct (get_own h obj k).
      * apply define_property_Ret in Hdef as (o & o' & _ & _ & ->).
        now apply prefix_insert_ge.
      * apply ret_Ret in Hdef as [_ ->]. exact Hp.
    + apply bind_Ret in H as (v & hx & Hv & H). apply read_Ret in Hv as [_ ->].
      apply bind_Ret in H as (r & h1 & Hr & H). apply ret_Ret in Hr as [-> ->].
      apply bind_Ret in H as ([] & h2 & Hdef & H).
      apply define_property_Ret in Hdef as (o & o' & _ & _ & ->).
      eapply IH in H; [exact H| |exact Hn]. now apply prefix_insert_ge.
Qed.

End ShallowLoops.

Lemma clone_frame_shallow fuel v options h c h' :
  flag (opt_shallow options) = VBool true ->
  clone fuel v options h = Ret (c, h') -> h `prefix_of` h'.
Proof.
  intros Hsh H. unfold clone in H. apply bind_Ret in H as (r & h1 & H & Hret).
  apply ret_Ret in Hret as [_ ->].
  destruct fuel as [|fuel]; [discriminate H|].
  rewrite clone_seen_unfold in H.
  apply bind_Ret in H as (ty & hx & Hty & H). apply pure_read_Ret in Hty as [-> ->].
  destruct (negb (bool_decide (typeof h v = TObject)) || bool_decide (v = VNull)).
  { apply ret_Ret in H as [_ ->]. reflexivity. }
  destruct v as [| | | | | | |l]; try (apply ret_Ret in H as [_ ->]; reflexivity).
  cbv zeta in H. rewrite Hsh in H. cbn [truthy strict_eq andb negb] in H.
  rewrite bool_decide_eq_true_2 in H by reflexivity. cbn [negb] in H.
  apply bind_Ret in H as (bp & hx & Hbp & H). apply pure_read_Ret in Hbp as [-> ->].
  apply bind_Ret in H as (base & hb & Hbase & H).
  apply clone_base_Ret in Hbase as [[-> ->] | (o & -> & [-> | [-> _]])].
  - apply ret_Ret in H as [_ ->]. reflexivity.
  - cbn [fmap option_fmap option_map] in H.
    assert (Hp0 : h `prefix_of` h ++ [o]) by now apply prefix_app_r.
    apply bind_Ret in H as (sa & ha & Hloops & H).
    assert (Hp1 : h `prefix_of` ha).
    { destruct (bool_decide (getInternalProto h l = SetPrototype)).
      - apply bind_Ret in Hloops as (vs & hx & Hvs & Hloops).
        apply pure_read_Ret in Hvs as [-> ->].
        eapply clone_set_loop_shallow in Hloops; [exact Hloops|exact Hp0|lia].
      - destruct (bool_decide (getInternalProto h l = MapPrototype)).
        + apply bind_Ret in Hloops as (es & hx & Hes & Hloops).
          apply pure_read_Ret in Hes as [-> ->].
          eapply clone_map_loop_shallow in Hloops; [exact Hloops|exact Hp0|lia].
        + apply ret_Ret in Hloops as [_ ->]. exact Hp0. }
    apply bind_Ret in H as (ks & hx & Hks & H). apply read_Ret in Hks as [_ ->].
    apply bind_Ret in H as (sb & hk & Hkeys & H).
    eapply clone_keys_loop_shallow in Hkeys; [|exact Hp1|lia].
    apply bind_Ret in H as ([] & hl & Hlen & H). apply ret_Ret in H as [_ ->].
    destruct (bool_decide (getInternalProto h l = ArrayPrototype)).
    + apply bind_Ret in Hlen as (len & hx & Hl & Hlen). apply read_Ret in Hl as [_ ->].
      apply set_prop_writes in Hlen as (l' & o' & [= <-] & ->).
      apply prefix_insert_ge; [exact Hkeys|lia].
    + apply ret_Ret in Hlen as [_ ->]. exact Hkeys.
  - apply ret_Ret in H as [_ ->]. now apply prefix_app_r.
Qed.

(** X15.  [clone] never writes to an object that exists: when
    [options.shallow] is not a list of keys, the heap that a call returns
    is the heap it was given, followed by the new objects. *)
Theorem clone_extends_heap fuel v options h c h' :
  shallow_keys options = false ->
  clone fuel v options h = Ret (c, h') -> h `prefix_of` h'.
Proof.
  intros Hsh H. unfold shallow_keys in Hsh.
  destruct (truthy (flag (opt_shallow options))) eqn:Ht.
  - cbn [andb] in Hsh. apply negb_false_iff in Hsh.
    assert (E : flag (opt_shallow options) = VBool true).
    { unfold strict_eq in Hsh.
      destruct (flag (opt_shallow options)); try discriminate Ht;
        apply bool_decide_eq_true in Hsh; try discriminate Hsh; exact Hsh. }
    eapply clone_frame_shallow; eauto.
  - eapply clone_frame; eauto.
Qed.

Lemma clone_extends_heap_witness :
  exists c h', clone 3 (VObj 10%nat) no_options merge_heap = Ret (c, h')
               /\ merge_heap `prefix_of` h'.
Proof.
  do 2 eexists. split; [vm_compute; reflexivity|].
  eapply (clone_extends_heap 3 (VObj 10%nat) no_options merge_heap);
    [reflexivity|vm_compute; reflexivity].
Defined.

(** ** [applyToDefaults] leaves its arguments as they were *)

Lemma merge_Ret_target fuel target source options h r h' :
  merge fuel target source options h = Ret (r, h') ->
  exists t, target = VObj t /\ typeof h target = TObject.
Proof.
  intros H. destruct fuel as [|fuel]; [discriminate H|]. rewrite merge_unfold in H.
  apply bind_Ret in H as (ok1 & hx & Hok & H). apply pure_read_Ret in Hok as [-> ->].
  apply bind_Ret in H as ([] & hx & Ha & _). apply assert_Ret in Ha as [Ha _].
  apply andb_prop in Ha as [Ht Hty]. apply bool_decide_eq_true in Hty.
  destruct target; try discriminate Ht; try discriminate Hty. eauto.
Qed.

(** X16.  [applyToDefaults], when [options.shallow] is falsy, leaves
    [defaults] and [source] as they were: every object of a region of
    the heap that holds the prototypes of its objects, none of them
    immutable, and into which no object outside it and no prototype
    leads, is after the call what it was before. *)
Theorem applyToDefaults_leaves_region (P : loc -> Prop) fuel defaults source
    options h r h' :
  protected_ok P h -> guarded P h h ->
  truthy (flag (opt_shallow options)) = false ->
  applyToDefaults fuel defaults source options h = Ret (r, h') ->
  forall l, P l -> h' !! l = h !! l.
Proof.
  intros Hok Hg Hsh H l Hl. unfold applyToDefaults in H.
  apply bind_Ret in H as (ok1 & hx & Hr & H). apply pure_read_Ret in Hr as [-> ->].
  apply bind_Ret in H as ([] & hx & Ha & H). apply assert_Ret in Ha as [_ ->].
  apply bind_Ret in H as (ok2 & hx & Hr & H). apply pure_read_Ret in Hr as [-> ->].
  apply bind_Ret in H as ([] & hx & Ha & H). apply assert_Ret in Ha as [_ ->].
  destruct (negb (truthy source)).
  { apply ret_Ret in H as [_ ->]. reflexivity. }
  rewrite Hsh in H.
  apply bind_Ret in H as (copy & h1 & Hclone & H).
  eapply (clone_guarded P h Hok) in Hclone as (Hs1 & Hg1 & Hout);
    [|reflexivity|apply protected_same_refl|exact Hg].
  destruct (strict_eq source (VBool true)).
  { apply ret_Ret in H as [_ ->]. now apply Hs1. }
  pose proof (merge_Ret_target _ _ _ _ _ _ _ H) as (t & -> & Hty).
  eapply (merge_guarded P h Hok) in H as [[_ Hsame] _];
    [now apply Hsame| |exact Hs1|exact Hg1].
  eapply outside_object_not_protected; eauto.
Qed.

Lemma merge_heap_all_ok : protected_ok (all_of merge_heap) merge_heap.
Proof.
  split; [|split].
  - intros l Hl. exact Hl.
  - intros l o p Hl Ho Hp. unfold all_of in *. simpl in Hl.
    do 12 (destruct l as [|l]; [vm_compute in Ho; injection Ho as <-;
                                vm_compute in Hp; try discriminate Hp;
                                injection Hp as <-; simpl; lia|]).
    simpl in Hl. lia.
  - intros l o p Hl Ho Hp. unfold all_of in *. simpl in Hl.
    do 12 (destruct l as [|l]; [vm_compute in Ho; injection Ho as <-;
                                vm_compute in Hp; try discriminate Hp;
                                injection Hp as <-; exists VUndef;
                                split; reflexivity|]).
    simpl in Hl. lia.
Defined.

Lemma merge_heap_all_guarded : guarded (all_of merge_heap) merge_heap merge_heap.
Proof.
  intros l o Hl _ k v e w c Hin x -> _.
  assert (Hall : Forall (fun o => forall k e w c x,
                           ~ In (k, PData (VObj x) e w c) (o_props o)) merge_heap).
  { repeat constructor; intros k0 e0 w0 c0 x0 H0; simpl in H0;
      repeat (destruct H0 as [H0|H0]; [discriminate H0|]); exact H0. }
  exfalso. eapply (proj1 (Forall_lookup _ _) Hall); eauto.
Defined.

Lemma applyToDefaults_leaves_region_witness :
  exists r h',
    applyToDefaults 3 (VObj 10%nat) (VObj 11%nat) no_options merge_heap = Ret (r, h')
    /\ h' !! 10%nat = merge_heap !! 10%nat
    /\ h' !! 11%nat = merge_heap !! 11%nat.
Proof.
  do 2 eexists. split; [vm_compute; reflexivity|].
  split;
    eapply (applyToDefaults_leaves_region (all_of merge_heap) 3 (VObj 10%nat)
              (VObj 11%nat) no_options merge_heap _ _ merge_heap_all_ok
              merge_heap_all_guarded);
    try reflexivity; try (vm_compute; reflexivity); unfold all_of; simpl; lia.
Defined.

(** ** The copy that [clone] makes of a record of plain values *)

Lemma insert_index_perm n k l : insert_index n k l ≡ₚ (n, k) :: l.
Proof.
  induction l as [|[m k'] l IH]; [reflexivity|]. simpl.
  destruct (n <? m)%N; [reflexivity|]. rewrite IH. apply Permutation_swap.
Qed.

Lemma sort_indices_perm l : sort_indices l ≡ₚ l.
Proof.
  unfold sort_indices. induction l as [|[n k] l IH]; [reflexivity|]. simpl.
  rewrite insert_index_perm. now rewrite IH.
Qed.

Lemma index_entries_keys ks :
  map snd (index_entries ks)
  = List.filter (fun k => negb (is_plain_string_key k) && negb (is_symbol_key k)) ks.
Proof.
  unfold index_entries. induction ks as [|k ks IH]; [reflexivity|].
  cbn [omap list_omap List.filter]. unfold is_plain_string_key at 1.
  destruct k as [s|n].
  - destruct (array_index (KStr s)) eqn:E; cbn [negb andb is_symbol_key map snd];
      now rewrite <- IH.
  - cbn [array_index negb andb is_symbol_key]. exact IH.
Qed.

Lemma ordered_keys_perm ks : ordered_keys ks ≡ₚ ks.
Proof.
  unfold ordered_keys. rewrite sort_indices_perm, index_entries_keys.
  induction ks as [|k ks IH]; [reflexivity|]. simpl.
  destruct (is_plain_string_key k) eqn:Ep; destruct (is_symbol_key k) eqn:Es; simpl.
  - destruct k; discriminate.
  - rewrite <- Permutation_middle. now rewrite IH.
  - rewrite app_assoc, <- Permutation_middle, <- app_assoc. now rewrite IH.
  - now rewrite IH.
Qed.

Lemma keys_NoDup h l o options ks :
  h !! l = Some o -> List.NoDup (map fst (o_props o)) ->
  keys h (VObj l) options = Ret ks -> List.NoDup ks.
Proof.
  intros Hl Hnd H. unfold keys in H. rewrite Hl in H. injection H as <-.
  assert (Hk : List.NoDup (own_keys o)).
  { unfold own_keys. eapply Permutation_NoDup; [|exact Hnd].
    symmetry. apply ordered_keys_perm. }
  destruct (negb _); [exact Hk|]. unfold own_names. now apply List.NoDup_filter.
Qed.

Lemma clone_seen_plain fuel v options seen h :
  plain_value h v = true ->
  clone_seen (S fuel) v options seen h = Ret ((v, seen), h).
Proof.
  intros Hv. rewrite clone_seen_unfold. unfold bind, pure_read.
  unfold plain_value in Hv. now rewrite Hv.
Qed.

Lemma plain_value_extends (h h' : heap) v :
  h `prefix_of` h' -> plain_value h v = true -> plain_value h' v = true.
Proof.
  intros Hp Hv. destruct v; try exact Hv. unfold plain_value in *.
  rewrite orb_true_iff in *. destruct Hv as [Hv|Hv]; [left|now right].
  apply negb_true_iff in Hv. apply bool_decide_eq_false in Hv.
  apply negb_true_iff, bool_decide_eq_false. unfold typeof, is_function in *.
  destruct (h !! l) as [o|] eqn:Hl; [|congruence].
  now rewrite (prefix_lookup h h' l Hp (lookup_Some_lt _ _ _ Hl)), Hl.
Qed.

Lemma copied_props_lookup_None o ks k :
  ~ In k ks -> lookup_prop k (copied_props o ks) = None.
Proof.
  intros Hk. destruct (lookup_prop k (copied_props o ks)) as [p|] eqn:E; [|reflexivity].
  exfalso. apply Hk. apply lookup_prop_In in E. unfold copied_props in E.
  apply list_elem_of_In, list_elem_of_omap in E as (k' & Hin & E).
  apply list_elem_of_In in Hin.
  destruct (lookup_prop k' (o_props o)) as [[? ? ? ?|]|]; try discriminate.
  now injection E as <- _.
Qed.

Lemma copied_props_snoc o ks k v e w c :
  lookup_prop k (o_props o) = Some (PData v e w c) ->
  copied_props o (ks ++ [k]) = copied_props o ks ++ [(k, PData v e true true)].
Proof.
  intros Hk. unfold copied_props. rewrite omap_app. cbn [omap list_omap].
  now rewrite Hk.
Qed.

Lemma define_property_copy h o pr done k p :
  ~ In k done ->
  define_property (List.length h) k p
    (h ++ [mkObj KGeneric pr true (copied_props o done)])
  = Ret (tt, h ++ [mkObj KGeneric pr true (copied_props o done ++ [(k, p)])]).
Proof.
  intros Hk. unfold define_property. rewrite lookup_snoc. cbn [o_props o_extensible].
  rewrite (copied_props_lookup_None o done k Hk).
  unfold bump_length, with_props. cbn [o_kind o_proto o_extensible o_props obind].
  rewrite update_prop_new by now apply copied_props_lookup_None.
  now rewrite insert_snoc.
Qed.

Section CopyRecord.

Variables (fuel : nat) (options : Options) (h : heap) (l : loc) (o : obj).
Variable pr : option loc.
Hypothesis source : h !! l = Some o.
Hypothesis plain_source : plain_props h o = true.

Lemma plain_props_lookup k :
  In k (map fst (o_props o)) ->
  exists v e w c, lookup_prop k (o_props o) = Some (PData v e w c)
                  /\ plain_value h v = true.
Proof.
  intros Hin. destruct (lookup_prop k (o_props o)) as [p|] eqn:E.
  - pose proof (lookup_prop_In _ _ _ E) as Hp.
    unfold plain_props in plain_source. rewrite forallb_forall in plain_source.
    specialize (plain_source _ Hp). cbn [snd] in plain_source.
    destruct p as [v e w c|]; [|discriminate]. eauto 6.
  - now apply lookup_prop_None in E.
Qed.

Lemma clone_keys_loop_copy ks :
  forall done (s : seen_map),
    (forall k, In k ks -> In k (map fst (o_props o))) ->
    List.NoDup (done ++ ks) ->
    clone_keys_loop (fun v s => clone_seen (S fuel) v options s) l (List.length h)
      false ks (Some s) (h ++ [mkObj KGeneric pr true (copied_props o done)])
    = Ret (Some s, h ++ [mkObj KGeneric pr true (copied_props o (done ++ ks))]).
Proof.
  induction ks as [|k ks IH]; intros done s Hin Hnd.
  - now rewrite app_nil_r.
  - cbn [clone_keys_loop andb].
    destruct (plain_props_lookup k (Hin k (or_introl eq_refl)))
      as (v & e & w & c & Hk & Hv).
    set (hc := h ++ [mkObj KGeneric pr true (copied_props o done)]).
    assert (Hp : h `prefix_of` hc) by now apply prefix_app_r.
    assert (Hl : hc !! l = Some o).
    { rewrite (prefix_lookup h hc l Hp); [exact source|].
      eapply lookup_Some_lt; eauto. }
    unfold bind at 1. unfold pure_read at 1. unfold get_own. rewrite Hl, Hk.
    cbn [has_accessor]. unfold bind at 1. unfold read at 1.
    rewrite (get_own_data _ _ _ _ _ _ _ _ Hl Hk).
    unfold bind at 1.
    rewrite clone_seen_plain by (eapply plain_value_extends; eauto).
    cbn [fst snd descriptor_enumerable prop_enumerable]. unfold bind at 1.
    subst hc. rewrite define_property_copy.
    + rewrite <- (copied_props_snoc o done k v e w c Hk).
      rewrite IH.
      * now rewrite <- app_assoc.
      * intros k' Hk'. apply Hin. now right.
      * now rewrite <- app_assoc.
    + apply List.NoDup_remove in Hnd as [_ Hd]. intros Hkd. apply Hd.
      apply in_or_app. now left.
Qed.

End CopyRecord.

Lemma clone_base_generic l o options h :
  h !! l = Some o -> o_kind o = KGeneric ->
  (strict_eq (flag (opt_prototype options)) (VBool false) = false ->
   forall p, o_proto o = Some p ->
             exists v, get h (VObj p) isImmutable_key = Ret v /\ truthy v = false) ->
  clone_base l ObjectPrototype options h
  = Ret (inr (List.length h),
         h ++ [mkObj KGeneric
                 (if strict_eq (flag (opt_prototype options)) (VBool false)
                  then Some ObjectPrototype else o_proto o) true []]).
Proof.
  intros Hl Hk Himm. unfold clone_base.
  rewrite !bool_decide_eq_false_2 by discriminate.
  destruct (strict_eq (flag (opt_prototype options)) (VBool false)) eqn:Hpr.
  - cbn [negb needsProtoHack orb]. reflexivity.
  - cbn [negb]. unfold bind at 1. unfold pure_read at 1. unfold proto_of. rewrite Hl.
    destruct (o_proto o) as [p|] eqn:Hp.
    + destruct (Himm eq_refl p eq_refl) as (v & Hv & Hf).
      unfold bind at 1. unfold read at 1. rewrite Hv, Hf. reflexivity.
    + reflexivity.
Qed.

(** X17.  [clone] of an object of the plain class whose own properties
    are all data properties with values that are not objects: the call
    returns a new object with the prototype of the source (the prototype
    of objects when [options.prototype] is [false]) and one property per
    key listed, in that order, with the value and the enumerability of
    the source; whatever the source says, every property of the copy is
    writable and configurable. *)
Theorem clone_plain_record fuel l o options h ks :
  h !! l = Some o -> o_kind o = KGeneric -> plain_props h o = true ->
  List.NoDup (map fst (o_props o)) ->
  truthy (flag (opt_shallow options)) = false ->
  (strict_eq (flag (opt_prototype options)) (VBool false) = false ->
   forall p, o_proto o = Some p ->
             exists v, get h (VObj p) isImmutable_key = Ret v /\ truthy v = false) ->
  keys h (VObj l) options = Ret ks ->
  clone (S (S fuel)) (VObj l) options h
  = Ret (VObj (List.length h),
         h ++ [mkObj KGeneric
                 (if strict_eq (flag (opt_prototype options)) (VBool false)
                  then Some ObjectPrototype else o_proto o)
                 true (copied_props o ks)]).
Proof.
  intros Hl Hk Hplain Hnd Hsh Himm Hks.
  assert (Hty : typeof h (VObj l) = TObject).
  { unfold typeof, is_function. rewrite Hl, Hk. reflexivity. }
  assert (Hbp : getInternalProto h l = ObjectPrototype).
  { unfold getInternalProto. now rewrite Hl, Hk. }
  unfold clone. unfold bind at 1. rewrite clone_seen_unfold.
  unfold bind at 1. unfold pure_read at 1. rewrite Hty.
  rewrite bool_decide_eq_true_2 by reflexivity.
  rewrite bool_decide_eq_false_2 by discriminate.
  cbn [negb orb]. cbv zeta. rewrite Hsh. cbn [andb].
  change (default ∅ None) with (∅ : seen_map). rewrite lookup_empty.
  unfold bind at 1. unfold pure_read at 1. rewrite Hbp.
  unfold bind at 1. rewrite (clone_base_generic l o options h Hl Hk Himm).
  rewrite !bool_decide_eq_false_2 by discriminate.
  unfold bind at 1. unfold ret at 1.
  set (pr := if strict_eq (flag (opt_prototype options)) (VBool false)
             then Some ObjectPrototype else o_proto o).
  unfold bind at 1. unfold read at 1.
  assert (Hks' : keys (h ++ [mkObj KGeneric pr true []]) (VObj l) options = Ret ks).
  { unfold keys in *. rewrite lookup_app_l by (eapply lookup_Some_lt; eauto).
    exact Hks. }
  rewrite Hks'. unfold bind at 1. cbn [fmap option_fmap option_map].
  change (mkObj KGeneric pr true []) with (mkObj KGeneric pr true (copied_props o [])).
  rewrite (clone_keys_loop_copy fuel options h l o pr Hl Hplain ks []).
  - unfold bind at 1. unfold ret at 1. reflexivity.
  - intros k Hin. eapply keys_In in Hin; eauto.
    destruct Hin as [Hin _]. exact Hin.
  - eapply keys_NoDup; eauto.
Qed.

Lemma clone_plain_record_witness :
  clone 2 (VObj 10%nat) no_options flags_heap
  = Ret (VObj 11%nat,
         flags_heap ++ [plain (Some ObjectPrototype)
                          [(KStr "a", PData (VNum 1) true true true);
                           (KStr "b", PData (VStr "x") false true true)]]).
Proof.
  apply (clone_plain_record 0 10%nat
           (plain (Some ObjectPrototype)
              [(KStr "a", PData (VNum 1) true false true);
               (KStr "b", PData (VStr "x") false true false)])
           no_options flags_heap [KStr "a"; KStr "b"]); try reflexivity.
  - repeat constructor; simpl; intuition discriminate.
  - intros _ p [= <-]. exists VUndef. split; reflexivity.
Defined.

(** ** A deep copy shares nothing with its source *)



(** ** Where the error of the library can come from *)

Lemma quiet_at_bind {A B} (m : M A) (f : A -> M B) h :
  quiet_at m h ->
  (forall a h1, m h = Ret (a, h1) -> quiet_at (f a) h1) ->
  quiet_at (bind m f) h.
Proof.
  intros Hm Hf msg. unfold bind. specialize (Hm msg).
  destruct (m h) as [[a h1]|e| |] eqn:E; try discriminate.
  - now apply Hf.
  - congruence.
Qed.

Lemma quiet_bind {A B} (m : M A) (f : A -> M B) :
  quiet m -> (forall a, quiet (f a)) -> quiet (bind m f).
Proof. intros Hm Hf h. apply quiet_at_bind; [apply Hm|]. intros a h1 _. apply Hf. Qed.

Lemma quiet_ret {A} (a : A) : quiet (ret a).
Proof. intros h msg. discriminate. Qed.

Lemma quiet_pure_read {A} (f : heap -> A) : quiet (pure_read f).
Proof. intros h msg. discriminate. Qed.

Lemma quiet_read_at {A} (f : heap -> outcome A) h :
  quiet_read (f h) -> quiet_at (read f) h.
Proof.
  intros Hf msg. unfold read. specialize (Hf msg).
  destruct (f h); try discriminate. congruence.
Qed.

Lemma quiet_alloc o : quiet (alloc o).
Proof. intros h msg. discriminate. Qed.

Lemma quiet_obind {A B} (r : outcome A) (f : A -> outcome B) :
  quiet_read r -> (forall a, quiet_read (f a)) -> quiet_read (obind r f).
Proof.
  intros Hr Hf msg. specialize (Hr msg).
  destruct r; cbn [obind]; try discriminate; [apply Hf|congruence].
Qed.

Lemma quiet_lookup_chain n h l k : quiet_read (lookup_chain n h l k).
Proof.
  revert l. induction n as [|n IH]; intros l msg; [discriminate|]. simpl.
  destruct (h !! l) as [o|]; [|discriminate].
  destruct (lookup_prop k (o_props o)); [discriminate|].
  destruct (o_proto o); [apply IH|discriminate].
Qed.

Lemma quiet_get h v k : quiet_read (get h v k).
Proof.
  unfold get. destruct v; try (intros msg; discriminate).
  unfold get_from. apply quiet_obind; [apply quiet_lookup_chain|].
  intros [[? ? ? ?|[] ? ? ?]|] msg; discriminate.
Qed.

Lemma quiet_keys h v options : quiet_read (keys h v options).
Proof.
  unfold keys. intros msg. destruct v; try discriminate.
  destruct (h !! l); discriminate.
Qed.

Lemma quiet_to_integer v : quiet_read (to_integer v).
Proof. intros msg. destruct v as [| |[]| | | | |]; discriminate. Qed.

Lemma quiet_bump_length k o : quiet_read (bump_length k o).
Proof.
  intros msg. unfold bump_length. destruct (o_kind o); try discriminate.
  destruct (array_index k); [|discriminate].
  destruct (_ <? _)%N; [discriminate|].
  destruct (lookup_prop _ _) as [[? ? [] ?|]|]; discriminate.
Qed.

Lemma quiet_assign_own o k v e c : quiet_read (assign_own o k v e c).
Proof.
  unfold assign_own. destruct (_ && _); [|apply quiet_bump_length].
  apply quiet_obind.
  - unfold to_length. apply quiet_obind; [apply quiet_to_integer|].
    intros [n|] msg; [|discriminate]. destruct (_ && _); discriminate.
  - intros n msg. unfold set_array_length. destruct (forallb _ _); discriminate.
Qed.

Lemma quiet_set_prop ref k v : quiet (set_prop ref k v).
Proof.
  intros h msg. unfold set_prop. destruct ref; try discriminate.
  destruct (h !! l) as [o|]; [|discriminate].
  destruct (lookup_prop k (o_props o)) as [[? ? [] ?|? [] ? ?]|]; try discriminate.
  - apply (quiet_obind _ _ (quiet_assign_own _ _ _ _ _)). intros a m. discriminate.
  - apply quiet_obind.
    + unfold inherited_prop. destruct (o_proto o); [apply quiet_lookup_chain|].
      intros m. discriminate.
    + intros [[? ? [] ?|? [] ? ?]|] m; try discriminate;
        (destruct (o_extensible o); [|discriminate]);
        (apply (quiet_obind _ _ (quiet_assign_own _ _ _ _ _)); intros a m'; discriminate).
Qed.

Lemma quiet_define_property l k p : quiet (define_property l k p).
Proof.
  intros h msg. unfold define_property. destruct (h !! l) as [o|]; [|discriminate].
  assert (Hd : quiet_read
                 (let? o' := bump_length k (with_props o (update_prop k p (o_props o)))
                  in Ret (tt, <[l := o']> h))).
  { apply (quiet_obind _ _ (quiet_bump_length _ _)). intros a m. discriminate. }
  destruct (lookup_prop k (o_props o)) as [cur|].
  - destruct (prop_configurable cur); [apply Hd|discriminate].
  - destruct (o_extensible o); [apply Hd|discriminate].
Qed.

Lemma quiet_set_add l v : quiet (set_add l v).
Proof.
  intros h msg. unfold set_add. destruct (h !! l) as [o|]; [|discriminate].
  destruct (o_kind o); try discriminate. destruct (existsb _ _); discriminate.
Qed.

Lemma quiet_map_set l k v : quiet (map_set l k v).
Proof.
  intros h msg. unfold map_set. destruct (h !! l) as [o|]; [|discriminate].
  destruct (o_kind o); discriminate.
Qed.

Lemma quiet_push target v : quiet (push target v).
Proof.
  unfold push. intros h. apply quiet_at_bind; [apply quiet_read_at, quiet_get|].
  intros len h1 _. destruct len; try (intros msg; discriminate).
  apply quiet_bind; [apply quiet_set_prop|]. intros _. apply quiet_set_prop.
Qed.

Lemma quiet_clone_base l baseProto options : quiet (clone_base l baseProto options).
Proof.
  unfold clone_base.
  repeat (destruct (bool_decide _);
          [apply quiet_bind; [apply quiet_pure_read|]; intros ?;
           apply quiet_bind; [apply quiet_alloc|]; intros ?; apply quiet_ret|]).
  destruct (bool_decide _).
  { apply quiet_bind; [apply quiet_alloc|]. intros ?. apply quiet_ret. }
  destruct (negb _).
  - apply quiet_bind; [apply quiet_pure_read|]. intros proto.
    apply quiet_bind.
    + destruct proto; [|apply quiet_ret]. intros h. apply quiet_read_at, quiet_get.
    + intros immutable. destruct (truthy immutable); [apply quiet_ret|].
      destruct (needsProtoHack baseProto).
      * destruct proto; [|intros h msg; discriminate].
        apply quiet_bind; [apply quiet_alloc|]. intros ?. apply quiet_ret.
      * apply quiet_bind; [apply quiet_alloc|]. intros ?. apply quiet_ret.
  - destruct (needsProtoHack baseProto);
      (apply quiet_bind; [apply quiet_alloc|]; intros ?; apply quiet_ret).
Qed.

Section QuietLoops.

Variable clone : clone_fn.
Hypothesis quiet_clone : forall v s, quiet (clone v s).

Lemma quiet_clone_set_loop newObj vs : forall seen, quiet (clone_set_loop clone newObj vs seen).
Proof.
  induction vs as [|v vs IH]; intros seen; simpl; [apply quiet_ret|].
  apply quiet_bind; [apply quiet_clone|]. intros r.
  apply quiet_bind; [apply quiet_set_add|]. intros _. apply IH.
Qed.

Lemma quiet_clone_map_loop newObj es : forall seen, quiet (clone_map_loop clone newObj es seen).
Proof.
  induction es as [|[k v] es IH]; intros seen; simpl; [apply quiet_ret|].
  apply quiet_bind; [apply quiet_clone|]. intros r.
  apply quiet_bind; [apply quiet_map_set|]. intros _. apply IH.
Qed.

Lemma quiet_clone_keys_loop obj newObj isArr ks :
  forall seen, quiet (clone_keys_loop clone obj newObj isArr ks seen).
Proof.
  induction ks as [|k ks IH]; intros seen; simpl; [apply quiet_ret|].
  destruct (isArr && _); [apply IH|].
  apply quiet_bind; [apply quiet_pure_read|]. intros d.
  destruct (has_accessor d).
  - apply quiet_bind; [|intros _; apply IH].
    destruct d; [apply quiet_define_property|apply quiet_ret].
  - apply quiet_bind; [intros h; apply quiet_read_at, quiet_get|]. intros v.
    apply quiet_bind; [apply quiet_clone|]. intros r.
    apply quiet_bind; [apply quiet_define_property|]. intros _. apply IH.
Qed.

End QuietLoops.

(** A [clone] whose [options.shallow] is not a list of keys never ends
    with the error of the library. *)
Lemma quiet_clone_seen fuel options :
  shallow_keys options = false ->
  forall v seen, quiet (clone_seen fuel v options seen).
Proof.
  intros Hsh. induction fuel as [|fuel IH]; intros v seen.
  - intros h msg. discriminate.
  - rewrite clone_seen_unfold. apply quiet_bind; [apply quiet_pure_read|]. intros ty.
    destruct (negb _ || _); [apply quiet_ret|].
    destruct v; try apply quiet_ret. cbv zeta.
    unfold shallow_keys in Hsh. rewrite Hsh.
    set (cl := if truthy (flag (opt_shallow options))
               then (fun v s => ret (v, s)) : clone_fn
               else fun v s => clone_seen fuel v options s).
    assert (Hcl : forall v s, quiet (cl v s)).
    { subst cl. destruct (truthy _); intros v s; [apply quiet_ret|apply IH]. }
    destruct (if truthy (flag (opt_shallow options)) then None else _);
      [apply quiet_ret|].
    apply quiet_bind; [apply quiet_pure_read|]. intros bp.
    apply quiet_bind; [apply quiet_clone_base|]. intros [x|newObj]; [apply quiet_ret|].
    apply quiet_bind.
    { destruct (bool_decide _).
      - apply quiet_bind; [apply quiet_pure_read|]. intros vs.
        now apply quiet_clone_set_loop.
      - destruct (bool_decide _); [|apply quiet_ret].
        apply quiet_bind; [apply quiet_pure_read|]. intros es.
        now apply quiet_clone_map_loop. }
    intros s1. apply quiet_bind; [intros h; apply quiet_read_at, quiet_keys|].
    intros ks. apply quiet_bind; [now apply quiet_clone_keys_loop|]. intros s2.
    apply quiet_bind; [|intros _; apply quiet_ret].
    destruct (bool_decide _); [|apply quiet_ret].
    apply quiet_bind; [intros h; apply quiet_read_at, quiet_get|]. intros len.
    apply quiet_set_prop.
Qed.

Lemma quiet_clone fuel v options :
  shallow_keys options = false -> quiet (clone fuel v options).
Proof.
  intros Hsh. unfold clone. apply quiet_bind; [now apply quiet_clone_seen|].
  intros r. apply quiet_ret.
Qed.

Section QuietMerge.

Variable cl : value -> M value.
Hypothesis quiet_cl : forall v, quiet (cl v).

Lemma quiet_merge_array_loop n target source :
  forall i, quiet (merge_array_loop n cl target source i).
Proof.
  induction n as [|n IH]; intros i; simpl; [intros h msg; discriminate|].
  apply quiet_bind; [intros h; apply quiet_read_at, quiet_get|]. intros len.
  destruct (match len with VNum m => i <? m | _ => false end); [|apply quiet_ret].
  apply quiet_bind; [intros h; apply quiet_read_at, quiet_get|]. intros v.
  apply quiet_bind; [apply quiet_cl|]. intros c.
  apply quiet_bind; [apply quiet_push|]. intros _. apply IH.
Qed.

Variable mg : value -> value -> M value.
Hypothesis quiet_mg : forall t s h,
  truthy t && bool_decide (typeof h t = TObject) = true ->
  truthy s && bool_decide (typeof h s = TObject) = true ->
  isArray h t = isArray h s ->
  quiet_at (mg t s) h.

Lemma quiet_merge_key target source options k :
  quiet (merge_key cl mg target source options k).
Proof.
  intros h. unfold merge_key.
  apply quiet_at_bind; [apply quiet_pure_read|]. intros en h1 Hen.
  apply pure_read_Ret in Hen as [_ ->].
  destruct (_ || _); [apply quiet_ret|].
  apply quiet_at_bind; [apply quiet_read_at, quiet_get|]. intros value h1 Hv.
  apply read_Ret in Hv as [_ ->].
  apply quiet_at_bind; [apply quiet_pure_read|]. intros ty h1 Hty.
  apply pure_read_Ret in Hty as [-> ->].
  destruct (truthy value && bool_decide (typeof h value = TObject)) eqn:Hvalue.
  - apply quiet_at_bind; [apply quiet_read_at, quiet_get|]. intros slot h1 Hs.
    apply read_Ret in Hs as [_ ->].
    apply quiet_at_bind; [apply quiet_pure_read|]. intros replace h1 Hr.
    apply pure_read_Ret in Hr as [-> ->].
    destruct (negb (truthy slot) || _ || _ || _ || _ || _) eqn:Hrep.
    + apply quiet_bind; [apply quiet_cl|]. intros c. apply quiet_set_prop.
    + apply quiet_at_bind; [|intros ? ? _; apply quiet_ret].
      repeat (apply orb_false_iff in Hrep as [Hrep ?]).
      apply quiet_mg; [|exact Hvalue|].
      * apply negb_false_iff in Hrep. rewrite Hrep.
        match goal with H : negb (bool_decide (typeof h slot = TObject)) = false |- _ =>
          apply negb_false_iff in H; now rewrite H end.
      * match goal with H : negb (Bool.eqb _ _) = false |- _ =>
          apply negb_false_iff, Bool.eqb_prop in H; exact H end.
  - destruct (negb (is_nullish value)); [apply (quiet_set_prop _ _ _ h)|].
    destruct (truthy (flag (opt_nullOverride options)));
      [apply (quiet_set_prop _ _ _ h)|apply (quiet_ret _ h)].
Qed.

Lemma quiet_merge_keys target source options ks :
  quiet (merge_keys cl mg target source options ks).
Proof.
  induction ks as [|k ks IH]; simpl; [apply quiet_ret|].
  apply quiet_bind; [apply quiet_merge_key|]. intros _. exact IH.
Qed.

End QuietMerge.

(** A call of [merge] whose own two arguments pass its checks does not
    end with the error of the library, whatever is nested in them. *)
Lemma quiet_merge fuel :
  forall target source options h,
    truthy target && bool_decide (typeof h target = TObject) = true ->
    is_nullish source || bool_decide (typeof h source = TObject) = true ->
    (isArray h source = true -> isArray h target = true) ->
    quiet_at (merge fuel target source options) h.
Proof.
  induction fuel as [|fuel IH]; intros target source options h Ht Hs Harr;
    [intros msg; discriminate|].
  rewrite merge_unfold.
  apply quiet_at_bind; [apply quiet_pure_read|]. intros ok1 h1 H1.
  apply pure_read_Ret in H1 as [-> ->]. rewrite Ht.
  apply quiet_at_bind; [intros msg; discriminate|]. intros [] h1 H1.
  apply assert_Ret in H1 as [_ ->].
  apply quiet_at_bind; [apply quiet_pure_read|]. intros ok2 h1 H2.
  apply pure_read_Ret in H2 as [-> ->]. rewrite Hs.
  apply quiet_at_bind; [intros msg; discriminate|]. intros [] h1 H2.
  apply assert_Ret in H2 as [_ ->].
  destruct (negb (truthy source)); [apply quiet_ret|]. cbv zeta.
  assert (Hcl : forall v, quiet (clone fuel v (symbols_only (merge_options options))))
    by (intros v; now apply quiet_clone).
  apply quiet_at_bind; [apply quiet_pure_read|]. intros sa h1 H3.
  apply pure_read_Ret in H3 as [-> ->].
  destruct (isArray h source) eqn:Hsa.
  - apply quiet_at_bind; [apply quiet_pure_read|]. intros ta h1 H4.
    apply pure_read_Ret in H4 as [-> ->]. rewrite (Harr eq_refl).
    apply quiet_at_bind; [intros msg; discriminate|]. intros [] h1 H4.
    apply assert_Ret in H4 as [_ ->].
    apply quiet_bind.
    { destruct (negb _); [apply quiet_set_prop|apply quiet_ret]. }
    intros _. apply quiet_bind; [now apply quiet_merge_array_loop|].
    intros _. apply quiet_ret.
  - apply quiet_at_bind; [apply quiet_read_at, quiet_keys|]. intros ks h1 Hks.
    apply read_Ret in Hks as [_ ->].
    apply quiet_bind; [|intros _; apply quiet_ret].
    apply quiet_merge_keys; [exact Hcl|].
    intros t s h2 Ht2 Hs2 Heq. apply IH; [exact Ht2| |].
    + apply andb_prop in Hs2 as [_ Hs2]. rewrite Hs2. apply orb_true_r.
    + intros E. now rewrite Heq.
Qed.

(** X19.  [merge] ends with the error of the library only for what is
    wrong with its own two arguments: a target that is not an object, a
    source that is neither [null], [undefined] nor an object, or an array
    as source with a target that is not an array.  Nothing that is
    nested in the target and in the source makes it do so. *)
Theorem merge_throws_for_its_arguments fuel target source options h msg :
  merge fuel target source options h = Throw (HoekError msg) ->
  truthy target && bool_decide (typeof h target = TObject) = false
  \/ is_nullish source || bool_decide (typeof h source = TObject) = false
  \/ (isArray h source = true /\ isArray h target = false).
Proof.
  intros H.
  destruct (truthy target && bool_decide (typeof h target = TObject)) eqn:Ht;
    [|now left].
  destruct (is_nullish source || bool_decide (typeof h source = TObject)) eqn:Hs;
    [|right; now left].
  destruct (isArray h source) eqn:Hsa; destruct (isArray h target) eqn:Hta;
    try (right; right; split; reflexivity);
    exfalso; apply (quiet_merge fuel target source options h) in H; auto;
      intros; congruence.
Qed.

Lemma merge_throws_for_its_arguments_witness :
  truthy (VNum 5) && bool_decide (typeof merge_heap (VNum 5) = TObject) = false
  \/ is_nullish (VObj 11%nat)
     || bool_decide (typeof merge_heap (VObj 11%nat) = TObject) = false
  \/ (isArray merge_heap (VObj 11%nat) = true /\ isArray merge_heap (VNum 5) = false).
Proof.
  apply (merge_throws_for_its_arguments 2 (VNum 5) (VObj 11%nat) no_options
           merge_heap "Invalid target value: must be an object").
  reflexivity.
Defined.

(** X20.  [clone] has no error of its own: when [options.shallow] is not
    a list of keys, no call ends with the error of the library. *)
Theorem clone_never_library_error fuel v options h msg :
  shallow_keys options = false ->
  clone fuel v options h <> Throw (HoekError msg).
Proof. intros Hsh. now apply (quiet_clone fuel v options Hsh h msg). Qed.

Lemma clone_never_library_error_witness :
  clone 3 (VObj 10%nat) no_options merge_heap
  <> Throw (HoekError "Invalid segment").
Proof.
  apply (clone_never_library_error 3 (VObj 10%nat) no_options merge_heap
           "Invalid segment").
  reflexivity.
Defined.

(** ** [contain] with a value listed twice *)

Section ContainRepeated.

Variable deepEqual : heap -> value -> value -> compareFlags -> bool.
Variable options : Options.
Variable h : heap.

(** Without [only] and [once] together, the inner loop stops at the
    first candidate that compares equal. *)
Lemma find_match_first vs :
  forall ms x j i,
    find_match deepEqual h options false vs ms x j = Some i ->
    exists k v,
      i = (j + k)%nat /\ vs !! k = Some v
      /\ compare deepEqual h options v x = true
      /\ forall k' v', (k' < k)%nat -> vs !! k' = Some v' ->
                       compare deepEqual h options v' x = false.
Proof.
  induction vs as [|v vs IH]; intros ms x j i H; [discriminate H|].
  destruct ms as [|m ms]; [discriminate H|]. cbn [find_match negb orb andb] in H.
  destruct (compare deepEqual h options v x) eqn:E.
  - injection H as <-. exists 0%nat, v. repeat split; [lia|exact E|]. intros; lia.
  - apply IH in H as (k & v1 & -> & Hk & Hc & Hfirst).
    exists (S k), v1. repeat split; [lia|exact Hk|exact Hc|].
    intros [|k'] v' Hlt Hv'; [now injection Hv' as <-|].
    apply (Hfirst k' v'); [lia|exact Hv'].
Qed.

Variables (vs : list value) (j1 j2 : nat) (v : value).
Hypothesis first_copy : vs !! j1 = Some v.
Hypothesis second_copy : vs !! j2 = Some v.
Hypothesis apart : (j1 < j2)%nat.

Lemma contain_array_loop_repeated ref idx :
  forall t t',
    t.1 !! j2 = Some 0%nat ->
    contain_array_loop deepEqual h options false ref vs idx t = Ret t' ->
    t'.1 !! j2 = Some 0%nat.
Proof.
  induction idx as [|i idx IH]; intros t t' Ht H; cbn [contain_array_loop] in H.
  - now injection H as <-.
  - apply obind_Ret in H as (x & _ & H).
    destruct (find_match deepEqual h options false vs t.1 x 0) as [matched|] eqn:E.
    + apply IH in H; [exact H|]. cbn [fst].
      apply find_match_first in E as (k & v1 & -> & Hk & Hc & Hfirst).
      assert (Hne : k <> j2).
      { intros ->. rewrite second_copy in Hk. injection Hk as <-.
        rewrite (Hfirst j1 v apart first_copy) in Hc. discriminate. }
      unfold increment. destruct (t.1 !! (0 + k)%nat); [|exact Ht].
      rewrite list_lookup_insert_ne by (simpl; congruence). exact Ht.
    + apply IH in H; [exact H|exact Ht].
Qed.

Lemma verdict_loop_unmatched j :
  truthy (flag (opt_part options)) = false ->
  forall matches result,
    matches !! j = Some 0%nat -> verdict_loop options matches result = false.
Proof.
  intros Hpart. induction j as [|j IH]; intros [|m matches] result Hj;
    try discriminate Hj; cbn [verdict_loop].
  - injection Hj as ->. rewrite Hpart. cbn. now rewrite orb_true_r.
  - destruct (_ || _); [reflexivity|]. now apply IH.
Qed.

End ContainRepeated.

(** X21.  [contain(array, values)] without [deep], [only] and [part]:
    when a value is listed twice, the answer is [false] whatever the
    array holds, since every element is counted for the first value that
    it equals and no value may be left unmatched. *)
Theorem contain_repeated_value_fails deepEqual h ref values options
    pairs vs n xs j1 j2 v :
  truthy (flag (opt_deep options)) = false ->
  truthy (flag (opt_only options)) = false ->
  truthy (flag (opt_part options)) = false ->
  isArray h ref = true ->
  contain_values h ref values = Ret (pairs, vs) ->
  get h ref length_key = Ret (VNum n) -> elements_of h ref = Ret xs ->
  vs !! j1 = Some v -> vs !! j2 = Some v -> (j1 < j2)%nat ->
  contain deepEqual h ref values options = Ret false.
Proof.
  intros Hdeep Honly Hpart Href Hvals Hlen Hxs H1 H2 Hlt.
  assert (Hne : vs <> []) by (intros ->; discriminate H1).
  pose proof (elements_of_reads h ref n xs Hlen Hxs) as Hreads.
  assert (Hloop : exists t,
            contain_array_loop deepEqual h options false ref vs
              (seq 0 (Z.to_nat n)) (repeat 0%nat (List.length vs), false) = Ret t).
  { generalize (repeat 0%nat (List.length vs), false).
    revert Hreads. generalize (seq 0 (Z.to_nat n)). clear -xs.
    intros idx. revert xs. induction idx as [|i idx IH]; intros xs Hreads t.
    - eexists. reflexivity.
    - inversion Hreads as [|? x ? xs' Hx Hxs']; subst.
      cbn [contain_array_loop]. rewrite Hx. cbn [obind].
      destruct (find_match _ _ _ _ _ _ _ _); eapply IH; eauto. }
  destruct Hloop as [[matches misses] Hloop].
  assert (Hinit : (repeat 0%nat (List.length vs), false).1 !! j2 = Some 0%nat).
  { cbn [fst]. apply lookup_lt_Some in H2.
    clear -H2. revert j2 H2. induction vs as [|a l IH]; intros j2 H2; [simpl in H2; lia|].
    destruct j2 as [|j2]; [reflexivity|]. simpl. apply IH. simpl in H2. lia. }
  pose proof (contain_array_loop_repeated deepEqual options h vs j1 j2 v H1 H2 Hlt
                ref _ _ _ Hinit Hloop) as Hzero.
  cbn [fst] in Hzero.
  rewrite (contain_returns_verdict deepEqual h ref values options pairs vs
             matches misses Hvals Href); [| |exact Hne].
  - unfold verdict. rewrite Honly. cbn [andb].
    now rewrite (verdict_loop_unmatched options j2 Hpart).
  - unfold contain_array. rewrite Hlen, Honly. cbn [obind andb].
    rewrite Hloop. reflexivity.
Qed.

Lemma contain_repeated_value_fails_witness :
  contain (fun _ _ _ _ => false) contain_heap (VObj 10%nat) (VObj 10%nat) no_options
  = Ret false.
Proof.
  apply (contain_repeated_value_fails (fun _ _ _ _ => false) contain_heap
           (VObj 10%nat) (VObj 10%nat) no_options None
           [VNum 1; VNum 2; VNum 2] 3 [VNum 1; VNum 2; VNum 2] 1 2 (VNum 2));
    try reflexivity. lia.
Defined.

(** With a list of shallow keys [clone] reads paths with [reach], whose
    error it lets through. *)
Example clone_shallow_keys_library_error :
  clone 5 (VObj 10%nat) (shallow_only (VObj 11%nat)) function_heap
  = Throw (HoekError "Invalid segment").
Proof. reflexivity. Qed.

(** ** The copy that [clone] makes of an array of plain values *)

Lemma define_property_element h o m done k p :
  ~ In k done -> k <> length_key ->
  exists m',
    define_property (List.length h) k p
      (h ++ [mkObj KArray (Some ArrayPrototype) true
               ((length_key, PData (VNum m) false true false)
                  :: copied_props o done)])
    = Ret (tt, h ++ [mkObj KArray (Some ArrayPrototype) true
                       ((length_key, PData (VNum m') false true false)
                          :: copied_props o done ++ [(k, p)])]).
Proof.
  intros Hk Hne. unfold define_property. rewrite lookup_snoc.
  cbn [o_props o_extensible lookup_prop].
  destruct (decide (k = length_key)) as [|_]; [contradiction|].
  rewrite (copied_props_lookup_None o done k Hk).
  unfold bump_length, with_props. cbn [o_kind o_proto o_extensible o_props update_prop].
  destruct (decide (k = length_key)) as [|_]; [contradiction|].
  rewrite update_prop_new by now apply copied_props_lookup_None.
  destruct (array_index k) as [i|].
  - destruct (i <? _)%N.
    + exists m. cbn [obind]. now rewrite insert_snoc.
    + cbn [lookup_prop]. destruct (decide (length_key = length_key)); [|congruence].
      cbn [update_prop]. destruct (decide (length_key = length_key)); [|congruence].
      exists (Z.of_N (i + 1)). cbn [obind]. now rewrite insert_snoc.
  - exists m. cbn [obind]. now rewrite insert_snoc.
Qed.

Section CopyArray.

Variables (fuel : nat) (options : Options) (h : heap) (l : loc) (o : obj).
Hypothesis source : h !! l = Some o.
Hypothesis plain_source : plain_props h o = true.

Lemma clone_keys_loop_array ks :
  forall done m (s : seen_map),
    (forall k, In k ks -> In k (map fst (o_props o))) ->
    List.NoDup (done ++ element_keys ks) ->
    exists m',
      clone_keys_loop (fun v s => clone_seen (S fuel) v options s) l (List.length h)
        true ks (Some s)
        (h ++ [mkObj KArray (Some ArrayPrototype) true
                 ((length_key, PData (VNum m) false true false)
                    :: copied_props o done)])
      = Ret (Some s,
             h ++ [mkObj KArray (Some ArrayPrototype) true
                     ((length_key, PData (VNum m') false true false)
                        :: copied_props o (done ++ element_keys ks))]).
Proof.
  induction ks as [|k ks IH]; intros done m s Hin Hnd.
  - exists m. cbn [element_keys List.filter]. now rewrite app_nil_r.
  - cbn [clone_keys_loop andb]. unfold element_keys in *. cbn [List.filter] in *.
    destruct (bool_decide (k = length_key)) eqn:Ek; cbn [negb] in *.
    + apply IH; [|exact Hnd]. intros k' Hk'. apply Hin. now right.
    + apply bool_decide_eq_false in Ek.
      destruct (plain_props_lookup h o plain_source k (Hin k (or_introl eq_refl)))
        as (v & e & w & c & Hk & Hv).
      set (hc := h ++ [mkObj KArray (Some ArrayPrototype) true
                         ((length_key, PData (VNum m) false true false)
                            :: copied_props o done)]).
      assert (Hp : h `prefix_of` hc) by now apply prefix_app_r.
      assert (Hl : hc !! l = Some o).
      { rewrite (prefix_lookup h hc l Hp); [exact source|].
        eapply lookup_Some_lt; eauto. }
      unfold bind at 1. unfold pure_read at 1. unfold get_own. rewrite Hl, Hk.
      cbn [has_accessor]. unfold bind at 1. unfold read at 1.
      rewrite (get_own_data _ _ _ _ _ _ _ _ Hl Hk).
      unfold bind at 1.
      rewrite clone_seen_plain by (eapply plain_value_extends; eauto).
      cbn [fst snd descriptor_enumerable prop_enumerable]. unfold bind at 1.
      subst hc.
      destruct (define_property_element h o m done k (PData v e true true))
        as (m1 & ->); [|exact Ek|].
      { apply List.NoDup_remove in Hnd as [_ Hd]. intros Hkd. apply Hd.
        apply in_or_app. now left. }
      rewrite <- (copied_props_snoc o done k v e w c Hk).
      destruct (IH (done ++ [k]) m1 s) as (m' & ->).
      * intros k' Hk'. apply Hin. now right.
      * now rewrite <- app_assoc.
      * exists m'. now rewrite <- app_assoc.
Qed.

End CopyArray.

Lemma copied_props_keys o ks k p :
  In (k, p) (copied_props o ks) -> In k ks /\ In k (map fst (o_props o)).
Proof.
  intros H. unfold copied_props in H.
  apply list_elem_of_In, list_elem_of_omap in H as (k' & Hin & E).
  apply list_elem_of_In in Hin.
  destruct (lookup_prop k' (o_props o)) as [[? ? ? ?|]|] eqn:El; try discriminate.
  injection E as <- _. split; [exact Hin|]. eapply lookup_prop_Some_key; eauto.
Qed.

(** The last step of [clone] on an array: the length of the source is
    assigned to the copy. *)
Lemma set_prop_copy_length h m n cp :
  0 <= n < 4294967296 ->
  (forall k p, In (k, p) cp -> index_at_least (Z.to_N n) k = false) ->
  set_prop (VObj (List.length h)) length_key (VNum n)
    (h ++ [mkObj KArray (Some ArrayPrototype) true
             ((length_key, PData (VNum m) false true false) :: cp)])
  = Ret (tt, h ++ [mkObj KArray (Some ArrayPrototype) true
                     ((length_key, PData (VNum n) false true false) :: cp)]).
Proof.
  intros Hn Hcp. unfold set_prop. rewrite lookup_snoc. cbn [o_props lookup_prop].
  destruct (decide (length_key = length_key)) as [_|]; [|congruence].
  unfold assign_own. cbn [o_kind].
  rewrite !bool_decide_eq_true_2 by reflexivity. cbn [andb].
  unfold to_length. cbn [to_integer obind].
  replace (0 <=? n) with true by (symmetry; apply Z.leb_le; lia).
  replace (n <? 4294967296) with true by (symmetry; apply Z.ltb_lt; lia).
  cbn [andb obind]. unfold set_array_length. cbn [o_props List.filter fst].
  assert (Hl : index_at_least (Z.to_N n) length_key = false).
  { unfold index_at_least. now rewrite array_index_length. }
  rewrite Hl. cbn [negb].
  assert (Hb : forallb (fun kp : key * prop => negb (index_at_least (Z.to_N n) kp.1)) cp
               = true).
  { apply forallb_forall. intros [k p] Hin. cbn [fst].
    now rewrite (Hcp k p Hin). }
  rewrite (filter_none _ _ Hb). cbn [forallb]. rewrite (filter_all _ _ Hb).
  cbn [update_prop]. destruct (decide (length_key = length_key)) as [_|]; [|congruence].
  unfold with_props. cbn [o_kind o_proto o_extensible obind].
  rewrite insert_snoc. replace (Z.of_N (Z.to_N n)) with n by lia. reflexivity.
Qed.

(** X22.  [clone] of an array whose own properties are all data
    properties with values that are not objects: the call returns a new
    array, with the prototype of arrays whatever the prototype of the
    source, the same length, and a writable and configurable copy of
    every other property of the keys listed, holes left as holes. *)
Theorem clone_plain_array fuel l o options h ks n e w c :
  h !! l = Some o -> o_kind o = KArray -> plain_props h o = true ->
  List.NoDup (map fst (o_props o)) ->
  truthy (flag (opt_shallow options)) = false ->
  lookup_prop length_key (o_props o) = Some (PData (VNum n) e w c) ->
  0 <= n < 4294967296 ->
  (forall k, In k (map fst (o_props o)) -> index_at_least (Z.to_N n) k = false) ->
  keys h (VObj l) options = Ret ks ->
  clone (S (S fuel)) (VObj l) options h
  = Ret (VObj (List.length h),
         h ++ [mkObj KArray (Some ArrayPrototype) true
                 ((length_key, PData (VNum n) false true false)
                    :: copied_props o (element_keys ks))]).
Proof.
  intros Hl Hk Hplain Hnd Hsh Hlen Hn Hwf Hks.
  assert (Hty : typeof h (VObj l) = TObject).
  { unfold typeof, is_function. rewrite Hl, Hk. reflexivity. }
  assert (Hbp : getInternalProto h l = ArrayPrototype).
  { unfold getInternalProto. now rewrite Hl, Hk. }
  unfold clone. unfold bind at 1. rewrite clone_seen_unfold.
  unfold bind at 1. unfold pure_read at 1. rewrite Hty.
  rewrite bool_decide_eq_true_2 by reflexivity.
  rewrite bool_decide_eq_false_2 by discriminate.
  cbn [negb orb]. cbv zeta. rewrite Hsh. cbn [andb].
  change (default ∅ None) with (∅ : seen_map). rewrite lookup_empty.
  unfold bind at 1. unfold pure_read at 1. rewrite Hbp.
  unfold bind at 1. unfold clone_base.
  rewrite !bool_decide_eq_false_2 by discriminate.
  rewrite (bool_decide_eq_true_2 (ArrayPrototype = ArrayPrototype)) by reflexivity.
  unfold bind at 1. unfold alloc at 1. unfold ret at 1.
  rewrite !bool_decide_eq_false_2 by discriminate.
  unfold bind at 1. unfold ret at 1.
  unfold bind at 1. unfold read at 1.
  assert (Hks' : keys (h ++ [empty_array (Some ArrayPrototype)]) (VObj l) options
                 = Ret ks).
  { unfold keys in *. rewrite lookup_app_l by (eapply lookup_Some_lt; eauto).
    exact Hks. }
  rewrite Hks'. unfold bind at 1. cbn [fmap option_fmap option_map].
  change (empty_array (Some ArrayPrototype))
    with (mkObj KArray (Some ArrayPrototype) true
            ((length_key, PData (VNum 0) false true false) :: copied_props o [])).
  destruct (clone_keys_loop_array fuel options h l o Hl Hplain ks [] 0
              (<[l := List.length h]> ∅)) as (m' & ->).
  - intros k Hin. eapply keys_In in Hin; eauto. destruct Hin as [Hin _]. exact Hin.
  - cbn [app]. unfold element_keys. apply List.NoDup_filter.
    eapply keys_NoDup; eauto.
  - cbn [app]. unfold bind at 1. unfold bind at 1. unfold read at 1.
    erewrite get_own_data; [| |exact Hlen].
    2:{ rewrite lookup_app_l by (eapply lookup_Some_lt; eauto). exact Hl. }
    rewrite set_prop_copy_length; [reflexivity|exact Hn|].
    intros k p Hin. apply copied_props_keys in Hin as [_ Hin]. now apply Hwf.
Qed.

Lemma clone_plain_array_witness :
  clone 2 (VObj 10%nat) no_options sparse_heap
  = Ret (VObj 11%nat,
         sparse_heap ++ [mkObj KArray (Some ArrayPrototype) true
                           [(length_key, PData (VNum 3) false true false);
                            (KStr "0", data (VNum 7));
                            (KStr "2", data (VStr "x"));
                            (KStr "tag", PData (VBool true) false true true)]]).
Proof.
  apply (clone_plain_array 0 10%nat
           (mkObj KArray (Some ArrayPrototype) true
              [(length_key, PData (VNum 3) false true false);
               (KStr "0", data (VNum 7));
               (KStr "tag", PData (VBool true) false false false);
               (KStr "2", data (VStr "x"))])
           no_options sparse_heap
           [KStr "0"; KStr "2"; length_key; KStr "tag"] 3 false true false);
    try reflexivity.
  - repeat constructor; simpl; intuition discriminate.
  - lia.
  - intros k [<-|[<-|[<-|[<-|[]]]]]; reflexivity.
Defined.


(** ** [once] *)

Lemma cells_lookup_snoc (cells : list bool) b : (cells ++ [b]) !! List.length cells = Some b.
Proof. rewrite lookup_app_r by lia. now rewrite Nat.sub_diag. Qed.

Lemma cells_insert_snoc (cells : list bool) b b' :
  <[List.length cells := b']> (cells ++ [b]) = cells ++ [b'].
Proof. rewrite insert_app_r_alt by lia. now rewrite Nat.sub_diag. Qed.

(** X23.  The function that [once] makes of a method that is not yet
    such a wrapper: its first call runs the method, once the variable of
    the wrapper is set, and returns [undefined], not what the method
    returns; a call after that does nothing and returns [undefined]; and
    [once] of the wrapper is the wrapper itself, with nothing new made.
    The method is any function that cannot reach the variable of the
    wrapper. *)
Theorem once_runs_method_once {world arguments : Type}
    (method : callable world arguments) (st : once_state world)
    (a1 a2 : arguments) v1 st1 :
  hoekOnce method = false ->
  keeps_cell method (List.length st.2) ->
  call (once method st).1 a1 (once method st).2 = Ret (v1, st1) ->
  v1 = VUndef
  /\ (exists v, call method a1 (st.1, st.2 ++ [true]) = Ret (v, st1))
  /\ call (once method st).1 a2 st1 = Ret (VUndef, st1)
  /\ once (once method st).1 (once method st).2 = once method st.
Proof.
  intros Hflag Hkeeps H. unfold once in *. rewrite Hflag in *.
  cbn [fst snd call wrapped hoekOnce] in *.
  rewrite cells_lookup_snoc, cells_insert_snoc in H.
  apply obind_Ret in H as ([v st'] & Hm & H). injection H as <- <-.
  cbn [snd]. split; [reflexivity|]. split; [eauto|]. split; [|reflexivity].
  apply Hkeeps in Hm. cbn [snd] in Hm. rewrite cells_lookup_snoc in Hm.
  now rewrite Hm.
Qed.

Lemma once_runs_method_once_witness :
  VUndef = VUndef
  /\ (exists v, call add_to_counter 5 (0, [] ++ [true]) = Ret (v, (5, [true])))
  /\ call (once add_to_counter (0, [])).1 7 (5, [true]) = Ret (VUndef, (5, [true]))
  /\ once (once add_to_counter (0, [])).1 (once add_to_counter (0, [])).2
     = once add_to_counter (0, []).
Proof.
  apply (once_runs_method_once add_to_counter (0, []) 5 7 VUndef (5, [true])).
  - reflexivity.
  - intros args st v st' H. injection H as _ <-. reflexivity.
  - reflexivity.
Defined.

(** ** [contain] on an array, with several values *)

Lemma strict_eq_true a b : strict_eq a b = true -> a = b.
Proof.
  unfold strict_eq. destruct a; try discriminate; now intros H%bool_decide_eq_true.
Qed.

Section ContainAll.

Variable deepEqual : heap -> value -> value -> compareFlags -> bool.
Variable options : Options.
Variable h : heap.
Hypothesis no_deep : truthy (flag (opt_deep options)) = false.

Lemma compare_strict a b : compare deepEqual h options a b = strict_eq a b.
Proof. unfold compare. now rewrite no_deep. Qed.

Lemma find_match_none vs :
  forall ms x j,
    (List.length vs <= List.length ms)%nat ->
    find_match deepEqual h options false vs ms x j = None ->
    forall k v, vs !! k = Some v -> strict_eq v x = false.
Proof.
  induction vs as [|v vs IH]; intros ms x j Hlen H k v' Hk; [discriminate Hk|].
  destruct ms as [|m ms]; [simpl in Hlen; lia|].
  cbn [find_match negb orb andb] in H. rewrite compare_strict in H.
  destruct (strict_eq v x) eqn:E; [discriminate H|].
  destruct k as [|k]; [now injection Hk as <-|].
  eapply IH; [|exact H|exact Hk]. simpl in Hlen. lia.
Qed.

Variable vs : list value.
Hypothesis distinct : List.NoDup vs.

Lemma contain_array_loop_counts ref idx :
  forall xs seen t,
    Forall2 (fun i x => get h ref (index_key (N.of_nat i)) = Ret x) idx xs ->
    counted vs t.1 seen ->
    exists t',
      contain_array_loop deepEqual h options false ref vs idx t = Ret t'
      /\ counted vs t'.1 (seen ++ xs).
Proof.
  induction idx as [|i idx IH]; intros xs seen t Hxs Hinv.
  - inversion Hxs; subst. exists t. split; [reflexivity|]. now rewrite app_nil_r.
  - inversion Hxs as [|? x ? xs' Hx Hxs']; subst.
    cbn [contain_array_loop]. rewrite Hx. cbn [obind].
    destruct Hinv as [Hlen Hinv].
    assert (Hstep : forall t1, counted vs t1.1 (seen ++ [x]) ->
              exists t',
                contain_array_loop deepEqual h options false ref vs idx t1 = Ret t'
                /\ counted vs t'.1 (seen ++ x :: xs')).
    { intros t1 H1. destruct (IH xs' (seen ++ [x]) t1 Hxs' H1) as (t' & Hrun & Ht').
      exists t'. split; [exact Hrun|]. now rewrite <- app_assoc in Ht'. }
    destruct (find_match deepEqual h options false vs t.1 x 0) as [matched|] eqn:E.
    + apply Hstep. cbn [fst].
      apply find_match_first in E as (k & vk & -> & Hk & Hc & _).
      rewrite compare_strict in Hc. cbn [Nat.add].
      destruct (Hinv k vk Hk) as (mk & Hmk & _).
      unfold increment. rewrite Hmk. split; [now rewrite length_insert|].
      intros j v Hj. destruct (decide (j = k)) as [->|Hne].
      * rewrite Hk in Hj. injection Hj as <-.
        exists (S mk). split.
        -- apply list_lookup_insert_eq. apply lookup_lt_Some in Hmk. exact Hmk.
        -- split; [|discriminate]. intros _. rewrite existsb_app. cbn [existsb].
           rewrite Hc. cbn. now rewrite orb_true_r.
      * destruct (Hinv j v Hj) as (m & Hm & Hiff). exists m. split.
        -- rewrite list_lookup_insert_ne by congruence. exact Hm.
        -- rewrite Hiff, existsb_app. cbn [existsb].
           assert (Hvx : strict_eq v x = false).
           { destruct (strict_eq v x) eqn:Evx; [|reflexivity]. exfalso.
             apply strict_eq_true in Evx, Hc. subst. apply Hne.
             exact (NoDup_lookup vs j k x (proj2 (NoDup_ListNoDup vs) distinct)
                      Hj Hk). }
           rewrite Hvx. cbn. now rewrite orb_false_r.
    + apply Hstep. cbn [fst]. split; [exact Hlen|].
      intros j v Hj. destruct (Hinv j v Hj) as (m & Hm & Hiff). exists m.
      split; [exact Hm|]. rewrite Hiff, existsb_app. cbn [existsb].
      rewrite (find_match_none vs t.1 x 0 ltac:(lia) E j v Hj). cbn.
      now rewrite orb_false_r.
Qed.

End ContainAll.

Lemma verdict_loop_all options :
  truthy (flag (opt_once options)) = false ->
  truthy (flag (opt_part options)) = false ->
  forall ms result,
    ms <> [] ->
    verdict_loop options ms result = forallb (fun m => negb (Nat.eqb m 0)) ms.
Proof.
  intros Honce Hpart ms. induction ms as [|m ms IH]; intros result Hne; [congruence|].
  cbn [verdict_loop forallb]. rewrite Honce, Hpart. cbn [andb orb negb].
  destruct (Nat.eqb m 0) eqn:E; [reflexivity|]. cbn [negb andb].
  destruct ms as [|m' ms]; [cbn; now rewrite orb_true_r|].
  apply IH. discriminate.
Qed.

Lemma forallb_pointwise {A B} (f : A -> bool) (g : B -> bool) l1 l2 :
  List.length l1 = List.length l2 ->
  (forall j b, l2 !! j = Some b -> exists a, l1 !! j = Some a /\ f a = g b) ->
  forallb f l1 = forallb g l2.
Proof.
  revert l2. induction l1 as [|a l1 IH]; intros [|b l2] Hlen H; try discriminate;
    [reflexivity|]. cbn [forallb].
  destruct (H 0%nat b eq_refl) as (a' & Ha' & E). injection Ha' as <-. rewrite E.
  f_equal. apply IH; [simpl in Hlen; lia|]. intros j b' Hj. apply (H (S j) b' Hj).
Qed.

(** X24.  [contain(array, values)] for distinct values, without [deep],
    [only], [once] and [part]: the answer is whether every value is
    strictly equal to some element of the array. *)
Theorem contain_array_every_value deepEqual h ref values options pairs vs n xs :
  truthy (flag (opt_deep options)) = false ->
  truthy (flag (opt_only options)) = false ->
  truthy (flag (opt_once options)) = false ->
  truthy (flag (opt_part options)) = false ->
  isArray h ref = true ->
  contain_values h ref values = Ret (pairs, vs) -> vs <> [] -> List.NoDup vs ->
  get h ref length_key = Ret (VNum n) -> elements_of h ref = Ret xs ->
  contain deepEqual h ref values options
  = Ret (forallb (fun v => existsb (strict_eq v) xs) vs).
Proof.
  intros Hdeep Honly Honce Hpart Href Hvals Hne Hnd Hlen Hxs.
  pose proof (elements_of_reads h ref n xs Hlen Hxs) as Hreads.
  destruct (contain_array_loop_counts deepEqual options h Hdeep vs Hnd ref _ xs []
              (repeat 0%nat (List.length vs), false) Hreads)
    as ([ms misses] & Hrun & Hlen' & Hcount).
  { split; [apply repeat_length|]. intros j v Hj. exists 0%nat. split.
    - apply lookup_lt_Some in Hj. cbn [fst]. clear -Hj. revert j Hj.
      induction vs as [|a l IH]; intros j Hj; [simpl in Hj; lia|].
      destruct j; [reflexivity|]. simpl. apply IH. simpl in Hj. lia.
    - split; [congruence|discriminate]. }
  cbn [fst app] in *.
  rewrite (contain_returns_verdict deepEqual h ref values options pairs vs
             ms misses Hvals Href); [| |exact Hne].
  - unfold verdict. rewrite Honly. cbn [andb]. f_equal.
    rewrite (verdict_loop_all options Honce Hpart)
      by (intros ->; destruct vs; [congruence|discriminate Hlen']).
    apply forallb_pointwise; [exact Hlen'|]. intros j v Hj.
    destruct (Hcount j v Hj) as (m & Hm & Hiff). exists m. split; [exact Hm|].
    destruct (existsb (strict_eq v) xs); destruct (Nat.eqb m 0) eqn:E;
      try reflexivity.
    + apply Nat.eqb_eq in E. exfalso. now apply (proj2 Hiff).
    + apply Nat.eqb_neq in E. apply Hiff in E. discriminate.
  - unfold contain_array. rewrite Hlen, Honly. cbn [obind andb].
    rewrite Hrun. reflexivity.
Qed.

Lemma contain_array_every_value_witness :
  contain (fun _ _ _ _ => false) contain_heap (VObj 10%nat) (VObj 11%nat) no_options
  = Ret (forallb (fun v => existsb (strict_eq v) [VNum 1; VNum 2; VNum 2])
           [VNum 1; VNum 2]).
Proof.
  apply (contain_array_every_value (fun _ _ _ _ => false) contain_heap
           (VObj 10%nat) (VObj 11%nat) no_options None [VNum 1; VNum 2] 3
           [VNum 1; VNum 2; VNum 2]); try reflexivity.
  - discriminate.
  - repeat constructor; simpl; intuition discriminate.
Defined.

(** ** [contain] on an array, with [only] *)

Section ContainOnly.

Variable deepEqual : heap -> value -> value -> compareFlags -> bool.
Variable options : Options.
Variable h : heap.
Hypothesis no_deep : truthy (flag (opt_deep options)) = false.

Lemma find_match_some vs :
  forall ms x j i,
    find_match deepEqual h options false vs ms x j = Some i ->
    (i < j + List.length ms)%nat /\ existsb (fun v => strict_eq v x) vs = true.
Proof.
  induction vs as [|v vs IH]; intros ms x j i H; [discriminate H|].
  destruct ms as [|m ms]; [discriminate H|].
  cbn [find_match negb orb andb] in H. rewrite compare_strict in H by exact no_deep.
  cbn [existsb List.length]. destruct (strict_eq v x).
  - injection H as <-. split; [lia|reflexivity].
  - apply IH in H as [Hlt ->]. split; [lia|reflexivity].
Qed.

Lemma find_match_none_all vs ms x j :
  (List.length vs <= List.length ms)%nat ->
  find_match deepEqual h options false vs ms x j = None ->
  existsb (fun v => strict_eq v x) vs = false.
Proof.
  intros Hlen H. apply not_true_is_false. intros E.
  apply existsb_exists in E as (v & Hin & Hv).
  apply list_elem_of_In, list_elem_of_lookup in Hin as [k Hk].
  now rewrite (find_match_none deepEqual options h no_deep vs ms x j Hlen H k v Hk)
    in Hv.
Qed.

Lemma contain_array_loop_misses ref vs idx :
  forall xs t,
    Forall2 (fun i x => get h ref (index_key (N.of_nat i)) = Ret x) idx xs ->
    List.length t.1 = List.length vs ->
    exists t',
      contain_array_loop deepEqual h options false ref vs idx t = Ret t'
      /\ t'.2
         = t.2 || negb (forallb (fun x => existsb (fun v => strict_eq v x) vs) xs).
Proof.
  induction idx as [|i idx IH]; intros xs t Hxs Hlen.
  - inversion Hxs; subst. exists t. split; [reflexivity|].
    cbn. now rewrite orb_false_r.
  - inversion Hxs as [|? x ? xs' Hx Hxs']; subst.
    cbn [contain_array_loop forallb]. rewrite Hx. cbn [obind].
    destruct (find_match deepEqual h options false vs t.1 x 0) as [matched|] eqn:E.
    + apply find_match_some in E as [Hlt ->].
      destruct (IH xs' (increment t.1 matched, t.2) Hxs') as (t' & Hrun & Ht').
      { cbn [fst]. unfold increment. destruct (t.1 !! matched); [|exact Hlen].
        now rewrite length_insert. }
      exists t'. split; [exact Hrun|exact Ht'].
    + rewrite (find_match_none_all vs t.1 x 0 ltac:(lia) E).
      destruct (IH xs' (t.1, true) Hxs' Hlen) as (t' & Hrun & Ht').
      exists t'. split; [exact Hrun|]. rewrite Ht'. cbn. now rewrite orb_true_r.
Qed.

End ContainOnly.

(** X25.  [contain(array, values, { only: true })] without [deep] and
    [once]: the answer is whether every element of the array is strictly
    equal to one of the values. *)
Theorem contain_array_only deepEqual h ref values options pairs vs n xs :
  truthy (flag (opt_deep options)) = false ->
  truthy (flag (opt_only options)) = true ->
  truthy (flag (opt_once options)) = false ->
  isArray h ref = true ->
  contain_values h ref values = Ret (pairs, vs) -> vs <> [] ->
  get h ref length_key = Ret (VNum n) -> elements_of h ref = Ret xs ->
  contain deepEqual h ref values options
  = Ret (forallb (fun x => existsb (fun v => strict_eq v x) vs) xs).
Proof.
  intros Hdeep Honly Honce Href Hvals Hne Hlen Hxs.
  pose proof (elements_of_reads h ref n xs Hlen Hxs) as Hreads.
  destruct (contain_array_loop_misses deepEqual options h Hdeep ref vs _ xs
              (repeat 0%nat (List.length vs), false) Hreads)
    as ([ms misses] & Hrun & Hmisses); [apply repeat_length|].
  cbn [fst snd orb] in *.
  rewrite (contain_returns_verdict deepEqual h ref values options pairs vs
             ms misses Hvals Href); [| |exact Hne].
  - unfold verdict. rewrite Honly, Honce. cbn [andb negb]. rewrite orb_true_r.
    rewrite Hmisses, negb_involutive. reflexivity.
  - unfold contain_array. rewrite Hlen, Honly, Honce. cbn [obind andb].
    rewrite Hrun. reflexivity.
Qed.

Lemma contain_array_only_witness :
  contain (fun _ _ _ _ => false) contain_heap (VObj 10%nat) (VObj 11%nat)
    options_only
  = Ret (forallb (fun x => existsb (fun v => strict_eq v x) [VNum 1; VNum 2])
           [VNum 1; VNum 2; VNum 2]).
Proof.
  apply (contain_array_only (fun _ _ _ _ => false) contain_heap
           (VObj 10%nat) (VObj 11%nat) options_only None [VNum 1; VNum 2] 3
           [VNum 1; VNum 2; VNum 2]); try reflexivity.
  discriminate.
Defined.

(** ** [contain] on two records *)

Lemma strict_eq_key_value k key :
  strict_eq (key_value k) (key_value key) = bool_decide (k = key).
Proof.
  unfold strict_eq. destruct k as [s|n], key as [s'|n']; cbn [key_value];
    try (rewrite !bool_decide_eq_false_2; [reflexivity| |]; congruence).
  - destruct (decide (s = s')) as [->|Hne].
    + now rewrite !bool_decide_eq_true_2.
    + rewrite !bool_decide_eq_false_2; [reflexivity| |]; congruence.
  - destruct (decide (n = n')) as [->|Hne].
    + now rewrite !bool_decide_eq_true_2.
    + rewrite !bool_decide_eq_false_2; [reflexivity| |]; congruence.
Qed.

Lemma indexOf_keys eks key :
  match indexOf (map key_value eks) (key_value key) with
  | Some pos => eks !! pos = Some key
  | None => ~ In key eks
  end.
Proof.
  induction eks as [|k eks IH]; cbn [map indexOf]; [tauto|].
  rewrite strict_eq_key_value. destruct (decide (k = key)) as [->|Hne].
  - now rewrite bool_decide_eq_true_2.
  - rewrite bool_decide_eq_false_2 by exact Hne.
    destruct (indexOf (map key_value eks) (key_value key)); cbn [option_map].
    + exact IH.
    + intros [E|H]; [congruence|tauto].
Qed.

Section ContainPairs.

Variable deepEqual : heap -> value -> value -> compareFlags -> bool.
Variable options : Options.
Variable h : heap.
Hypothesis no_deep : truthy (flag (opt_deep options)) = false.
Variables (ref pairs : value) (eks : list key).
Hypothesis distinct : List.NoDup eks.

Lemma contain_record_loop_pairs ks :
  forall seen t,
    counted_keys eks t.1 seen ->
    (forall k, In k ks -> In k eks ->
               exists x y, get h pairs k = Ret x /\ get h ref k = Ret y) ->
    (contain_record_loop deepEqual h options ref (Some pairs)
       (map key_value eks) ks t = Ret (inl false)
     /\ exists k, In k ks /\ In k eks /\ same_entry h pairs ref k = false)
    \/ (exists t',
          contain_record_loop deepEqual h options ref (Some pairs)
            (map key_value eks) ks t = Ret (inr t')
          /\ counted_keys eks t'.1 (seen ++ ks)
          /\ forall k, In k ks -> In k eks -> same_entry h pairs ref k = true).
Proof.
  induction ks as [|key ks IH]; intros seen t Hinv Hget.
  - right. exists t. split; [reflexivity|]. rewrite app_nil_r.
    split; [exact Hinv|]. intros k [].
  - cbn [contain_record_loop].
    assert (Hget' : forall k, In k ks -> In k eks ->
              exists x y, get h pairs k = Ret x /\ get h ref k = Ret y).
    { intros k Hk. apply Hget. now right. }
    destruct Hinv as [Hlen Hinv].
    pose proof (indexOf_keys eks key) as Hidx.
    destruct (indexOf (map key_value eks) (key_value key)) as [pos|].
    + assert (Hin : In key eks).
      { apply list_elem_of_In, list_elem_of_lookup. now exists pos. }
      destruct (Hget key (or_introl eq_refl) Hin) as (x & y & Hx & Hy).
      rewrite Hx, Hy. cbn [obind].
      rewrite (compare_strict deepEqual options h no_deep).
      assert (Hsame : same_entry h pairs ref key = strict_eq x y).
      { unfold same_entry. now rewrite Hx, Hy. }
      destruct (strict_eq x y) eqn:E; cbn [negb].
      * destruct (IH (seen ++ [key]) (increment t.1 pos, t.2)) as
          [(Hrun & k & Hk & Hk' & Hne)|(t' & Hrun & Ht' & Hall)];
          [|exact Hget'| |].
        -- cbn [fst]. destruct (Hinv pos key Hidx) as (mp & Hmp & _).
           unfold increment. rewrite Hmp. split; [now rewrite length_insert|].
           intros j k Hj. destruct (decide (j = pos)) as [->|Hne].
           ++ rewrite Hidx in Hj. injection Hj as <-. exists (S mp). split.
              ** apply list_lookup_insert_eq. now apply lookup_lt_Some in Hmp.
              ** split; [|discriminate]. intros _. apply in_or_app. right. now left.
           ++ destruct (Hinv j k Hj) as (m & Hm & Hiff). exists m. split.
              ** rewrite list_lookup_insert_ne by congruence. exact Hm.
              ** rewrite Hiff, in_app_iff. split; [tauto|].
                 intros [H|[<-|[]]]; [exact H|]. exfalso. apply Hne.
                 exact (NoDup_lookup eks j pos key
                          (proj2 (NoDup_ListNoDup eks) distinct) Hj Hidx).
        -- left. split; [exact Hrun|]. exists k. split; [now right|]. now split.
        -- right. exists t'. split; [exact Hrun|]. rewrite <- app_assoc in Ht'.
           split; [exact Ht'|]. intros k [<-|Hk] Hk'; [congruence|now apply Hall].
      * left. split; [reflexivity|]. exists key. split; [now left|].
        split; [exact Hin|congruence].
    + destruct (IH (seen ++ [key]) (t.1, true)) as
        [(Hrun & k & Hk & Hk' & Hne)|(t' & Hrun & Ht' & Hall)];
        [|exact Hget'| |].
      * cbn [fst]. split; [exact Hlen|]. intros j k Hj.
        destruct (Hinv j k Hj) as (m & Hm & Hiff). exists m. split; [exact Hm|].
        rewrite Hiff, in_app_iff. split; [tauto|].
        intros [H|[<-|[]]]; [exact H|]. exfalso. apply Hidx.
        apply list_elem_of_In, list_elem_of_lookup. now exists j.
      * left. split; [exact Hrun|]. exists k. split; [now right|]. now split.
      * right. exists t'. split; [exact Hrun|]. rewrite <- app_assoc in Ht'.
        split; [exact Ht'|]. intros k [<-|Hk] Hk'; [tauto|now apply Hall].
Qed.

End ContainPairs.

(** X26.  [contain(ref, values)] for two objects that are not arrays,
    without [deep], [only], [once] and [part], when the reads of the
    shared keys return: the answer is whether every enumerable own key of
    [values] is a key of [ref] and holds a strictly equal value there. *)
Theorem contain_object_pairs deepEqual h l p options ks eks :
  truthy (flag (opt_deep options)) = false ->
  truthy (flag (opt_only options)) = false ->
  truthy (flag (opt_once options)) = false ->
  truthy (flag (opt_part options)) = false ->
  typeof h (VObj l) = TObject -> isArray h (VObj l) = false ->
  typeof h (VObj p) = TObject -> isArray h (VObj p) = false ->
  enumerable_keys h p = map key_value eks -> eks <> [] -> List.NoDup eks ->
  keys h (VObj l) options = Ret ks ->
  (forall k, In k ks -> In k eks ->
             exists x y, get h (VObj p) k = Ret x /\ get h (VObj l) k = Ret y) ->
  contain deepEqual h (VObj l) (VObj p) options
  = Ret (forallb (fun k => bool_decide (k ∈ ks)
                           && same_entry h (VObj p) (VObj l) k) eks).
Proof.
  intros Hdeep Honly Honce Hpart Htl Hal Htp Hap Heks Hne Hnd Hks Hget.
  unfold contain, contain_values. rewrite Htl, Htp, Hal, Hap, Heks.
  rewrite !bool_decide_eq_true_2 by reflexivity.
  cbn [andb negb obind fst snd]. rewrite length_map.
  rewrite (bool_decide_eq_false_2 (TObject = TString)) by discriminate.
  cbn [orb negb].
  destruct (Nat.eqb (List.length eks) 0) eqn:E.
  { apply Nat.eqb_eq in E. destruct eks; [congruence|discriminate]. }
  rewrite Hks. cbn [obind].
  destruct (contain_record_loop_pairs deepEqual options h Hdeep (VObj l) (VObj p)
              eks Hnd ks [] (repeat 0%nat (List.length eks), false))
    as [(Hrun & k & Hk & Hk' & Hdiff)|([ms misses] & Hrun & [Hlen Hcount] & Hall)].
  - split; [apply repeat_length|]. intros j k Hj. exists 0%nat. cbn [fst]. split.
    + apply lookup_lt_Some in Hj. clear -Hj. revert j Hj.
      induction eks as [|a e IH]; intros j Hj; [simpl in Hj; lia|].
      destruct j; [reflexivity|]. simpl. apply IH. simpl in Hj. lia.
    + split; [congruence|intros []].
  - exact Hget.
  - rewrite Hrun. cbn [obind]. f_equal. symmetry. apply not_true_is_false.
    intros Hf. rewrite forallb_forall in Hf. specialize (Hf k Hk').
    rewrite Hdiff, andb_false_r in Hf. discriminate.
  - rewrite Hrun. cbn [obind fst snd app] in *. f_equal.
    unfold verdict. rewrite Honly. cbn [andb].
    rewrite (verdict_loop_all options Honce Hpart)
      by (intros ->; destruct eks; [congruence|discriminate Hlen]).
    apply forallb_pointwise; [exact Hlen|]. intros j k Hj.
    destruct (Hcount j k Hj) as (m & Hm & Hiff). exists m. split; [exact Hm|].
    assert (Hin : In k eks).
    { apply list_elem_of_In, list_elem_of_lookup. now exists j. }
    destruct (Nat.eqb m 0) eqn:Em; cbn [negb].
    + apply Nat.eqb_eq in Em. rewrite bool_decide_eq_false_2; [reflexivity|].
      rewrite list_elem_of_In. intros Hk. apply Hiff in Hk. congruence.
    + apply Nat.eqb_neq in Em. apply Hiff in Em.
      rewrite bool_decide_eq_true_2 by now apply list_elem_of_In.
      now rewrite (Hall k Em Hin).
Qed.

Lemma contain_object_pairs_witness :
  contain (fun _ _ _ _ => false) pairs_heap (VObj 10%nat) (VObj 11%nat) no_options
  = Ret (forallb (fun k => bool_decide (k ∈ [KStr "a"; KStr "b"])
                           && same_entry pairs_heap (VObj 11%nat) (VObj 10%nat) k)
           [KStr "b"]).
Proof.
  apply (contain_object_pairs (fun _ _ _ _ => false) pairs_heap 10%nat 11%nat
           no_options [KStr "a"; KStr "b"] [KStr "b"]); try reflexivity.
  - discriminate.
  - repeat constructor; simpl; tauto.
  - intros k [<-|[<-|[]]] [E|[]]; [discriminate E|].
    exists (VNum 2), (VNum 2). split; reflexivity.
Defined.

(** ** [reach] through a Set and a Map *)

Lemma number_of_index i : number_of_string (string_of_N i) = Some (Z.of_N i).
Proof.
  assert (Hnil : N.to_uint i <> Decimal.Nil).
  { destruct i; simpl; [discriminate|]. apply DecimalPos.Unsigned.to_uint_nonnil. }
  assert (H : NilZero.uint_of_string (string_of_N i) = Some (N.to_uint i)).
  { unfold string_of_N. now apply NilZero.usu. }
  unfold number_of_string. unfold string_of_N in *.
  destruct (N.to_uint i) eqn:E; try congruence;
    cbn [NilZero.string_of_uint NilEmpty.string_of_uint] in *;
    rewrite H; cbn [option_map]; rewrite <- E;
    now rewrite DecimalN.Unsigned.of_to.
Qed.

Section ReachIterables.

Variables (h : heap) (options : ReachOptions).
Hypothesis with_iterables : truthy (flag (ro_iterables options)) = true.
Hypothesis no_separator : truthy (flag (ro_separator options)) = false.

Lemma reach_with_plain ref s :
  forallb (fun c => negb (Ascii.eqb c ".")) (list_ascii_of_string s) = true ->
  reach_with h ref (VStr s) (ReachObject options)
  = reach_with_loop h options [VStr s] ref.
Proof.
  intros Hs. unfold reach_with, reach_path. cbn [strict_eq is_nullish orb reach_options].
  rewrite bool_decide_eq_false_2 by discriminate.
  replace (isArray h (VStr s)) with false by reflexivity.
  cbn [andb]. rewrite no_separator, (split_dot_plain s Hs). reflexivity.
Qed.

Variables (l : loc) (o : obj).
Hypothesis at_l : h !! l = Some o.

Lemma set_is_object vs : o_kind o = KSet vs ->
  isArray h (VObj l) = false /\ typeof h (VObj l) = TObject.
Proof.
  intros Hk. unfold isArray, typeof, is_function. rewrite at_l, Hk.
  now rewrite !bool_decide_eq_false_2 by discriminate.
Qed.

Lemma map_is_object es : o_kind o = KMap es ->
  isArray h (VObj l) = false /\ typeof h (VObj l) = TObject.
Proof.
  intros Hk. unfold isArray, typeof, is_function. rewrite at_l, Hk.
  now rewrite !bool_decide_eq_false_2 by discriminate.
Qed.

End ReachIterables.

(** X27.  With [iterables], [reach(set, 'i')] for a Set and an index
    below its size is the element of that rank in the order of
    insertion, whatever the default. *)
Theorem reach_set_index h options l o vs i x :
  truthy (flag (ro_iterables options)) = true ->
  truthy (flag (ro_separator options)) = false ->
  h !! l = Some o -> o_kind o = KSet vs ->
  instanceof h (VObj l) SetPrototype = true ->
  (i < max_index)%N -> vs !! N.to_nat i = Some x ->
  reach_with h (VObj l) (VStr (string_of_N i)) (ReachObject options) = Ret x.
Proof.
  intros Hit Hsep Hl Hk Hset Hi Hx.
  destruct (set_is_object h l o Hl vs Hk) as [Harr Hty].
  rewrite (reach_with_plain h options Hsep) by apply string_of_N_no_dot.
  cbn [reach_with_loop]. unfold iterables. rewrite Hit, Hset.
  unfold reach_segment. rewrite Harr. cbn [to_integer]. rewrite number_of_index.
  cbn [obind]. replace (Z.of_N i <? 0) with false by (symmetry; apply Z.ltb_ge; lia).
  cbn [obind truthy negb]. rewrite Hty.
  rewrite (bool_decide_eq_false_2 (TObject = TFunction)) by discriminate.
  cbn [andb obind]. unfold spread_get, kind_of. rewrite Hl, Hk. cbn [to_key].
  rewrite string_of_Z_N by lia. rewrite N2Z.id.
  change (KStr (string_of_N i)) with (index_key i).
  rewrite bool_decide_eq_false_2.
  - rewrite (array_index_key i Hi), Hx. reflexivity.
  - intros E. pose proof (array_index_key i Hi) as Hidx.
    rewrite E, array_index_length in Hidx. discriminate.
Qed.

Lemma reach_set_index_witness :
  reach_with reach_heap (VObj 13%nat) (VStr (string_of_N 1))
    (ReachObject (options_iterables None)) = Ret (VStr "q").
Proof.
  apply (reach_set_index reach_heap (options_iterables None) 13%nat
           (mkObj (KSet [VStr "p"; VStr "q"]) (Some SetPrototype) true [])
           [VStr "p"; VStr "q"] 1%N (VStr "q")); reflexivity.
Defined.

(** X28.  With [iterables], a negative index into a Set, which has a
    size and no [length], finds nothing: [reach(set, '-k')] is
    [undefined] whatever the Set holds and whatever the default, where on
    an array it counts from the end. *)
Theorem reach_set_negative_index h options l o vs k :
  truthy (flag (ro_iterables options)) = true ->
  truthy (flag (ro_separator options)) = false ->
  h !! l = Some o -> o_kind o = KSet vs ->
  instanceof h (VObj l) SetPrototype = true ->
  get h (VObj l) length_key = Ret VUndef ->
  get h (VObj ArrayPrototype) (KStr "NaN") = Ret VUndef ->
  (0 < k)%N ->
  reach_with h (VObj l) (VStr (String "-" (string_of_N k))) (ReachObject options)
  = Ret VUndef.
Proof.
  intros Hit Hsep Hl Hk Hset Hlen Hnan Hpos.
  destruct (set_is_object h l o Hl vs Hk) as [Harr Hty].
  rewrite (reach_with_plain h options Hsep)
    by (cbn [list_ascii_of_string forallb Ascii.eqb]; apply string_of_N_no_dot).
  cbn [reach_with_loop]. unfold iterables. rewrite Hit, Hset.
  unfold reach_segment. rewrite Harr. cbn [to_integer].
  rewrite number_of_negative. cbn [obind].
  replace (- Z.of_N k <? 0) with true by (symmetry; apply Z.ltb_lt; lia).
  rewrite Hlen. cbn [obind plus_number truthy negb]. rewrite Hty.
  rewrite (bool_decide_eq_false_2 (TObject = TFunction)) by discriminate.
  cbn [andb obind]. unfold spread_get, kind_of. rewrite Hl, Hk. cbn [to_key].
  rewrite bool_decide_eq_false_2 by discriminate.
  replace (array_index (KStr "NaN")) with (@None N) by reflexivity.
  rewrite Hnan. reflexivity.
Qed.

Lemma reach_set_negative_index_witness :
  reach_with reach_heap (VObj 13%nat) (VStr (String "-" (string_of_N 1)))
    (ReachObject (options_iterables None)) = Ret VUndef.
Proof.
  apply (reach_set_negative_index reach_heap (options_iterables None) 13%nat
           (mkObj (KSet [VStr "p"; VStr "q"]) (Some SetPrototype) true [])
           [VStr "p"; VStr "q"] 1%N); reflexivity.
Defined.

(** X29.  With [iterables], [reach(map, 'k')] for a Map and a key that
    is a text without the separator is [map.get('k')]: the value stored
    under the key, or [undefined] when there is none, the default
    notwithstanding. *)
Theorem reach_map_entry h options l o es k :
  truthy (flag (ro_iterables options)) = true ->
  truthy (flag (ro_separator options)) = false ->
  h !! l = Some o -> o_kind o = KMap es ->
  instanceof h (VObj l) SetPrototype = false ->
  instanceof h (VObj l) MapPrototype = true ->
  forallb (fun c => negb (Ascii.eqb c ".")) (list_ascii_of_string k) = true ->
  reach_with h (VObj l) (VStr k) (ReachObject options)
  = Ret (match List.find (fun kv => same_value_zero (VStr k) kv.1) es with
         | Some kv => kv.2
         | None => VUndef
         end).
Proof.
  intros Hit Hsep Hl Hk Hset Hmap Hplain.
  destruct (map_is_object h l o Hl es Hk) as [Harr Hty].
  rewrite (reach_with_plain h options Hsep) by exact Hplain.
  cbn [reach_with_loop]. unfold iterables. rewrite Hit, Hset, Hmap.
  unfold reach_segment. rewrite Harr. cbn [obind truthy negb]. rewrite Hty.
  rewrite (bool_decide_eq_false_2 (TObject = TFunction)) by discriminate.
  cbn [andb obind]. unfold map_get, kind_of. rewrite Hl, Hk. reflexivity.
Qed.

Lemma reach_map_entry_witness :
  reach_with reach_heap (VObj 14%nat) (VStr "z")
    (ReachObject (options_iterables (Some (VNum 0))))
  = Ret (match List.find (fun kv => same_value_zero (VStr "z") kv.1)
                 [(VStr "k", VNum 7)] with
         | Some kv => kv.2
         | None => VUndef
         end).
Proof.
  apply (reach_map_entry reach_heap (options_iterables (Some (VNum 0))) 14%nat
           (mkObj (KMap [(VStr "k", VNum 7)]) (Some MapPrototype) true [])
           [(VStr "k", VNum 7)] "z"); reflexivity.
Defined.
